(** * sourcecred core: addresses, address maps and the graph built on them

    A shallow embedding of [src/core/address.js] and [src/core/graph.js],
    and of the node addresses of the GitHub plugin.

    - JavaScript objects are ordered property lists: insertion order is
      what [Object.keys] and [JSON.stringify] follow.
    - Strings are sequences of 8-bit code units.
    - An [Address] is an object with string-valued properties; the exact
      object type of the source is the predicate [isAddress].
    - Nodes, edges and index entries are records: nothing in the source
      observes the order of their properties ([lodash.isequal] does not,
      and only addresses are ever stringified).
    - [AddressMap]'s [_data] object is a property list keyed by
      [JSON.stringify address].
    - Methods that mutate [this] are computations in a state monad whose
      state survives a [throw], as it does in JavaScript.
    - Static methods that allocate graphs run over a store of graph
      objects, so that a graph passed in and the graph returned are
      different objects of one store.
    - Resolvers are functions that return a value or throw.
    - [Array.prototype.sort] is a stable insertion sort; what is proved
      of [sortedByAddress] holds of every sort that returns its elements
      in the order of the comparison. *)

From Stdlib Require Import String Ascii List Bool Arith NArith ZArith Lia.
From Stdlib Require Import Permutation Sorted.
Import ListNotations.
Local Open Scope string_scope.
Local Open Scope list_scope.

(* ================================================================= *)
(** ** JavaScript objects with string keys *)

Module JsObject.
Section WithValues.
Context {V : Type}.

(** [o[k]], with [None] for [undefined]. *)
Fixpoint get (k : string) (o : list (string * V)) : option V :=
  match o with
  | [] => None
  | (k', v) :: o' => if String.eqb k' k then Some v else get k o'
  end.

(** [o[k] = v]: an existing property keeps its place, a new one goes
  last. *)
Fixpoint set (k : string) (v : V) (o : list (string * V))
  : list (string * V) :=
  match o with
  | [] => [(k, v)]
  | (k', v') :: o' =>
      if String.eqb k' k then (k', v) :: o' else (k', v') :: set k v o'
  end.

(** [Object.keys(o)]. *)
Definition keys (o : list (string * V)) : list string := map fst o.

(** [Object.keys(o).map((k) => o[k])]. *)
Definition values (o : list (string * V)) : list V := map snd o.

(** [k in o]. *)
Definition has (k : string) (o : list (string * V)) : bool :=
  match get k o with Some _ => true | None => false end.

(** lodash's [equalObjects]: the same number of own keys, and every key
  of [a] is a key of [b] holding an equal value.  Key order plays no
  part. *)
Definition isEqualWith (eqv : V -> V -> bool) (a b : list (string * V))
  : bool :=
  (length a =? length b)%nat &&
  forallb (fun kv => match get (fst kv) b with
                     | Some v' => eqv (snd kv) v'
                     | None => false
                     end) a.
End WithValues.
End JsObject.

(* ================================================================= *)
(** ** JSON.stringify and JSON.parse on objects of strings

    Code units are modelled as 8-bit characters.  [stringify] follows
    QuoteJSONString; [parse] accepts the JSON texts that denote an object
    whose members are all strings, with insignificant white space. *)

Module JSON.

Definition dquote : ascii := "034"%char.
Definition backslash : ascii := "092"%char.

Definition hexDigit (n : N) : ascii :=
  match n with
  | 0 => "0" | 1 => "1" | 2 => "2" | 3 => "3" | 4 => "4" | 5 => "5"
  | 6 => "6" | 7 => "7" | 8 => "8" | 9 => "9" | 10 => "a" | 11 => "b"
  | 12 => "c" | 13 => "d" | 14 => "e" | _ => "f"
  end%N%char.

(** One code unit of a quoted string. *)
Definition quoteChar (c : ascii) : string :=
  if Ascii.eqb c dquote then String backslash (String dquote "")
  else if Ascii.eqb c backslash then String backslash (String backslash "")
  else if Ascii.eqb c "008" then String backslash "b"
  else if Ascii.eqb c "012" then String backslash "f"
  else if Ascii.eqb c "010" then String backslash "n"
  else if Ascii.eqb c "013" then String backslash "r"
  else if Ascii.eqb c "009" then String backslash "t"
  else if (N_of_ascii c <? 32)%N then
    String backslash
      (String "u" (String "0" (String "0"
        (String (hexDigit (N_of_ascii c / 16))
          (String (hexDigit (N_of_ascii c mod 16)) "")))))
  else String c "".

Fixpoint quoteChars (s : string) : string :=
  match s with
  | EmptyString => ""
  | String c s' => (quoteChar c ++ quoteChars s')%string
  end.

(** [JSON.stringify(s)] for a string [s]. *)
Definition quote (s : string) : string :=
  String dquote (quoteChars s ++ String dquote "")%string.

Definition member (kv : string * string) : string :=
  (quote (fst kv) ++ String ":" (quote (snd kv)))%string.

Fixpoint members (o : list (string * string)) : string :=
  match o with
  | [] => ""
  | [kv] => member kv
  | kv :: o' => (member kv ++ String "," (members o'))%string
  end.

(** [JSON.stringify(o)] for an object [o] whose values are strings:
  the properties in their own order. *)
Definition stringify (o : list (string * string)) : string :=
  String "{" (members o ++ "}")%string.

Definition hexValue (c : ascii) : option N :=
  let n := N_of_ascii c in
  if ((48 <=? n) && (n <=? 57))%N then Some (n - 48)%N
  else if ((97 <=? n) && (n <=? 102))%N then Some (n - 87)%N
  else if ((65 <=? n) && (n <=? 70))%N then Some (n - 55)%N
  else None.

(** The character after a backslash, [u] apart. *)
Definition unescape (e : ascii) : option ascii :=
  if Ascii.eqb e dquote then Some dquote
  else if Ascii.eqb e backslash then Some backslash
  else if Ascii.eqb e "/" then Some "/"%char
  else if Ascii.eqb e "b" then Some "008"%char
  else if Ascii.eqb e "f" then Some "012"%char
  else if Ascii.eqb e "n" then Some "010"%char
  else if Ascii.eqb e "r" then Some "013"%char
  else if Ascii.eqb e "t" then Some "009"%char
  else None.

(** Four hex digits; a code unit above 255 has no image here. *)
Definition hex4 (h1 h2 h3 h4 : ascii) : option ascii :=
  match hexValue h1, hexValue h2, hexValue h3, hexValue h4 with
  | Some a, Some b, Some c, Some d =>
      let n := (((a * 16 + b) * 16 + c) * 16 + d)%N in
      if (n <? 256)%N then Some (ascii_of_N n) else None
  | _, _, _, _ => None
  end.

Definition consChar (c : ascii) (r : option (string * string))
  : option (string * string) :=
  match r with
  | Some (s, rest) => Some (String c s, rest)
  | None => None
  end.

(** The characters of a string literal after its opening quote; gives
  the string and what follows the closing quote. *)
Fixpoint parseChars (s : string) : option (string * string) :=
  match s with
  | EmptyString => None
  | String c s1 =>
      if Ascii.eqb c dquote then Some ("", s1)
      else if Ascii.eqb c backslash then
        match s1 with
        | EmptyString => None
        | String e s2 =>
            if Ascii.eqb e "u" then
              match s2 with
              | String h1 (String h2 (String h3 (String h4 s6))) =>
                  match hex4 h1 h2 h3 h4 with
                  | Some c' => consChar c' (parseChars s6)
                  | None => None
                  end
              | _ => None
              end
            else
              match unescape e with
              | Some c' => consChar c' (parseChars s2)
              | None => None
              end
        end
      else if (N_of_ascii c <? 32)%N then None
      else consChar c (parseChars s1)
  end.

Definition isWhitespace (c : ascii) : bool :=
  Ascii.eqb c " " || Ascii.eqb c "009" || Ascii.eqb c "010"
  || Ascii.eqb c "013".

Fixpoint skipWhitespace (s : string) : string :=
  match s with
  | EmptyString => ""
  | String c s' => if isWhitespace c then skipWhitespace s' else s
  end.

Definition parseString (s : string) : option (string * string) :=
  match skipWhitespace s with
  | String c s' => if Ascii.eqb c dquote then parseChars s' else None
  | EmptyString => None
  end.

(** The members of an object after its opening brace, in text order;
  each turn of the loop reads one member. *)
Fixpoint parseMembers (fuel : nat) (s : string)
  : option (list (string * string) * string) :=
  match fuel with
  | O => None
  | S fuel' =>
      match parseString s with
      | None => None
      | Some (k, s1) =>
          match skipWhitespace s1 with
          | String ":" s2 =>
              match parseString s2 with
              | None => None
              | Some (v, s3) =>
                  match skipWhitespace s3 with
                  | String "," s4 =>
                      match parseMembers fuel' s4 with
                      | Some (o, s5) => Some ((k, v) :: o, s5)
                      | None => None
                      end
                  | String "}" s4 => Some ([(k, v)], s4)
                  | _ => None
                  end
              end
          | _ => None
          end
      end
  end.

(** The member list of a JSON text, in text order. *)
Definition parseObject (s : string) : option (list (string * string)) :=
  match skipWhitespace s with
  | String "{" s1 =>
      match skipWhitespace s1 with
      | String "}" s2 =>
          match skipWhitespace s2 with
          | EmptyString => Some []
          | _ => None
          end
      | _ =>
          match parseMembers (String.length s) s1 with
          | Some (o, s2) =>
              match skipWhitespace s2 with
              | EmptyString => Some o
              | _ => None
              end
          | None => None
          end
      end
  | _ => None
  end.

(** [JSON.parse(s)]: the members are assigned in text order, so a
  repeated name keeps its first place and its last value.  [None]
  stands for a [SyntaxError], and for a text that denotes something
  other than an object of strings. *)
Definition parse (s : string) : option (list (string * string)) :=
  match parseObject s with
  | Some ms =>
      Some (fold_left (fun o kv => JsObject.set (fst kv) (snd kv) o) ms [])
  | None => None
  end.

End JSON.

(* ================================================================= *)
(** ** Addresses and the capabilities of the values stored under them *)

(** An address object: its properties in the order they were assigned. *)
Definition Address : Type := list (string * string).

Definition fieldNames : list string :=
  ["repositoryName"; "pluginName"; "type"; "id"].

(** The exact object type [Address]: the four fields and nothing else,
  in any order. *)
Definition isAddress (a : Address) : bool :=
  (length a =? 4)%nat && forallb (fun f => JsObject.has f a) fieldNames.

(** [lodash.isequal] at one type. *)
Class DeepEqual (A : Type) := deepEqual : A -> A -> bool.

#[export] Instance DeepEqual_string : DeepEqual string := String.eqb.

#[export] Instance DeepEqual_Address : DeepEqual Address :=
  JsObject.isEqualWith (deepEqual (A := string)).

(** [interface Addressable { +address: Address }]. *)
Class Addressable (U : Type) := address : U -> Address.

(** Taking the [address] property off a value and putting one on:
  [{...u}; delete .address] and [{...s, address: a}]. *)
Class SansAddress (U S : Type) := {
  sansAddress : U -> S;
  withAddress : S -> Address -> U
}.

(* ================================================================= *)
(** ** Exceptions and the state monad of methods *)

Inductive exn : Type :=
| Error (message : string)
| TypeError (message : string)
| SyntaxError (message : string).

Inductive Result (A : Type) : Type :=
| Ok (a : A)
| Throw (e : exn).
Arguments Ok {A} a.
Arguments Throw {A} e.

(** A computation over a mutable state [St]; the state reached when an
  exception is thrown is kept. *)
Definition M (St A : Type) : Type := St -> Result A * St.

Definition ret {St A : Type} (a : A) : M St A := fun s => (Ok a, s).

Definition throw {St A : Type} (e : exn) : M St A := fun s => (Throw e, s).

Definition bind {St A B : Type} (m : M St A) (k : A -> M St B) : M St B :=
  fun s =>
    match m s with
    | (Ok a, s') => k a s'
    | (Throw e, s') => (Throw e, s')
    end.

Definition gets {St A : Type} (f : St -> A) : M St A := fun s => (Ok (f s), s).

Definition modify {St : Type} (f : St -> St) : M St unit :=
  fun s => (Ok tt, f s).

Definition liftResult {St A : Type} (r : Result A) : M St A :=
  fun s => (r, s).

Notation "x <- m ;; k" := (bind m (fun x => k))
  (at level 61, m at next level, right associativity).
Notation "m ;;; k" := (bind m (fun _ => k))
  (at level 61, right associativity).

(** [xs.forEach(f)]: an exception ends the loop. *)
Fixpoint forEach {St A : Type} (xs : list A) (f : A -> M St unit)
  : M St unit :=
  match xs with
  | [] => ret tt
  | x :: xs' => f x ;;; forEach xs' f
  end.

(* ================================================================= *)
(** ** AddressMap *)

Module AddressMap.
Section WithU.
Context {U : Type} `{Addressable U}.

(** The [_data] object of an [AddressMap<U>]. *)
Definition t : Type := list (string * U).

(** [new AddressMap()]. *)
Definition empty : t := [].

Definition equals `{DeepEqual U} (this that : t) : bool :=
  JsObject.isEqualWith deepEqual this that.

(** A value of type [U] has an address, and an argument of type
  [Address] is an address: the guards that throw on [null] and
  [undefined] never fire on typed arguments and are left out, here and
  in [Graph]. *)
Definition add (u : U) (this : t) : t :=
  let key := JSON.stringify (address u) in
  JsObject.set key u this.

Definition get (a : Address) (this : t) : option U :=
  let key := JSON.stringify a in
  JsObject.get key this.

Definition getAll (this : t) : list U := JsObject.values this.

Section JSON.
Context {S : Type} `{SansAddress U S}.

(** Each property of [_data] is visited once, in order, and copied
  without its address into a new object. *)
Definition toJSON (this : t) : list (string * S) :=
  fold_left
    (fun result kv => JsObject.set (fst kv) (sansAddress (snd kv)) result)
    this [].

Fixpoint fromJSON_from (json : list (string * S)) (result : t)
  : Result t :=
  match json with
  | [] => Ok result
  | (key, s) :: json' =>
      match JSON.parse key with
      | Some a => fromJSON_from json' (JsObject.set key (withAddress s a) result)
      | None => Throw (SyntaxError key)
      end
  end.

Definition fromJSON (json : list (string * S)) : Result t :=
  fromJSON_from json empty.
End JSON.
End WithU.
Arguments t U : clear implicits.
End AddressMap.

(* ================================================================= *)
(** ** Graph *)

Module Graph.

Record Node (NP : Type) : Type := mkNode {
  nodeAddress : Address;
  nodePayload : NP
}.
Arguments mkNode {NP}.
Arguments nodeAddress {NP}.
Arguments nodePayload {NP}.

Record Edge (EP : Type) : Type := mkEdge {
  edgeAddress : Address;
  src : Address;
  dst : Address;
  edgePayload : EP
}.
Arguments mkEdge {EP}.
Arguments edgeAddress {EP}.
Arguments src {EP}.
Arguments dst {EP}.
Arguments edgePayload {EP}.

(** An entry of [_outEdges] or [_inEdges]:
  [{address: Address, edges: Address[]}]. *)
Record EdgeList : Type := mkEdgeList {
  listAddress : Address;
  edges : list Address
}.

(** An edge as JSON holds: everything but its address. *)
Record EdgeJSON (EP : Type) : Type := mkEdgeJSON {
  jsonSrc : Address;
  jsonDst : Address;
  jsonPayload : EP
}.
Arguments mkEdgeJSON {EP}.
Arguments jsonSrc {EP}.
Arguments jsonDst {EP}.
Arguments jsonPayload {EP}.

#[export] Instance Addressable_Node {NP} : Addressable (Node NP) :=
  nodeAddress.
#[export] Instance Addressable_Edge {EP} : Addressable (Edge EP) :=
  edgeAddress.
#[export] Instance Addressable_EdgeList : Addressable EdgeList :=
  listAddress.

#[export] Instance DeepEqual_Node {NP} `{DeepEqual NP}
  : DeepEqual (Node NP) :=
  fun a b =>
    deepEqual (nodeAddress a) (nodeAddress b)
    && deepEqual (nodePayload a) (nodePayload b).

#[export] Instance DeepEqual_Edge {EP} `{DeepEqual EP}
  : DeepEqual (Edge EP) :=
  fun a b =>
    deepEqual (edgeAddress a) (edgeAddress b)
    && deepEqual (src a) (src b)
    && deepEqual (dst a) (dst b)
    && deepEqual (edgePayload a) (edgePayload b).

#[export] Instance SansAddress_Node {NP} : SansAddress (Node NP) NP := {
  sansAddress n := nodePayload n;
  withAddress p a := mkNode a p
}.

#[export] Instance SansAddress_Edge {EP}
  : SansAddress (Edge EP) (EdgeJSON EP) := {
  sansAddress e := mkEdgeJSON (src e) (dst e) (edgePayload e);
  withAddress j a := mkEdge a (jsonSrc j) (jsonDst j) (jsonPayload j)
}.

Section WithPayloads.
Context {NP EP : Type} `{DeepEqual NP} `{DeepEqual EP}.

Record Graph : Type := mkGraph {
  _nodes : AddressMap.t (Node NP);
  _edges : AddressMap.t (Edge EP);
  _outEdges : AddressMap.t EdgeList;
  _inEdges : AddressMap.t EdgeList
}.

Record GraphJSON : Type := mkGraphJSON {
  jsonNodes : list (string * NP);
  jsonEdges : list (string * EdgeJSON EP)
}.

(** [new Graph()]. *)
Definition empty : Graph :=
  mkGraph AddressMap.empty AddressMap.empty AddressMap.empty
    AddressMap.empty.

Definition equals (this that : Graph) : bool :=
  AddressMap.equals (_nodes this) (_nodes that)
  && AddressMap.equals (_edges this) (_edges that).

Definition toJSON (this : Graph) : GraphJSON :=
  mkGraphJSON (AddressMap.toJSON (_nodes this))
    (AddressMap.toJSON (_edges this)).

Definition getNode (a : Address) (this : Graph) : option (Node NP) :=
  AddressMap.get a (_nodes this).

Definition getEdge (a : Address) (this : Graph) : option (Edge EP) :=
  AddressMap.get a (_edges this).

Definition getAllNodes (this : Graph) : list (Node NP) :=
  AddressMap.getAll (_nodes this).

Definition getAllEdges (this : Graph) : list (Edge EP) :=
  AddressMap.getAll (_edges this).

(** The messages of the errors the graph throws. *)
Definition nodeConflict (a : Address) : exn :=
  Error ("node at address " ++ JSON.stringify a
         ++ " exists with distinct contents")%string.

Definition edgeConflict (a : Address) : exn :=
  Error ("edge at address " ++ JSON.stringify a
         ++ " exists with distinct contents")%string.

Definition sourceDoesNotExist (a : Address) : exn :=
  Error ("source " ++ JSON.stringify a ++ " does not exist")%string.

Definition noNodeForAddress (a : Address) : exn :=
  Error ("no node for address " ++ JSON.stringify a)%string.

Definition addNode (node : Node NP) : M Graph unit :=
  existingNode <- gets (getNode (address node)) ;;
  match existingNode with
  | Some existingNode =>
      if deepEqual existingNode node then ret tt
      else throw (nodeConflict (address node))
  | None =>
      modify (fun this =>
        mkGraph (AddressMap.add node (_nodes this)) (_edges this)
          (_outEdges this) (_inEdges this)) ;;;
      modify (fun this =>
        mkGraph (_nodes this) (_edges this)
          (AddressMap.add (mkEdgeList (address node) []) (_outEdges this))
          (_inEdges this)) ;;;
      modify (fun this =>
        mkGraph (_nodes this) (_edges this) (_outEdges this)
          (AddressMap.add (mkEdgeList (address node) []) (_inEdges this)))
  end.

(** [index.get(a).edges.push(e)]: the array held by the entry at [a]
  grows in place; with no entry there, reading [.edges] of
  [undefined] is a [TypeError]. *)
Definition pushEdge (a e : Address) (index : AddressMap.t EdgeList)
  : Result (AddressMap.t EdgeList) :=
  match AddressMap.get a index with
  | Some entry =>
      Ok (JsObject.set (JSON.stringify a)
            (mkEdgeList (listAddress entry) (edges entry ++ [e])) index)
  | None => Throw (TypeError "Cannot read property 'edges' of undefined")
  end.

Definition pushOutEdge (a e : Address) : M Graph unit :=
  fun this =>
    match pushEdge a e (_outEdges this) with
    | Ok index =>
        (Ok tt, mkGraph (_nodes this) (_edges this) index (_inEdges this))
    | Throw err => (Throw err, this)
    end.

Definition pushInEdge (a e : Address) : M Graph unit :=
  fun this =>
    match pushEdge a e (_inEdges this) with
    | Ok index =>
        (Ok tt, mkGraph (_nodes this) (_edges this) (_outEdges this) index)
    | Throw err => (Throw err, this)
    end.

Definition addEdge (edge : Edge EP) : M Graph unit :=
  existingEdge <- gets (getEdge (address edge)) ;;
  match existingEdge with
  | Some existingEdge =>
      if deepEqual existingEdge edge then ret tt
      else throw (edgeConflict (address edge))
  | None =>
      srcNode <- gets (getNode (src edge)) ;;
      match srcNode with
      | None => throw (sourceDoesNotExist (src edge))
      | Some _ =>
          dstNode <- gets (getNode (dst edge)) ;;
          match dstNode with
          | None => throw (sourceDoesNotExist (dst edge))
          | Some _ =>
              modify (fun this =>
                mkGraph (_nodes this) (AddressMap.add edge (_edges this))
                  (_outEdges this) (_inEdges this)) ;;;
              pushOutEdge (src edge) (address edge) ;;;
              pushInEdge (dst edge) (address edge)
          end
      end
  end.

Definition getOutEdges (nodeAddress : Address) (this : Graph)
  : Result (list (option (Edge EP))) :=
  match AddressMap.get nodeAddress (_outEdges this) with
  | None => Throw (noNodeForAddress nodeAddress)
  | Some result => Ok (map (fun e => getEdge e this) (edges result))
  end.

Definition getInEdges (nodeAddress : Address) (this : Graph)
  : Result (list (option (Edge EP))) :=
  match AddressMap.get nodeAddress (_inEdges this) with
  | None => Throw (noNodeForAddress nodeAddress)
  | Some result => Ok (map (fun e => getEdge e this) (edges result))
  end.

(** *** The store of graph objects *)

(** Graph objects live in a store; [next] is the first reference not
  yet allocated.  A graph object owns its four maps and the arrays of
  its index entries: [addNode] creates each array as [[]], and
  [getOutEdges] and [getInEdges] hand out a mapped copy, so no array is
  reachable from two graphs.  Node and edge objects are shared between
  graphs ([merge] adds the nodes of its inputs to its result) and are
  never written to. *)
Record Store : Type := mkStore {
  next : nat;
  heap : nat -> Graph
}.

(** [new Graph()] as an allocation. *)
Definition new : M Store nat :=
  fun s =>
    (Ok (next s),
     mkStore (Datatypes.S (next s))
       (fun r => if Nat.eqb r (next s) then empty else heap s r)).

(** A method call on the graph object at [r]. *)
Definition on {A : Type} (r : nat) (m : M Graph A) : M Store A :=
  fun s =>
    let (res, g) := m (heap s r) in
    (res, mkStore (next s) (fun r' => if Nat.eqb r' r then g else heap s r')).

Definition fromJSON (json : GraphJSON) : M Store nat :=
  result <- new ;;
  nodes <- liftResult (AddressMap.fromJSON (jsonNodes json)) ;;
  forEach (AddressMap.getAll nodes) (fun node =>
    on result (addNode node)) ;;;
  edges <- liftResult (AddressMap.fromJSON (jsonEdges json)) ;;
  forEach (AddressMap.getAll edges) (fun edge =>
    on result (addEdge edge)) ;;;
  ret result.

(** A resolver is a function of its two arguments that returns a value
  or throws; it holds no reference to a graph. *)
Definition Resolver (T : Type) : Type := T -> T -> Result T.

(** Each loop body looks its element up once where the source looks it
  up twice, in the test and again in the call of the resolver; nothing
  is written between the two. *)
Definition merge (g1 g2 : nat)
    (nodeResolver : Resolver (Node NP))
    (edgeResolver : Resolver (Edge EP)) : M Store nat :=
  result <- new ;;
  nodes1 <- on g1 (gets getAllNodes) ;;
  forEach nodes1 (fun node =>
    other <- on g2 (gets (getNode (address node))) ;;
    match other with
    | Some other =>
        resolved <- liftResult (nodeResolver node other) ;;
        on result (addNode resolved)
    | None => on result (addNode node)
    end) ;;;
  nodes2 <- on g2 (gets getAllNodes) ;;
  forEach nodes2 (fun node =>
    present <- on result (gets (getNode (address node))) ;;
    match present with
    | None => on result (addNode node)
    | Some _ => ret tt
    end) ;;;
  edges1 <- on g1 (gets getAllEdges) ;;
  forEach edges1 (fun edge =>
    other <- on g2 (gets (getEdge (address edge))) ;;
    match other with
    | Some other =>
        resolved <- liftResult (edgeResolver edge other) ;;
        on result (addEdge resolved)
    | None => on result (addEdge edge)
    end) ;;;
  edges2 <- on g2 (gets getAllEdges) ;;
  forEach edges2 (fun edge =>
    present <- on result (gets (getEdge (address edge))) ;;
    match present with
    | None => on result (addEdge edge)
    | Some _ => ret tt
    end) ;;;
  ret result.

Definition distinct (kinds : string) (a : Address) : exn :=
  Error ("distinct " ++ kinds ++ " with address " ++ JSON.stringify a)%string.

Definition conservativeResolver {T : Type} `{Addressable T} `{DeepEqual T}
    (kinds : string) : Resolver T :=
  fun a b =>
    if deepEqual a b then Ok a
    else Throw (distinct kinds (address a)).

Definition mergeConservative (g1 g2 : nat) : M Store nat :=
  merge g1 g2 (conservativeResolver "nodes") (conservativeResolver "edges").

End WithPayloads.
Arguments Graph : clear implicits.
Arguments GraphJSON : clear implicits.
Arguments Store : clear implicits.
End Graph.

(* ================================================================= *)
(** ** What the properties are stated with *)

(** Field-wise equality of two addresses. *)
Definition sameFields (a b : Address) : Prop :=
  forall f, In f fieldNames -> JsObject.get f a = JsObject.get f b.

(** [x] is in [l] at one place and nowhere else. *)
Definition occursOnce {A : Type} (x : A) (l : list A) : Prop :=
  exists l1 l2, l = l1 ++ x :: l2 /\ ~ In x l1 /\ ~ In x l2.

(** The invariant of an [AddressMap]: no key twice, and every value is
  stored under the serialization of its own address. *)
Definition mapOk {U : Type} `{Addressable U} (m : AddressMap.t U) : Prop :=
  NoDup (JsObject.keys m)
  /\ forall k u, In (k, u) m -> k = JSON.stringify (address u).


Section GraphInvariant.
Import Graph.
Context {NP EP : Type}.

(** One of the two edge indices of a graph is in line with its edge
  map: [endpoint] is [src] for [_outEdges] and [dst] for [_inEdges]. *)
Record indexOk (endpoint : Edge EP -> Address)
    (nodes : AddressMap.t (Node NP)) (edgeMap : AddressMap.t (Edge EP))
    (index : AddressMap.t EdgeList) : Prop := {
  index_map : mapOk index;
  index_keys : JsObject.keys index = JsObject.keys nodes;
  index_nodup : forall k l, JsObject.get k index = Some l -> NoDup (edges l);
  index_has : forall k e, JsObject.get k edgeMap = Some e ->
    exists l, AddressMap.get (endpoint e) index = Some l
              /\ In (address e) (edges l);
  index_form : forall k l a, JsObject.get k index = Some l ->
    In a (edges l) ->
    exists e, AddressMap.get a edgeMap = Some e
              /\ JSON.stringify (endpoint e) = k
}.

(** The invariant the comment in [Graph] asks for, with the invariants
  of the four maps. *)
Record wf (g : Graph NP EP) : Prop := {
  wf_nodes : mapOk (_nodes g);
  wf_edges : mapOk (_edges g);
  wf_out : indexOk src (_nodes g) (_edges g) (_outEdges g);
  wf_in : indexOk dst (_nodes g) (_edges g) (_inEdges g)
}.

(** The two invariants as the specification words them. *)
Definition sameKeysets (g : Graph NP EP) : Prop :=
  JsObject.keys (_nodes g) = JsObject.keys (_outEdges g)
  /\ JsObject.keys (_nodes g) = JsObject.keys (_inEdges g).

Definition edgesIndexedOnce (g : Graph NP EP) : Prop :=
  forall e, In e (getAllEdges g) ->
    (exists l, AddressMap.get (src e) (_outEdges g) = Some l
               /\ occursOnce (address e) (edges l))
    /\ (exists l, AddressMap.get (dst e) (_inEdges g) = Some l
                  /\ occursOnce (address e) (edges l)).
End GraphInvariant.

(* ================================================================= *)
(** ** Sample data, after [address.test.js] *)

Definition makeAddress (id : string) : Address :=
  [("repositoryName", "sourcecred/suburbia"); ("pluginName", "houseville");
   ("id", id); ("type", "HOUSETYPE")].

(** The same four fields, assigned in the order of the type's
  declaration. *)
Definition makeAddressDeclared (id : string) : Address :=
  [("repositoryName", "sourcecred/suburbia"); ("pluginName", "houseville");
   ("type", "HOUSETYPE"); ("id", id)].

(** Two houses and a street between them, as a graph with string
  payloads. *)
Definition mansion : Graph.Node string :=
  Graph.mkNode (makeAddress "mansion") "10 beds".

Definition fakeMansion : Graph.Node string :=
  Graph.mkNode (makeAddress "mansion") "33 beds".

Definition mattressStore : Graph.Node string :=
  Graph.mkNode (makeAddress "mattressStore") "99 beds".

Definition street : Graph.Edge string :=
  Graph.mkEdge (makeAddress "street") (makeAddress "mansion")
    (makeAddress "mattressStore") "one way".

(** [new Graph().addNode(mansion)]. *)
Definition mansionGraph : Graph.Graph string string :=
  snd (Graph.addNode mansion Graph.empty).

(** [new Graph().addNode(mansion).addNode(mattressStore).addEdge(street)]. *)
Definition suburbia : Graph.Graph string string :=
  snd (Graph.addEdge street
         (snd (Graph.addNode mattressStore
                 (snd (Graph.addNode mansion Graph.empty))))).

(** An edge at the address of [street] that starts at a house that is
  not in [suburbia]. *)
Definition streetFromNowhere : Graph.Edge string :=
  Graph.mkEdge (makeAddress "street") (makeAddress "nowhere")
    (makeAddress "mattressStore") "one way".

(** Two edges for [mansionGraph], one with its source missing and one
  with its destination missing. *)
Definition fromMattressStore : Graph.Edge string :=
  Graph.mkEdge (makeAddress "lane") (makeAddress "mattressStore")
    (makeAddress "mansion") "lane".

Definition toMattressStore : Graph.Edge string :=
  Graph.mkEdge (makeAddress "lane") (makeAddress "mansion")
    (makeAddress "mattressStore") "lane".

(** A loop at the mansion. *)
Definition driveway : Graph.Edge string :=
  Graph.mkEdge (makeAddress "driveway") (makeAddress "mansion")
    (makeAddress "mansion") "round".

(* ================================================================= *)
(** ** Pre- and postconditions of computations *)

(** From a state that satisfies [P], [m] ends (with a value or with an
  exception) as [Q] says. *)
Definition hoare {St A : Type} (P : St -> Prop) (m : M St A)
    (Q : Result A -> St -> Prop) : Prop :=
  forall s, P s -> Q (fst (m s)) (snd (m s)).

(** [m] keeps [I], however it ends. *)
Definition keeps {St A : Type} (I : St -> Prop) (m : M St A) : Prop :=
  hoare I m (fun _ => I).

(** The two maps agree wherever they hold the same address. *)
Definition agree {U : Type} `{Addressable U} `{DeepEqual U}
    (m1 m2 : AddressMap.t U) : Prop :=
  forall u1 u2,
    In u1 (AddressMap.getAll m1) ->
    AddressMap.get (address u1) m2 = Some u2 ->
    deepEqual u1 u2 = true.


Section StoreInvariant.
Import Graph.
Context {NP EP : Type}.

(** Where a static method that started in [s0] and allocated one graph
  stands: the graphs of [s0] are as they were, and the new graph
  satisfies [J]. *)
Definition framed (s0 : Store NP EP) (J : Graph NP EP -> Prop)
    (s : Store NP EP) : Prop :=
  next s = S (next s0)
  /\ (forall r, r < next s0 -> heap s r = heap s0 r)
  /\ J (heap s (next s0)).
End StoreInvariant.

Section Constructed.
Import Graph.
Context {NP EP : Type} `{DeepEqual NP} `{DeepEqual EP}.

(** The graphs a program can hold: what [new Graph()] gives, what a
  successful [addNode] or [addEdge] turns such a graph into, and what a
  successful [fromJSON], [merge] or [mergeConservative] returns. *)
Inductive constructed : Graph NP EP -> Prop :=
| constructed_new : constructed empty
| constructed_addNode g n g' :
  constructed g -> addNode n g = (Ok tt, g') -> constructed g'
| constructed_addEdge g e g' :
  constructed g -> addEdge e g = (Ok tt, g') -> constructed g'
| constructed_fromJSON json s r s' :
  fromJSON json s = (Ok r, s') -> constructed (heap s' r)
| constructed_merge g1 g2 nodeResolver edgeResolver s r s' :
  merge g1 g2 nodeResolver edgeResolver s = (Ok r, s') ->
  constructed (heap s' r)
| constructed_mergeConservative g1 g2 s r s' :
  mergeConservative g1 g2 s = (Ok r, s') -> constructed (heap s' r).
End Constructed.

(** What the JSON round trip needs of a value type: a value put together
  again from its own other properties and an address deep-equal to its
  own is deep-equal to the value.  (The properties other than the
  address are the very same objects, and [lodash.isequal] does not look
  at the order of properties.) *)
Class SansAddressLaws (U S : Type) `{Addressable U} `{DeepEqual U}
    `{SansAddress U S} : Prop := {
  withAddress_sansAddress : forall (u : U) (a : Address),
  deepEqual a (address u) = true -> deepEqual u u = true ->
  deepEqual (withAddress (sansAddress u) a) u = true
}.

Section Samples.
Import Graph.

(** The map of [address.test.js]. *)
Definition makeMap : AddressMap.t (Graph.Node string) :=
  AddressMap.add mattressStore (AddressMap.add mansion AddressMap.empty).

(** A store that holds [suburbia] and [mansionGraph]. *)
Definition twoGraphs : Graph.Store string string :=
  Graph.mkStore 2
    (fun r => match r with
              | 0 => suburbia
              | 1 => mansionGraph
              | _ => Graph.empty
              end).

(** A node resolver that answers with a node at an address of its own,
  and an edge resolver that keeps its first argument. *)
Definition palace : Graph.Node string :=
  Graph.mkNode (makeAddress "palace") "resolved".

Definition toPalace : Graph.Resolver (Graph.Node string) :=
  fun _ _ => Ok palace.

Definition keepFirst : Graph.Resolver (Graph.Edge string) :=
  fun e _ => Ok e.
End Samples.

(* ================================================================= *)
(** ** The loops of [merge], as invariants of the result graph *)

(** The property of [_data] that [add] makes for a value. *)
Definition entryOf {U : Type} `{Addressable U} (u : U) : string * U :=
  (JSON.stringify (address u), u).




Section MergeInvariants.
Import Graph.
Context {NP EP : Type} `{DeepEqual NP} `{DeepEqual EP}.
Variables G1 G2 : Graph NP EP.







End MergeInvariants.

(* ================================================================= *)
(** ** [sortedByAddress] *)

Module Array.
(** [Array.prototype.sort] with a comparison function, stable as
  ECMAScript 2019 has it: each element, from the last to the first, goes
  in front of the first element of the sorted rest that it does not
  compare greater than. *)
Fixpoint insert {A : Type} (comparefn : A -> A -> Z) (x : A)
    (sorted : list A) : list A :=
  match sorted with
  | [] => [x]
  | y :: sorted' =>
      if (comparefn x y <=? 0)%Z then x :: y :: sorted'
      else y :: insert comparefn x sorted'
  end.

Definition sort {A : Type} (comparefn : A -> A -> Z) (xs : list A)
  : list A :=
  fold_right (insert comparefn) [] xs.
End Array.

Section SortedByAddress.
Context {U : Type} `{Addressable U}.

(** The comparison of [sortedByAddress]; [>] and [<] on two strings
  follow the order of their code units. *)
Definition cmp (x1 x2 : U) : Z :=
  let a1 := JSON.stringify (address x1) in
  let a2 := JSON.stringify (address x2) in
  if String.ltb a2 a1 then 1%Z else if String.ltb a1 a2 then (-1)%Z else 0%Z.

(** [xs.slice().sort(cmp)]: the argument is left as it is. *)
Definition sortedByAddress (xs : list U) : list U := Array.sort cmp xs.

(** Two values are in the order of their keys. *)
Definition keyLe (x1 x2 : U) : Prop :=
  String.leb (JSON.stringify (address x1)) (JSON.stringify (address x2))
  = true.
End SortedByAddress.

(* ================================================================= *)
(** ** The order of the edge lists *)

Section GraphOrder.
Import Graph.
Context {NP EP : Type}.

(** The edges of an edge map whose [endpoint] has the key [k], in the
  order of the map. *)
Definition edgesAt (endpoint : Edge EP -> Address) (k : string)
    (edgeMap : AddressMap.t (Edge EP)) : list (Edge EP) :=
  filter (fun e => String.eqb (JSON.stringify (endpoint e)) k)
    (AddressMap.getAll edgeMap).

(** Every list of an index holds the addresses of the edges at its key,
  in the order of the edge map. *)
Definition indexOrdered (endpoint : Edge EP -> Address)
    (edgeMap : AddressMap.t (Edge EP)) (index : AddressMap.t EdgeList)
  : Prop :=
  forall k l, JsObject.get k index = Some l ->
    edges l = map address (edgesAt endpoint k edgeMap).

Definition ordered (g : Graph NP EP) : Prop :=
  indexOrdered src (_edges g) (_outEdges g)
  /\ indexOrdered dst (_edges g) (_inEdges g).
End GraphOrder.

(* ================================================================= *)
(** ** What the loops of [fromJSON] have built *)

Section ReadInvariants.
Import Graph.
Context {NP EP : Type}.

(** First loop: the result holds the nodes read so far, and no edge. *)
Definition nodesRead (pre : list (Node NP)) (g : Graph NP EP) : Prop :=
  wf g /\ ordered g /\ _edges g = [] /\ _nodes g = map entryOf pre.

(** Second loop: the result holds the nodes [nodes] and the edges read
  so far. *)
Definition edgesRead (nodes : AddressMap.t (Node NP))
    (pre : list (Edge EP)) (g : Graph NP EP) : Prop :=
  wf g /\ ordered g /\ _nodes g = nodes /\ _edges g = map entryOf pre.
End ReadInvariants.

(* ================================================================= *)
(** ** What [merge] puts into its result *)

Section MergedValues.
Context {U : Type} `{Addressable U}.

(** What the loop over the values of the first graph adds for [x]: the
  answer of the resolver where the second graph holds a value at the
  address of [x], and [x] itself where it holds none. *)
Definition resolveWith (resolver : Graph.Resolver U) (m2 : AddressMap.t U)
    (x : U) : Result U :=
  match AddressMap.get (address x) m2 with
  | Some other => resolver x other
  | None => Ok x
  end.

(** The resolver keeps its contract for [x]: it returns, and its answer
  [r] is at the address of [x]. *)
Definition resolvedTo (resolver : Graph.Resolver U) (m2 : AddressMap.t U)
    (x r : U) : Prop :=
  resolveWith resolver m2 x = Ok r /\ address r = address x.

(** The values among [ys] at whose address the map [m1] holds nothing. *)
Definition onlyInSecond (m1 : AddressMap.t U) (ys : list U) : list U :=
  filter (fun y => negb (JsObject.has (JSON.stringify (address y)) m1)) ys.

(** The property list of a map that took the answers [rs] for the values
  of [m1] and then the values [ys] that [m1] has no address for. *)
Definition mergedMap (m1 : AddressMap.t U) (rs ys : list U)
  : AddressMap.t U :=
  map entryOf (rs ++ onlyInSecond m1 ys).
End MergedValues.

Section MergeLoops.
Import Graph.
Context {NP EP : Type}.

(** First loop of [merge]: the result holds the answers for the nodes of
  the first graph visited so far. *)
Definition firstNodes (nodeResolver : Resolver (Node NP))
    (nodes2 : AddressMap.t (Node NP)) (pre : list (Node NP))
    (g : Graph NP EP) : Prop :=
  wf g /\ ordered g /\ _edges g = []
  /\ exists rs, Forall2 (resolvedTo nodeResolver nodes2) pre rs
                /\ _nodes g = map entryOf rs.

(** Second loop: the answers [ns] for all nodes of the first graph, and
  the nodes of the second graph visited so far that the first has no
  address for. *)
Definition secondNodes (nodes1 : AddressMap.t (Node NP))
    (ns pre : list (Node NP)) (g : Graph NP EP) : Prop :=
  wf g /\ ordered g /\ _edges g = [] /\ _nodes g = mergedMap nodes1 ns pre.

(** Third loop. *)
Definition firstEdges (edgeResolver : Resolver (Edge EP))
    (edges2 : AddressMap.t (Edge EP)) (nodes : AddressMap.t (Node NP))
    (pre : list (Edge EP)) (g : Graph NP EP) : Prop :=
  wf g /\ ordered g /\ _nodes g = nodes
  /\ exists rs, Forall2 (resolvedTo edgeResolver edges2) pre rs
                /\ _edges g = map entryOf rs.

(** Fourth loop, and the graph [merge] returns. *)
Definition secondEdges (edges1 : AddressMap.t (Edge EP))
    (nodes : AddressMap.t (Node NP)) (es pre : list (Edge EP))
    (g : Graph NP EP) : Prop :=
  wf g /\ ordered g /\ _nodes g = nodes /\ _edges g = mergedMap edges1 es pre.
End MergeLoops.

(* ================================================================= *)
(** ** The addresses the GitHub plugin makes *)

Module GithubParser.
Definition GITHUB_PLUGIN_NAME : string := "sourcecred/github-beta".

(** [makeNodeAddress] of a parser for the repository [repositoryName]:
  the four fields, assigned in this order. *)
Definition makeNodeAddress (repositoryName type id : string) : Address :=
  [("pluginName", GITHUB_PLUGIN_NAME); ("repositoryName", repositoryName);
   ("type", type); ("id", id)].
End GithubParser.

(* ================================================================= *)
(** * Properties *)

(** ** Strings *)

Lemma append_assoc (a b c : string) :
  ((a ++ b) ++ c = a ++ (b ++ c))%string.
Proof.
  induction a as [|x a IH]; simpl; [reflexivity | now rewrite IH].
Qed.

(** ** JSON: parsing undoes stringifying *)

Lemma parseChars_quoteChar (c : ascii) (r : string) :
  JSON.parseChars (JSON.quoteChar c ++ r)%string
  = JSON.consChar c (JSON.parseChars r).
Proof.
  destruct c as [[|] [|] [|] [|] [|] [|] [|] [|]]; reflexivity.
Qed.

Lemma parseChars_quoteChars (s r : string) :
  JSON.parseChars (JSON.quoteChars s ++ String JSON.dquote r)%string
  = Some (s, r).
Proof.
  induction s as [|c s IH]; [reflexivity|].
  cbn [JSON.quoteChars]. rewrite append_assoc, parseChars_quoteChar, IH.
  reflexivity.
Qed.

Lemma parseString_quote (s r : string) :
  JSON.parseString (JSON.quote s ++ r)%string = Some (s, r).
Proof.
  unfold JSON.quote, JSON.parseString.
  change (JSON.skipWhitespace
            (String JSON.dquote (JSON.quoteChars s ++ String JSON.dquote "") ++ r)%string)
    with (String JSON.dquote
            ((JSON.quoteChars s ++ String JSON.dquote "") ++ r)%string).
  cbn [Ascii.eqb JSON.dquote Bool.eqb].
  rewrite append_assoc. apply parseChars_quoteChars.
Qed.

Lemma parseMembers_member (fuel : nat) (kv : string * string) (r : string) :
  JSON.parseMembers (S fuel) (JSON.member kv ++ r)%string
  = match JSON.skipWhitespace r with
    | String "," s4 =>
        match JSON.parseMembers fuel s4 with
        | Some (o, s5) => Some (kv :: o, s5)
        | None => None
        end
    | String "}" s4 => Some ([kv], s4)
    | _ => None
    end.
Proof.
  destruct kv as [k v]. unfold JSON.member. cbn [fst snd JSON.parseMembers].
  rewrite append_assoc, parseString_quote.
  cbn [append JSON.skipWhitespace JSON.isWhitespace Ascii.eqb Bool.eqb orb].
  rewrite parseString_quote. reflexivity.
Qed.

Lemma parseMembers_members (o : list (string * string)) :
  forall (fuel : nat) (r : string),
    o <> [] -> length o <= fuel ->
    JSON.parseMembers fuel (JSON.members o ++ String "}" r)%string
    = Some (o, r).
Proof.
  induction o as [|kv o IH]; intros fuel r Hne Hlen; [congruence|].
  destruct fuel as [|fuel]; [simpl in Hlen; lia|].
  destruct o as [|kv' o].
  - cbn [JSON.members]. rewrite parseMembers_member. reflexivity.
  - change (JSON.members (kv :: kv' :: o))
      with (JSON.member kv ++ String "," (JSON.members (kv' :: o)))%string.
    rewrite append_assoc, parseMembers_member.
    cbn [append JSON.skipWhitespace JSON.isWhitespace Ascii.eqb Bool.eqb orb].
    rewrite IH; [reflexivity | congruence | simpl in *; lia].
Qed.

Lemma length_append (a b : string) :
  String.length (a ++ b)%string = String.length a + String.length b.
Proof.
  induction a as [|x a IH]; simpl; [reflexivity | now rewrite IH].
Qed.

Lemma length_members (o : list (string * string)) :
  length o <= String.length (JSON.members o).
Proof.
  induction o as [|kv o IH]; [simpl; lia|].
  destruct o as [|kv' o].
  - destruct kv as [k v]. cbn. lia.
  - change (JSON.members (kv :: kv' :: o))
      with (JSON.member kv ++ String "," (JSON.members (kv' :: o)))%string.
    rewrite length_append. cbn [String.length]. simpl length in *. lia.
Qed.

Lemma parseObject_stringify (o : list (string * string)) :
  JSON.parseObject (JSON.stringify o) = Some o.
Proof.
  destruct o as [|kv o]; [reflexivity|].
  unfold JSON.stringify, JSON.parseObject.
  cbn [JSON.skipWhitespace JSON.isWhitespace Ascii.eqb Bool.eqb orb].
  assert (Hfuel : length (kv :: o)
                  <= String.length (String "{" (JSON.members (kv :: o) ++ "}"))).
  { cbn [String.length]. rewrite length_append.
    pose proof (length_members (kv :: o)). lia. }
  rewrite (parseMembers_members (kv :: o) _ "" ltac:(congruence) Hfuel).
  assert (Hhd : exists s, (JSON.members (kv :: o) ++ "}")%string
                          = String JSON.dquote s).
  { destruct kv as [k v]. destruct o; cbn; eauto. }
  destruct Hhd as [s ->]. reflexivity.
Qed.

Lemma stringify_injective (a b : list (string * string)) :
  JSON.stringify a = JSON.stringify b -> a = b.
Proof.
  intros Heq.
  pose proof (parseObject_stringify a) as Ha.
  rewrite Heq, parseObject_stringify in Ha. congruence.
Qed.

(** ** Property lists *)

Section JsObjectFacts.
Context {V : Type}.
Implicit Types (k : string) (v : V) (o : list (string * V)).

Lemma get_set_same k v o : JsObject.get k (JsObject.set k v o) = Some v.
  Proof.
    induction o as [|[k' v'] o IH]; simpl.
    - now rewrite String.eqb_refl.
    - destruct (String.eqb k' k) eqn:E; simpl; rewrite E; auto.
  Qed.

Lemma get_set_other k k' v o :
    k <> k' -> JsObject.get k' (JsObject.set k v o) = JsObject.get k' o.
  Proof.
    intros Hne. induction o as [|[k0 v0] o IH]; simpl.
    - apply String.eqb_neq in Hne. now rewrite Hne.
    - destruct (String.eqb k0 k) eqn:E; simpl.
      + apply String.eqb_eq in E. subst k0.
        apply String.eqb_neq in Hne. now rewrite Hne.
      + now rewrite IH.
  Qed.

Lemma get_None_iff k o :
    JsObject.get k o = None <-> ~ In k (JsObject.keys o).
  Proof.
    induction o as [|[k' v'] o IH]; simpl; [tauto|].
    destruct (String.eqb_spec k' k) as [->|Hne].
    - split; [discriminate | tauto].
    - rewrite IH. tauto.
  Qed.

Lemma get_Some_In k v o : JsObject.get k o = Some v -> In (k, v) o.
  Proof.
    induction o as [|[k' v'] o IH]; simpl; [discriminate|].
    destruct (String.eqb_spec k' k) as [->|Hne]; intros Hg.
    - left. congruence.
    - right. auto.
  Qed.

Lemma get_Some_In_keys k v o :
    JsObject.get k o = Some v -> In k (JsObject.keys o).
  Proof.
    intros Hg. apply get_Some_In in Hg.
    apply (in_map fst) in Hg. exact Hg.
  Qed.

Lemma In_keys_get k o :
    In k (JsObject.keys o) -> exists v, JsObject.get k o = Some v.
  Proof.
    intros Hin. destruct (JsObject.get k o) as [v|] eqn:E; [eauto|].
    apply get_None_iff in E. contradiction.
  Qed.

Lemma In_get k v o :
    NoDup (JsObject.keys o) -> In (k, v) o -> JsObject.get k o = Some v.
  Proof.
    induction o as [|[k' v'] o IH]; simpl; intros Hnd Hin; [contradiction|].
    inversion Hnd as [|? ? Hnotin Hnd']; subst.
    destruct Hin as [Heq|Hin].
    - inversion Heq; subst. now rewrite String.eqb_refl.
    - destruct (String.eqb_spec k' k) as [->|Hne]; [|auto].
      exfalso. apply Hnotin. apply (in_map fst) in Hin. exact Hin.
  Qed.

Lemma set_absent k v o :
    JsObject.get k o = None -> JsObject.set k v o = o ++ [(k, v)].
  Proof.
    induction o as [|[k' v'] o IH]; simpl; [reflexivity|].
    destruct (String.eqb k' k); [discriminate|].
    intros Hg. now rewrite IH.
  Qed.

Lemma keys_set_present k v v0 o :
    JsObject.get k o = Some v0 ->
    JsObject.keys (JsObject.set k v o) = JsObject.keys o.
  Proof.
    unfold JsObject.keys.
    induction o as [|[k' v'] o IH]; simpl; [discriminate|].
    destruct (String.eqb k' k); simpl; [reflexivity|].
    intros Hg. f_equal. auto.
  Qed.

Lemma keys_set_absent k v o :
    JsObject.get k o = None ->
    JsObject.keys (JsObject.set k v o) = JsObject.keys o ++ [k].
  Proof.
    intros Hg. rewrite set_absent by exact Hg.
    unfold JsObject.keys. now rewrite map_app.
  Qed.

Lemma keys_set k v o :
    JsObject.keys (JsObject.set k v o)
    = match JsObject.get k o with
      | Some _ => JsObject.keys o
      | None => JsObject.keys o ++ [k]
      end.
  Proof.
    destruct (JsObject.get k o) eqn:E.
    - eapply keys_set_present; eauto.
    - now apply keys_set_absent.
  Qed.

Lemma NoDup_keys_set k v o :
    NoDup (JsObject.keys o) -> NoDup (JsObject.keys (JsObject.set k v o)).
  Proof.
    intros Hnd. rewrite keys_set. destruct (JsObject.get k o) eqn:E; auto.
    apply get_None_iff in E.
    apply NoDup_app; repeat split; auto.
    - constructor; [simpl; tauto | constructor].
    - intros x Hx [<-|[]]. contradiction.
  Qed.

Lemma fold_set_fresh (ms acc : list (string * V)) :
    NoDup (JsObject.keys (acc ++ ms)) ->
    fold_left (fun o kv => JsObject.set (fst kv) (snd kv) o) ms acc
    = acc ++ ms.
  Proof.
    revert acc. induction ms as [|[k v] ms IH]; intros acc Hnd; simpl.
    - now rewrite app_nil_r.
    - assert (Hfresh : JsObject.get k acc = None).
      { apply get_None_iff. unfold JsObject.keys in *.
        rewrite map_app in Hnd. simpl in Hnd.
        apply NoDup_remove_2 in Hnd. intros Hin. apply Hnd.
        apply in_or_app. now left. }
      rewrite set_absent by exact Hfresh.
      rewrite IH; rewrite <- app_assoc; [reflexivity | exact Hnd].
  Qed.

Lemma isEqualWith_refl (eqv : V -> V -> bool) o :
    (forall k v, In (k, v) o -> eqv v v = true) ->
    NoDup (JsObject.keys o) ->
    JsObject.isEqualWith eqv o o = true.
  Proof.
    intros Hrefl Hnd. unfold JsObject.isEqualWith.
    rewrite Nat.eqb_refl. simpl. apply forallb_forall.
    intros [k v] Hin. simpl. rewrite (In_get k v o Hnd Hin). eauto.
  Qed.
End JsObjectFacts.

Lemma parse_stringify (o : list (string * string)) :
  NoDup (JsObject.keys o) -> JSON.parse (JSON.stringify o) = Some o.
Proof.
  intros Hnd. unfold JSON.parse. rewrite parseObject_stringify.
  now rewrite (fold_set_fresh o []).
Qed.

(** ** Addresses *)

Lemma isAddress_NoDup (a : Address) :
  isAddress a = true -> NoDup (JsObject.keys a).
Proof.
  unfold isAddress. intros Ha. apply andb_prop in Ha. destruct Ha as [Hlen Hall].
  apply Nat.eqb_eq in Hlen. rewrite forallb_forall in Hall.
  apply (@NoDup_incl_NoDup _ fieldNames).
  - unfold fieldNames. repeat constructor; simpl; intuition discriminate.
  - unfold JsObject.keys. rewrite length_map, Hlen. simpl. lia.
  - intros f Hf. specialize (Hall f Hf). unfold JsObject.has in Hall.
    destruct (JsObject.get f a) eqn:E; [|discriminate].
    eapply get_Some_In_keys; eauto.
Qed.

Lemma deepEqual_Address_refl (a : Address) :
  NoDup (JsObject.keys a) -> deepEqual a a = true.
Proof.
  intros Hnd. apply isEqualWith_refl; [|exact Hnd].
  intros k v _. apply String.eqb_refl.
Qed.

Lemma sameFields_refl (a : Address) : sameFields a a.
Proof. intros f _. reflexivity. Qed.

(** Two property lists with the same keys in the same order and the same
  value at each key are the same list. *)
Lemma keys_get_ext {V : Type} (a b : list (string * V)) :
  JsObject.keys a = JsObject.keys b ->
  NoDup (JsObject.keys a) ->
  (forall k, In k (JsObject.keys a) -> JsObject.get k a = JsObject.get k b) ->
  a = b.
Proof.
  revert b. induction a as [|[k v] a IH]; intros [|[k' v'] b] Hk Hnd Hget;
    try discriminate; [reflexivity|].
  simpl in Hk. injection Hk as -> Hk.
  inversion Hnd as [|? ? Hnotin Hnd']; subst.
  pose proof (Hget k' (or_introl eq_refl)) as Hhd.
  simpl in Hhd. rewrite String.eqb_refl in Hhd. injection Hhd as ->.
  f_equal. apply IH; auto.
  intros k Hin. specialize (Hget k (or_intror Hin)). simpl in Hget.
  destruct (String.eqb_spec k' k) as [->|Hne]; [contradiction | exact Hget].
Qed.

Lemma isAddress_keys_fields (a : Address) (k : string) :
  isAddress a = true -> In k (JsObject.keys a) -> In k fieldNames.
Proof.
  intros Ha. pose proof (isAddress_NoDup a Ha) as Hnd.
  unfold isAddress in Ha. apply andb_prop in Ha. destruct Ha as [Hlen Hall].
  apply Nat.eqb_eq in Hlen. rewrite forallb_forall in Hall.
  revert k. apply NoDup_length_incl.
  - unfold fieldNames. repeat constructor; simpl; intuition discriminate.
  - unfold JsObject.keys. rewrite length_map, Hlen. simpl. lia.
  - intros f Hf. specialize (Hall f Hf). unfold JsObject.has in Hall.
    destruct (JsObject.get f a) eqn:E; [|discriminate].
    eapply get_Some_In_keys; eauto.
Qed.

(** C1 (as amended).  For addresses [a] and [b], [JSON.stringify a] and
  [JSON.stringify b] -- the key under which [AddressMap.add] stores and
  [AddressMap.get] looks up -- are equal if and only if [a] and [b] hold
  the same value in each of the four fields and list the fields in the
  same order.  So the key is a deterministic, injective function of the
  ordered fields, and equal keys force field-wise equality; the order
  in which the fields were assigned is part of the key. *)
Theorem stringify_eq_iff (a b : Address) :
  isAddress a = true -> isAddress b = true ->
  (JSON.stringify a = JSON.stringify b
   <-> JsObject.keys a = JsObject.keys b /\ sameFields a b).
Proof.
  intros Ha Hb. split.
  - intros Heq. apply stringify_injective in Heq. subst b.
    split; [reflexivity | apply sameFields_refl].
  - intros [Hkeys Hsame]. enough (a = b) as -> by reflexivity.
    apply keys_get_ext; [exact Hkeys | now apply isAddress_NoDup |].
    intros k Hin. apply Hsame. exact (isAddress_keys_fields a k Ha Hin).
Qed.

Lemma stringify_eq_iff_witness :
  JSON.stringify (makeAddress "mansion")
  = JSON.stringify (makeAddress "mansion")
  <-> JsObject.keys (makeAddress "mansion")
      = JsObject.keys (makeAddress "mansion")
      /\ sameFields (makeAddress "mansion") (makeAddress "mansion").
Proof.
  apply (stringify_eq_iff (makeAddress "mansion") (makeAddress "mansion"));
    reflexivity.
Defined.

(** C1 as stated fails: the two addresses below agree in all four fields
  and have different keys, because their fields were assigned in
  different orders; a map that holds a value at the one finds nothing
  at the other. *)
Lemma stringify_depends_on_field_order :
  isAddress (makeAddress "mansion") = true
  /\ isAddress (makeAddressDeclared "mansion") = true
  /\ sameFields (makeAddress "mansion") (makeAddressDeclared "mansion")
  /\ JSON.stringify (makeAddress "mansion")
     <> JSON.stringify (makeAddressDeclared "mansion")
  /\ AddressMap.get (makeAddress "mansion") makeMap = Some mansion
  /\ AddressMap.get (makeAddressDeclared "mansion") makeMap = None
  /\ ~ (JSON.stringify (makeAddress "mansion")
        = JSON.stringify (makeAddressDeclared "mansion")
        <-> sameFields (makeAddress "mansion")
              (makeAddressDeclared "mansion")).
Proof.
  assert (Hsame : sameFields (makeAddress "mansion")
                    (makeAddressDeclared "mansion")).
  { intros f Hf. simpl in Hf.
    destruct Hf as [<-|[<-|[<-|[<-|[]]]]]; reflexivity. }
  assert (Hkeys : JSON.stringify (makeAddress "mansion")
                  <> JSON.stringify (makeAddressDeclared "mansion")).
  { intros Heq. apply stringify_injective in Heq. discriminate Heq. }
  split; [reflexivity|]. split; [reflexivity|]. split; [exact Hsame|].
  split; [exact Hkeys|]. split; [reflexivity|]. split; [reflexivity|].
  intros [_ Hback]. exact (Hkeys (Hback Hsame)).
Qed.

(** ** The methods of [Graph], case by case *)

Section GraphMethods.
Import Graph.
Context {NP EP : Type} `{DeepEqual NP} `{DeepEqual EP}.
Implicit Types (g : Graph NP EP) (n : Node NP) (e : Edge EP).

Lemma addNode_same g n n0 :
    getNode (address n) g = Some n0 -> deepEqual n0 n = true ->
    addNode n g = (Ok tt, g).
  Proof.
    intros Hget Heq. unfold addNode, bind, gets. rewrite Hget, Heq.
    reflexivity.
  Qed.

Lemma addNode_conflict g n n0 :
    getNode (address n) g = Some n0 -> deepEqual n0 n = false ->
    addNode n g = (Throw (nodeConflict (address n)), g).
  Proof.
    intros Hget Heq. unfold addNode, bind, gets. rewrite Hget, Heq.
    reflexivity.
  Qed.

Lemma addNode_new g n :
    getNode (address n) g = None ->
    addNode n g
    = (Ok tt,
       mkGraph (AddressMap.add n (_nodes g)) (_edges g)
         (AddressMap.add (mkEdgeList (address n) []) (_outEdges g))
         (AddressMap.add (mkEdgeList (address n) []) (_inEdges g))).
  Proof.
    intros Hget. unfold addNode, bind, gets. rewrite Hget. reflexivity.
  Qed.

Lemma addEdge_same g e e0 :
    getEdge (address e) g = Some e0 -> deepEqual e0 e = true ->
    addEdge e g = (Ok tt, g).
  Proof.
    intros Hget Heq. unfold addEdge, bind, gets. rewrite Hget, Heq.
    reflexivity.
  Qed.

Lemma addEdge_conflict g e e0 :
    getEdge (address e) g = Some e0 -> deepEqual e0 e = false ->
    addEdge e g = (Throw (edgeConflict (address e)), g).
  Proof.
    intros Hget Heq. unfold addEdge, bind, gets. rewrite Hget, Heq.
    reflexivity.
  Qed.

Lemma addEdge_no_src g e :
    getEdge (address e) g = None -> getNode (src e) g = None ->
    addEdge e g = (Throw (sourceDoesNotExist (src e)), g).
  Proof.
    intros Hget Hsrc. unfold addEdge, bind, gets. rewrite Hget, Hsrc.
    reflexivity.
  Qed.

Lemma addEdge_no_dst g e n :
    getEdge (address e) g = None -> getNode (src e) g = Some n ->
    getNode (dst e) g = None ->
    addEdge e g = (Throw (sourceDoesNotExist (dst e)), g).
  Proof.
    intros Hget Hsrc Hdst. unfold addEdge, bind, gets.
    rewrite Hget, Hsrc, Hdst. reflexivity.
  Qed.

Lemma addEdge_new g e n1 n2 lo li :
    getEdge (address e) g = None ->
    getNode (src e) g = Some n1 -> getNode (dst e) g = Some n2 ->
    AddressMap.get (src e) (_outEdges g) = Some lo ->
    AddressMap.get (dst e) (_inEdges g) = Some li ->
    addEdge e g
    = (Ok tt,
       mkGraph (_nodes g) (AddressMap.add e (_edges g))
         (JsObject.set (JSON.stringify (src e))
            (mkEdgeList (listAddress lo) (edges lo ++ [address e]))
            (_outEdges g))
         (JsObject.set (JSON.stringify (dst e))
            (mkEdgeList (listAddress li) (edges li ++ [address e]))
            (_inEdges g))).
  Proof.
    intros Hget Hsrc Hdst Hout Hin.
    unfold addEdge, bind, gets, modify, pushOutEdge, pushInEdge, pushEdge.
    rewrite Hget, Hsrc, Hdst. cbn [_outEdges _inEdges _nodes _edges].
    rewrite Hout. cbn [_outEdges _inEdges _nodes _edges].
    rewrite Hin. reflexivity.
  Qed.
End GraphMethods.

(** ** The invariant of an address map *)

Section MapInvariant.
Context {U : Type} `{Addressable U}.
Implicit Types (m : AddressMap.t U) (u : U) (k : string).

Lemma In_set_cases {V : Type} k (v : V) k' (v' : V) (o : list (string * V)) :
    In (k', v') (JsObject.set k v o) -> (k', v') = (k, v) \/ In (k', v') o.
  Proof.
    induction o as [|[k0 v0] o IH]; simpl.
    - intros [Heq|[]]. left. now symmetry.
    - destruct (String.eqb_spec k0 k) as [->|Hne]; simpl.
      + intros [Heq|Hin]; [left; now symmetry | right; now right].
      + intros [Heq|Hin]; [right; now left|].
        destruct (IH Hin); [now left | right; now right].
  Qed.

Lemma mapOk_empty : mapOk (AddressMap.empty (U := U)).
  Proof. split; [constructor | intros k u []]. Qed.

Lemma mapOk_set m k u :
    mapOk m -> k = JSON.stringify (address u) -> mapOk (JsObject.set k u m).
  Proof.
    intros [Hnd Hkey] Hk. split.
    - now apply NoDup_keys_set.
    - intros k' u' Hin. apply In_set_cases in Hin.
      destruct Hin as [Heq|Hin]; [|now apply Hkey].
      injection Heq as -> ->. exact Hk.
  Qed.

Lemma mapOk_add m u : mapOk m -> mapOk (AddressMap.add u m).
  Proof. intros Hm. now apply mapOk_set. Qed.

Lemma mapOk_get m k u :
    mapOk m -> JsObject.get k m = Some u -> k = JSON.stringify (address u).
  Proof. intros [_ Hkey] Hget. apply Hkey. now apply get_Some_In. Qed.

Lemma mapOk_get_address m a u :
    mapOk m -> AddressMap.get a m = Some u -> address u = a.
  Proof.
    intros Hm Hget. apply (mapOk_get m _ u Hm) in Hget.
    symmetry. now apply stringify_injective.
  Qed.

Lemma mapOk_getAll m u :
    mapOk m -> In u (AddressMap.getAll m) ->
    AddressMap.get (address u) m = Some u.
  Proof.
    intros [Hnd Hkey] Hin. unfold AddressMap.getAll, JsObject.values in Hin.
    apply in_map_iff in Hin. destruct Hin as [[k u'] [Heq Hin]].
    simpl in Heq. subst u'. unfold AddressMap.get.
    rewrite <- (Hkey k u Hin). now apply In_get.
  Qed.

Lemma get_getAll m k u :
    JsObject.get k m = Some u -> In u (AddressMap.getAll m).
  Proof.
    intros Hget. apply get_Some_In in Hget.
    apply (in_map snd) in Hget. exact Hget.
  Qed.


End MapInvariant.

(** ** The graph invariant is kept by [addNode] and [addEdge] *)

Section GraphInvariantFacts.
Import Graph.
Context {NP EP : Type} `{DeepEqual NP} `{DeepEqual EP}.
Implicit Types (g : Graph NP EP) (n : Node NP) (e : Edge EP).
Implicit Types (endpoint : Edge EP -> Address).
Implicit Types (nodes : AddressMap.t (Node NP)).
Implicit Types (edgeMap : AddressMap.t (Edge EP)).
Implicit Types (index : AddressMap.t EdgeList).

Lemma indexOk_empty endpoint :
    indexOk (NP := NP) endpoint AddressMap.empty AddressMap.empty
      AddressMap.empty.
  Proof.
    constructor; try discriminate; [apply mapOk_empty | reflexivity].
  Qed.

Lemma wf_empty : wf (empty (NP := NP) (EP := EP)).
  Proof.
    constructor; simpl; auto using mapOk_empty, indexOk_empty.
  Qed.

Lemma indexOk_get_node endpoint nodes edgeMap index (a : Address) n :
    indexOk endpoint nodes edgeMap index ->
    AddressMap.get a nodes = Some n ->
    exists l, AddressMap.get a index = Some l.
  Proof.
    intros Hok Hget. apply In_keys_get. rewrite (index_keys _ _ _ _ Hok).
    eapply get_Some_In_keys; eauto.
  Qed.

Lemma indexOk_get_none endpoint nodes edgeMap index (k : string) :
    indexOk endpoint nodes edgeMap index ->
    JsObject.get k nodes = None -> JsObject.get k index = None.
  Proof.
    intros Hok Hget. apply get_None_iff. rewrite (index_keys _ _ _ _ Hok).
    now apply get_None_iff.
  Qed.

Lemma indexOk_addNode endpoint nodes edgeMap index n :
    indexOk endpoint nodes edgeMap index ->
    AddressMap.get (address n) nodes = None ->
    indexOk endpoint (AddressMap.add n nodes) edgeMap
      (AddressMap.add (mkEdgeList (address n) []) index).
  Proof.
    intros Hok Hnew. unfold AddressMap.get in Hnew.
    pose proof (indexOk_get_none _ _ _ _ _ Hok Hnew) as Hnew'.
    unfold AddressMap.add.
    change (address (mkEdgeList (address n) [])) with (address n).
    set (k := JSON.stringify (address n)) in *.
    constructor.
    - apply mapOk_set; [apply (index_map _ _ _ _ Hok) | reflexivity].
    - rewrite !keys_set_absent by assumption.
      now rewrite (index_keys _ _ _ _ Hok).
    - intros k' l Hget. destruct (String.eqb_spec k k') as [<-|Hne].
      + rewrite get_set_same in Hget. injection Hget as <-. constructor.
      + rewrite get_set_other in Hget by exact Hne.
        eapply index_nodup; eauto.
    - intros k' e Hget.
      destruct (index_has _ _ _ _ Hok k' e Hget) as [l [Hl Hin]].
      exists l. split; [|exact Hin]. unfold AddressMap.get in *.
      rewrite get_set_other; [exact Hl|]. intros Heq. congruence.
    - intros k' l a Hget Hin. destruct (String.eqb_spec k k') as [<-|Hne].
      + rewrite get_set_same in Hget. injection Hget as <-. destruct Hin.
      + rewrite get_set_other in Hget by exact Hne.
        eapply index_form; eauto.
  Qed.

Lemma indexOk_push endpoint nodes edgeMap index e l :
    indexOk endpoint nodes edgeMap index ->
    AddressMap.get (address e) edgeMap = None ->
    AddressMap.get (endpoint e) index = Some l ->
    indexOk endpoint nodes (AddressMap.add e edgeMap)
      (JsObject.set (JSON.stringify (endpoint e))
         (mkEdgeList (listAddress l) (edges l ++ [address e])) index).
  Proof.
    intros Hok Hnew Hl. unfold AddressMap.get, AddressMap.add in *.
    set (ks := JSON.stringify (endpoint e)) in *.
    set (ke := JSON.stringify (address e)) in *.
    assert (Hfresh : forall a e0,
               JsObject.get (JSON.stringify a) edgeMap = Some e0 ->
               ke <> JSON.stringify a).
    { intros a e0 Hget Heq. rewrite <- Heq in Hget. congruence. }
    constructor.
    - apply mapOk_set; [apply (index_map _ _ _ _ Hok)|].
      apply (mapOk_get index ks l (index_map _ _ _ _ Hok) Hl).
    - rewrite (keys_set_present ks _ l) by exact Hl.
      apply (index_keys _ _ _ _ Hok).
    - intros k' l' Hget. destruct (String.eqb_spec ks k') as [<-|Hne].
      + rewrite get_set_same in Hget. injection Hget as <-. simpl.
        apply NoDup_app.
        * eapply index_nodup; eauto.
        * repeat constructor. simpl. tauto.
        * intros a Hin [<-|[]].
          destruct (index_form _ _ _ _ Hok ks l _ Hl Hin) as [e0 [He0 _]].
          unfold AddressMap.get in He0. fold ke in He0. congruence.
      + rewrite get_set_other in Hget by exact Hne.
        eapply index_nodup; eauto.
    - intros k' e' Hget. unfold AddressMap.get.
      destruct (String.eqb_spec ke k') as [<-|Hne].
      + rewrite get_set_same in Hget. injection Hget as <-.
        fold ks. rewrite get_set_same. eexists. split; [reflexivity|].
        simpl. apply in_or_app. right. now left.
      + rewrite get_set_other in Hget by exact Hne.
        destruct (index_has _ _ _ _ Hok k' e' Hget) as [l0 [Hl0 Hin]].
        unfold AddressMap.get in Hl0.
        destruct (String.eqb_spec ks (JSON.stringify (endpoint e')))
          as [Heq|Hne'].
        * rewrite <- Heq, get_set_same. rewrite <- Heq in Hl0.
          assert (l0 = l) as -> by congruence.
          eexists. split; [reflexivity|]. simpl. apply in_or_app. now left.
        * rewrite get_set_other by exact Hne'. eauto.
    - intros k' l' a Hget Hin. unfold AddressMap.get.
      assert (Hold : forall l0, JsObject.get k' index = Some l0 ->
                 In a (edges l0) ->
                 exists e0, JsObject.get (JSON.stringify a)
                              (JsObject.set ke e edgeMap) = Some e0
                            /\ JSON.stringify (endpoint e0) = k').
      { intros l0 Hl0 Hin0.
        destruct (index_form _ _ _ _ Hok k' l0 a Hl0 Hin0) as [e0 [He0 Hk]].
        unfold AddressMap.get in He0. exists e0. split; [|exact Hk].
        rewrite get_set_other; [exact He0 | eapply Hfresh; eauto]. }
      destruct (String.eqb_spec ks k') as [<-|Hne].
      + rewrite get_set_same in Hget. injection Hget as <-. simpl in Hin.
        apply in_app_or in Hin. destruct Hin as [Hin|[<-|[]]]; [eauto|].
        exists e. fold ke. now rewrite get_set_same.
      + rewrite get_set_other in Hget by exact Hne. eauto.
  Qed.

Lemma wf_addNode g n : wf g -> wf (snd (addNode n g)).
  Proof.
    intros Hwf. destruct (getNode (address n) g) as [n0|] eqn:Hget.
    - destruct (deepEqual n0 n) eqn:Heq.
      + now rewrite (addNode_same g n n0 Hget Heq).
      + now rewrite (addNode_conflict g n n0 Hget Heq).
    - rewrite (addNode_new g n Hget). destruct Hwf as [Hn He Ho Hi].
      constructor; cbn [snd _nodes _edges _outEdges _inEdges].
      + now apply mapOk_add.
      + exact He.
      + now apply indexOk_addNode.
      + now apply indexOk_addNode.
  Qed.

(** Under the invariant [addEdge] finds the two index entries it
  pushes to, so it throws no [TypeError]. *)
Lemma addEdge_cases g e :
    wf g ->
    (exists e0, getEdge (address e) g = Some e0 /\ deepEqual e0 e = true
                /\ addEdge e g = (Ok tt, g))
    \/ (exists e0, getEdge (address e) g = Some e0 /\ deepEqual e0 e = false
                   /\ addEdge e g = (Throw (edgeConflict (address e)), g))
    \/ (getEdge (address e) g = None /\ getNode (src e) g = None
        /\ addEdge e g = (Throw (sourceDoesNotExist (src e)), g))
    \/ (getEdge (address e) g = None /\ getNode (src e) g <> None
        /\ getNode (dst e) g = None
        /\ addEdge e g = (Throw (sourceDoesNotExist (dst e)), g))
    \/ (getEdge (address e) g = None /\ getNode (src e) g <> None
        /\ getNode (dst e) g <> None
        /\ exists lo li,
             AddressMap.get (src e) (_outEdges g) = Some lo
             /\ AddressMap.get (dst e) (_inEdges g) = Some li
             /\ addEdge e g
                = (Ok tt,
                   mkGraph (_nodes g) (AddressMap.add e (_edges g))
                     (JsObject.set (JSON.stringify (src e))
                        (mkEdgeList (listAddress lo)
                           (edges lo ++ [address e]))
                        (_outEdges g))
                     (JsObject.set (JSON.stringify (dst e))
                        (mkEdgeList (listAddress li)
                           (edges li ++ [address e]))
                        (_inEdges g)))).
  Proof.
    intros [Hn He Ho Hi].
    destruct (getEdge (address e) g) as [e0|] eqn:Hget.
    - destruct (deepEqual e0 e) eqn:Heq.
      + left. exists e0. repeat split; auto. eapply addEdge_same; eauto.
      + right. left. exists e0. repeat split; auto.
        eapply addEdge_conflict; eauto.
    - right. right. destruct (getNode (src e) g) as [n1|] eqn:Hsrc.
      + right. destruct (getNode (dst e) g) as [n2|] eqn:Hdst.
        * right. repeat split; try congruence.
          destruct (indexOk_get_node _ _ _ _ _ _ Ho Hsrc) as [lo Hlo].
          destruct (indexOk_get_node _ _ _ _ _ _ Hi Hdst) as [li Hli].
          exists lo, li. repeat split; auto.
          eapply addEdge_new; eauto.
        * left. repeat split; try congruence.
          eapply addEdge_no_dst; eauto.
      + left. repeat split; auto. now apply addEdge_no_src.
  Qed.

Lemma wf_addEdge g e : wf g -> wf (snd (addEdge e g)).
  Proof.
    intros Hwf.
    destruct (addEdge_cases g e Hwf)
      as [[e0 [_ [_ ->]]]|[[e0 [_ [_ ->]]]|[[_ [_ ->]]|[[_ [_ [_ ->]]]|
          [Hnew [_ [_ [lo [li [Hlo [Hli ->]]]]]]]]]]]; try exact Hwf.
    destruct Hwf as [Hn He Ho Hi].
    constructor; cbn [snd _nodes _edges _outEdges _inEdges].
    - exact Hn.
    - now apply mapOk_add.
    - now apply indexOk_push.
    - now apply indexOk_push.
  Qed.
End GraphInvariantFacts.

(** ** [addNode] and [addEdge] *)

Section GraphClaims.
Import Graph.
Context {NP EP : Type} `{DeepEqual NP} `{DeepEqual EP}.
Implicit Types (g : Graph NP EP) (n : Node NP) (e : Edge EP).

Lemma deepEqual_Node_refl n :
    isAddress (address n) = true ->
    deepEqual (nodePayload n) (nodePayload n) = true ->
    deepEqual n n = true.
  Proof.
    intros Ha Hp. unfold deepEqual at 1, DeepEqual_Node.
    rewrite Hp, andb_true_r.
    apply deepEqual_Address_refl, isAddress_NoDup, Ha.
  Qed.

(** C2.  Adding the same node a second time changes nothing: the graph
  after the second [addNode n] is the graph after the first, so
  [getAllNodes] keeps its length, and the second call ends as the
  first did.  And when the graph holds at [n]'s address a node that is
  not deep-equal to [n], [addNode n] throws the conflict error and
  leaves every map of the graph as it was. *)
Theorem addNode_twice_and_conflict g n :
    isAddress (address n) = true ->
    deepEqual (nodePayload n) (nodePayload n) = true ->
    (snd (addNode n (snd (addNode n g))) = snd (addNode n g)
     /\ length (getAllNodes (snd (addNode n (snd (addNode n g)))))
        = length (getAllNodes (snd (addNode n g)))
     /\ fst (addNode n (snd (addNode n g))) = fst (addNode n g))
    /\ (forall n0,
          getNode (address n) g = Some n0 -> deepEqual n0 n = false ->
          addNode n g = (Throw (nodeConflict (address n)), g)).
  Proof.
    intros Ha Hp. split; [|intros n0; apply addNode_conflict].
    assert (Hsecond : addNode n (snd (addNode n g))
                      = (fst (addNode n g), snd (addNode n g))).
    { destruct (getNode (address n) g) as [n0|] eqn:Hget.
      - destruct (deepEqual n0 n) eqn:Heq.
        + rewrite (addNode_same g n n0 Hget Heq). simpl.
          apply (addNode_same g n n0 Hget Heq).
        + rewrite (addNode_conflict g n n0 Hget Heq). simpl.
          apply (addNode_conflict g n n0 Hget Heq).
      - rewrite (addNode_new g n Hget). cbn [fst snd].
        apply (addNode_same _ n n); [|now apply deepEqual_Node_refl].
        unfold getNode, AddressMap.get, AddressMap.add. cbn [_nodes].
        apply get_set_same. }
    rewrite Hsecond. auto.
  Qed.

(** C3 (as amended).  Under the graph invariant, an [addEdge] that
  throws leaves the graph exactly as it was, whatever it throws.  When
  no edge is stored at [e]'s address and no node is stored at [e.src]
  or at [e.dst], it throws the missing-endpoint error for an endpoint
  that is missing.  (When an edge is stored at [e]'s address the
  conflict check decides, before the endpoints are looked at.) *)
Theorem addEdge_failure_leaves_graph g e :
    wf g ->
    (forall err g', addEdge e g = (Throw err, g') -> g' = g)
    /\ (getEdge (address e) g = None ->
        getNode (src e) g = None \/ getNode (dst e) g = None ->
        exists a, (a = src e \/ a = dst e) /\ getNode a g = None
                  /\ addEdge e g = (Throw (sourceDoesNotExist a), g)).
  Proof.
    intros Hwf.
    destruct (addEdge_cases g e Hwf)
      as [[e0 [Hg [_ Hr]]]|[[e0 [Hg [_ Hr]]]|[[Hg [Hs Hr]]|[[Hg [Hs [Hd Hr]]]|
          [Hg [Hs [Hd [lo [li [_ [_ Hr]]]]]]]]]]]; rewrite Hr; split;
      try (intros err g' Heq; congruence);
      try (intros Hnone; congruence).
    - intros _ _. exists (src e). auto.
    - intros _ _. exists (dst e). auto.
    - intros _ [Hn|Hn]; contradiction.
  Qed.

(** C10.  In a graph that holds a node at [a], adding an edge from [a]
  to [a] at an address where no edge is stored succeeds; after it the
  out-edges of [a] hold the edge once and so do the in-edges of [a]. *)
Theorem addEdge_self_loop g (a : Address) n e :
    wf g -> getNode a g = Some n -> src e = a -> dst e = a ->
    getEdge (address e) g = None ->
    exists g' outs ins,
      addEdge e g = (Ok tt, g')
      /\ getOutEdges a g' = Ok outs /\ getInEdges a g' = Ok ins
      /\ occursOnce (Some e) outs /\ occursOnce (Some e) ins.
  Proof.
    intros Hwf Hnode Hsrc Hdst Hnew.
    destruct (addEdge_cases g e Hwf)
      as [[e0 [Hg _]]|[[e0 [Hg _]]|[[_ [Hs _]]|[[_ [_ [Hd _]]]|
          [_ [_ [_ [lo [li [Hlo [Hli Hr]]]]]]]]]]]; try congruence.
    pose proof (wf_addEdge g e Hwf) as Hwf'. rewrite Hr in *.
    cbn [snd] in Hwf'. rewrite Hsrc in *. rewrite Hdst in *.
    set (g' := mkGraph _ _ _ _) in *.
    assert (Hself : getEdge (address e) g' = Some e).
    { unfold g', getEdge, AddressMap.get, AddressMap.add. cbn [_edges].
      apply get_set_same. }
    assert (Honce : forall l : EdgeList,
               (forall x, In x (edges l) -> getEdge x g <> None) ->
               occursOnce (Some e)
                 (map (fun x => getEdge x g') (edges l ++ [address e]))).
    { intros l Hform. rewrite map_app. cbn [map]. rewrite Hself.
      exists (map (fun x => getEdge x g') (edges l)), []. repeat split; auto.
      intros Hin. apply in_map_iff in Hin. destruct Hin as [x [Hx Hin]].
      apply (mapOk_get_address _ _ _ (wf_edges _ Hwf')) in Hx.
      change (address e = x) in Hx. subst x.
      now apply (Hform _ Hin). }
    exists g'. do 2 eexists. split; [reflexivity|].
    unfold getOutEdges, getInEdges, g', AddressMap.get.
    cbn [_outEdges _inEdges]. rewrite !get_set_same. cbn [edges].
    fold g'. repeat split.
    - apply (Honce lo). intros x Hin.
      destruct (index_form _ _ _ _ (wf_out _ Hwf) _ lo x Hlo Hin)
        as [e0 [He0 _]]. unfold getEdge. congruence.
    - apply (Honce li). intros x Hin.
      destruct (index_form _ _ _ _ (wf_in _ Hwf) _ li x Hli Hin)
        as [e0 [He0 _]]. unfold getEdge. congruence.
  Qed.
End GraphClaims.

Section GraphSamples.
Import Graph.

Lemma wf_mansionGraph : wf mansionGraph.
Proof. apply wf_addNode, wf_empty. Qed.

Lemma wf_suburbia : wf suburbia.
Proof. apply wf_addEdge, wf_addNode, wf_addNode, wf_empty. Qed.

Lemma addNode_twice_and_conflict_witness :
  isAddress (address fakeMansion) = true
  /\ deepEqual (Graph.nodePayload fakeMansion) (Graph.nodePayload fakeMansion)
     = true
  /\ Graph.addNode fakeMansion mansionGraph
     = (Throw (Graph.nodeConflict (address fakeMansion)), mansionGraph).
Proof.
  split; [reflexivity|]. split; [reflexivity|].
  apply (proj2 (addNode_twice_and_conflict mansionGraph fakeMansion
                  eq_refl eq_refl) mansion); reflexivity.
Defined.

Lemma addEdge_failure_leaves_graph_witness :
  wf mansionGraph
  /\ exists a, (a = Graph.src toMattressStore \/ a = Graph.dst toMattressStore)
       /\ Graph.getNode a mansionGraph = None
       /\ Graph.addEdge toMattressStore mansionGraph
          = (Throw (Graph.sourceDoesNotExist a), mansionGraph).
Proof.
  split; [exact wf_mansionGraph|].
  apply (proj2 (addEdge_failure_leaves_graph mansionGraph toMattressStore
                  wf_mansionGraph)); [reflexivity | right; reflexivity].
Defined.

(** C3 as stated fails: [suburbia] holds no node at the source of
  [streetFromNowhere], yet adding that edge does not throw the
  missing-endpoint error: its address is taken by [street], and the
  conflict error comes first. *)
Lemma addEdge_conflict_precedes_endpoints :
  wf suburbia
  /\ Graph.getNode (Graph.src streetFromNowhere) suburbia = None
  /\ Graph.addEdge streetFromNowhere suburbia
     = (Throw (Graph.edgeConflict (address streetFromNowhere)), suburbia)
  /\ ~ (exists a, Graph.addEdge streetFromNowhere suburbia
                  = (Throw (Graph.sourceDoesNotExist a), suburbia)).
Proof.
  split; [exact wf_suburbia|]. split; [reflexivity|].
  assert (Hrun : Graph.addEdge streetFromNowhere suburbia
                 = (Throw (Graph.edgeConflict (address streetFromNowhere)),
                    suburbia)) by reflexivity.
  split; [exact Hrun|]. intros [a Ha]. rewrite Hrun in Ha.
  discriminate Ha.
Qed.

(** C5 (the code at a failing input).  [mansionGraph] holds the source
  of [toMattressStore] and not its destination; [addEdge] throws an
  error whose message calls the missing destination a source, the very
  error it throws for [fromMattressStore], whose source is missing. *)
Lemma addEdge_missing_dst_reported_as_source :
  Graph.getNode (Graph.src toMattressStore) mansionGraph = Some mansion
  /\ Graph.getNode (Graph.dst toMattressStore) mansionGraph = None
  /\ Graph.getNode (Graph.src fromMattressStore) mansionGraph = None
  /\ Graph.addEdge toMattressStore mansionGraph
     = (Throw (Error ("source "
                      ++ JSON.stringify (makeAddress "mattressStore")
                      ++ " does not exist")%string), mansionGraph)
  /\ Graph.addEdge fromMattressStore mansionGraph
     = Graph.addEdge toMattressStore mansionGraph.
Proof. repeat split. Qed.

Lemma addEdge_self_loop_witness :
  exists g' outs ins,
    Graph.addEdge driveway mansionGraph = (Ok tt, g')
    /\ Graph.getOutEdges (makeAddress "mansion") g' = Ok outs
    /\ Graph.getInEdges (makeAddress "mansion") g' = Ok ins
    /\ occursOnce (Some driveway) outs /\ occursOnce (Some driveway) ins.
Proof.
  apply (addEdge_self_loop mansionGraph (makeAddress "mansion") mansion
           driveway wf_mansionGraph); reflexivity.
Defined.

End GraphSamples.

(** ** Rules for pre- and postconditions *)

Section HoareRules.
Context {St : Type}.
Implicit Types (P I : St -> Prop).

Lemma hoare_ret {A} P (a : A) (Q : Result A -> St -> Prop) :
  (forall s, P s -> Q (Ok a) s) -> hoare P (ret a) Q.
Proof. intros HQ s Hs. now apply HQ. Qed.

Lemma hoare_liftResult {A} P (r : Result A) (Q : Result A -> St -> Prop) :
  (forall s, P s -> Q r s) -> hoare P (liftResult r) Q.
Proof. intros HQ s Hs. now apply HQ. Qed.

Lemma hoare_gets {A} P (f : St -> A) (Q : Result A -> St -> Prop) :
  (forall s, P s -> Q (Ok (f s)) s) -> hoare P (gets f) Q.
Proof. intros HQ s Hs. now apply HQ. Qed.

Lemma hoare_bind {A B} P (m : M St A) (k : A -> M St B)
    (R : Result A -> St -> Prop) (Q : Result B -> St -> Prop) :
  hoare P m R ->
  (forall a, hoare (R (Ok a)) (k a) Q) ->
  (forall e s, R (Throw e) s -> Q (Throw e) s) ->
  hoare P (bind m k) Q.
Proof.
  intros Hm Hk Hthrow s Hs. specialize (Hm s Hs). unfold bind.
  destruct (m s) as [[a|e] s']; cbn [fst snd] in *.
  - now apply Hk.
  - now apply Hthrow.
Qed.

Lemma hoare_pre {A} P P' (m : M St A)
    (Q : Result A -> St -> Prop) :
  (forall st, P' st -> P st) -> hoare P m Q -> hoare P' m Q.
Proof. intros Hpre Hm st Hst. apply Hm, Hpre, Hst. Qed.

Lemma hoare_post {A} P (m : M St A)
    (Q Q' : Result A -> St -> Prop) :
  hoare P m Q -> (forall r st, Q r st -> Q' r st) -> hoare P m Q'.
Proof. intros Hm Hpost st Hst. apply Hpost, Hm, Hst. Qed.

(** A fact the precondition carries can be used for the computation. *)
Lemma hoare_assume {A} (phi : Prop) P (m : M St A)
    (Q : Result A -> St -> Prop) :
  (phi -> hoare P m Q) -> hoare (fun s => phi /\ P s) m Q.
Proof. intros Hm s [Hphi Hs]. now apply Hm. Qed.

(** A loop with an invariant over the elements already visited; [E] is
  what holds when the loop is left by an exception. *)
Lemma hoare_forEach {A} (I : list A -> St -> Prop) (E : exn -> St -> Prop)
    (xs : list A) (f : A -> M St unit) :
  (forall pre x post, xs = pre ++ x :: post ->
     hoare (I pre) (f x)
       (fun res s => match res with
                     | Ok _ => I (pre ++ [x]) s
                     | Throw e => E e s
                     end)) ->
  hoare (I []) (forEach xs f)
    (fun res s => match res with Ok _ => I xs s | Throw e => E e s end).
Proof.
  intros Hstep.
  enough (Hgen : forall post pre, xs = pre ++ post ->
            hoare (I pre) (forEach post f)
              (fun res s => match res with
                            | Ok _ => I xs s
                            | Throw e => E e s
                            end)).
  { apply (Hgen xs []). reflexivity. }
  induction post as [|x post IH]; intros pre Hxs.
  - rewrite app_nil_r in Hxs. subst pre. now apply hoare_ret.
  - cbn [forEach]. eapply hoare_bind.
    + apply (Hstep pre x post Hxs).
    + intros []. apply IH. rewrite Hxs, <- app_assoc. reflexivity.
    + intros e s He. exact He.
Qed.

Lemma keeps_ret {A} I (a : A) : keeps I (ret a).
Proof. now apply hoare_ret. Qed.

Lemma keeps_liftResult {A} I (r : Result A) : keeps I (liftResult r).
Proof. now apply hoare_liftResult. Qed.

Lemma keeps_bind {A B} I (m : M St A) (k : A -> M St B) :
  keeps I m -> (forall a, keeps I (k a)) -> keeps I (bind m k).
Proof.
  intros Hm Hk. eapply hoare_bind; [exact Hm | exact Hk | auto].
Qed.

Lemma keeps_forEach {A} I (xs : list A) (f : A -> M St unit) :
  (forall x, keeps I (f x)) -> keeps I (forEach xs f).
Proof.
  intros Hf. induction xs as [|x xs IH]; cbn [forEach].
  - apply keeps_ret.
  - apply keeps_bind; auto.
Qed.
End HoareRules.

(** ** Method calls on the graphs of a store *)

Section StoreRules.
Import Graph.
Context {NP EP : Type} `{DeepEqual NP} `{DeepEqual EP}.
Implicit Types (s : Store NP EP) (J : Graph NP EP -> Prop).

Lemma framed_new s0 J :
  J empty -> fst (new s0) = Ok (next s0) /\ framed s0 J (snd (new s0)).
Proof.
  intros HJ. split; [reflexivity|]. unfold new, framed. cbn [fst snd next heap].
  repeat split.
  - intros r Hr. destruct (Nat.eqb_spec r (next s0)); [lia | reflexivity].
  - now rewrite Nat.eqb_refl.
Qed.

(** Reading a graph of the store changes nothing. *)
Lemma keeps_on_read {A} s0 J (r : nat) (f : Graph NP EP -> A) :
  keeps (framed s0 J) (on r (gets f)).
Proof.
  intros s [Hnext [Hframe HJ]]. unfold on, gets. cbn [fst snd].
  repeat split; cbn [next heap]; auto.
  - intros r' Hr'. destruct (Nat.eqb_spec r' r) as [->|]; auto.
  - destruct (Nat.eqb_spec (next s0) r) as [<-|]; auto.
Qed.

Lemma hoare_on_read {A} s0 J (r : nat) (f : Graph NP EP -> A) :
  r < next s0 ->
  hoare (framed s0 J) (on r (gets f))
    (fun res s => res = Ok (f (heap s0 r)) /\ framed s0 J s).
Proof.
  intros Hr s Hs. split; [|now apply keeps_on_read].
  destruct Hs as [_ [Hframe _]]. unfold on, gets. cbn [fst].
  now rewrite Hframe.
Qed.

(** A method call on the new graph is judged on that graph alone. *)
Lemma hoare_on_result {A} s0 J (m : M (Graph NP EP) A)
    (Q : Result A -> Graph NP EP -> Prop) :
  hoare J m Q ->
  hoare (framed s0 J) (on (next s0) m) (fun res s => framed s0 (Q res) s).
Proof.
  intros Hm s [Hnext [Hframe HJ]]. specialize (Hm _ HJ). unfold on.
  destruct (m (heap s (next s0))) as [res g]. cbn [fst snd] in *.
  repeat split; cbn [next heap]; auto.
  - intros r Hr. destruct (Nat.eqb_spec r (next s0)); [lia | auto].
  - now rewrite Nat.eqb_refl.
Qed.

Lemma keeps_on_result {A} s0 J (m : M (Graph NP EP) A) :
  keeps J m -> keeps (framed s0 J) (on (next s0) m).
Proof. intros Hm. apply (hoare_on_result s0 J m (fun _ => J) Hm). Qed.

Lemma keeps_wf_addNode (n : Node NP) : keeps wf (addNode (EP := EP) n).
Proof. intros g Hg. now apply wf_addNode. Qed.

Lemma keeps_wf_addEdge (e : Edge EP) : keeps wf (addEdge (NP := NP) e).
Proof. intros g Hg. now apply wf_addEdge. Qed.
End StoreRules.

(** ** What [merge] and [fromJSON] keep, whatever the resolvers *)

Ltac keeps_step :=
  lazymatch goal with
  | |- keeps _ (bind _ _) => apply keeps_bind; [|intros ?]
  | |- keeps _ (forEach _ _) => apply keeps_forEach; intros ?
  | |- keeps _ (Graph.on _ (gets _)) => apply keeps_on_read
  | |- keeps _ (Graph.on _ _) => apply keeps_on_result
  | |- keeps _ (ret _) => apply keeps_ret
  | |- keeps _ (liftResult _) => apply keeps_liftResult
  | |- keeps _ (match ?x with _ => _ end) => destruct x
  end.

Section StaticMethods.
Import Graph.
Context {NP EP : Type} `{DeepEqual NP} `{DeepEqual EP}.
Implicit Types (s : Store NP EP) (J : Graph NP EP -> Prop).

Lemma hoare_seq {A B} {St : Type} (I : St -> Prop) (m : M St A)
    (k : A -> M St B) (Q : Result B -> St -> Prop) :
  keeps I m -> (forall a, hoare I (k a) Q) ->
  (forall e st, I st -> Q (Throw e) st) -> hoare I (bind m k) Q.
Proof. intros Hm Hk Hthrow. eapply hoare_bind; eauto. Qed.

(** A static method that allocates its result first and then only calls
  [addNode] and [addEdge] on it and reads other graphs. *)
Lemma hoare_allocating s0 J (k : nat -> M (Store NP EP) nat) :
  J empty ->
  hoare (framed s0 J) (k (next s0))
    (fun res s => framed s0 J s /\ forall r, res = Ok r -> r = next s0) ->
  hoare (fun s => s = s0) (bind new k)
    (fun res s => framed s0 J s /\ forall r, res = Ok r -> r = next s0).
Proof.
  intros HJ Hk.
  apply hoare_bind
    with (R := fun res s => res = Ok (next s0) /\ framed s0 J s).
  - intros s ->. now apply framed_new.
  - intros result. apply hoare_assume. intros Heq. injection Heq as ->.
    exact Hk.
  - intros e s [Heq _]. discriminate Heq.
Qed.

Lemma merge_framed s0 J (g1 g2 : nat)
    (nodeResolver : Resolver (Node NP)) (edgeResolver : Resolver (Edge EP)) :
  J empty ->
  (forall n, keeps J (addNode n)) -> (forall e, keeps J (addEdge e)) ->
  hoare (fun s => s = s0) (merge g1 g2 nodeResolver edgeResolver)
    (fun res s => framed s0 J s /\ forall r, res = Ok r -> r = next s0).
Proof.
  intros HJ Hnode Hedge. unfold merge. apply hoare_allocating; [exact HJ|].
  repeat (apply hoare_seq;
          [ repeat keeps_step; auto
          | intros ?
          | intros e s Hs; split; [exact Hs | discriminate] ]).
  apply hoare_ret. intros s Hs. split; [exact Hs|].
  intros r Heq. now injection Heq as <-.
Qed.

Lemma fromJSON_framed s0 J (json : GraphJSON NP EP) :
  J empty ->
  (forall n, keeps J (addNode n)) -> (forall e, keeps J (addEdge e)) ->
  hoare (fun s => s = s0) (fromJSON json)
    (fun res s => framed s0 J s /\ forall r, res = Ok r -> r = next s0).
Proof.
  intros HJ Hnode Hedge. unfold fromJSON. apply hoare_allocating; [exact HJ|].
  repeat (apply hoare_seq;
          [ repeat keeps_step; auto
          | intros ?
          | intros e s Hs; split; [exact Hs | discriminate] ]).
  apply hoare_ret. intros s Hs. split; [exact Hs|].
  intros r Heq. now injection Heq as <-.
Qed.

(** C8.  [merge] writes to the graph it allocates and to no other: when
  it has returned or thrown, every graph object that was in the store
  before the call, [g1] and [g2] among them, is what it was, whatever
  the two resolvers return or throw; and the graph it returns is the
  newly allocated one. *)
Theorem merge_leaves_inputs s (g1 g2 : nat)
    (nodeResolver : Resolver (Node NP)) (edgeResolver : Resolver (Edge EP)) :
  g1 < next s -> g2 < next s ->
  heap (snd (merge g1 g2 nodeResolver edgeResolver s)) g1 = heap s g1
  /\ heap (snd (merge g1 g2 nodeResolver edgeResolver s)) g2 = heap s g2
  /\ (forall r, r < next s ->
        heap (snd (merge g1 g2 nodeResolver edgeResolver s)) r = heap s r)
  /\ (forall r, fst (merge g1 g2 nodeResolver edgeResolver s) = Ok r ->
        r = next s /\ r <> g1 /\ r <> g2).
Proof.
  intros H1 H2.
  destruct (merge_framed s (fun _ => True) g1 g2 nodeResolver edgeResolver
              I (fun _ _ _ => I) (fun _ _ _ => I) s eq_refl)
    as [[_ [Hframe _]] Hres].
  split; [now apply Hframe|]. split; [now apply Hframe|].
  split; [exact Hframe|].
  intros r Hr. specialize (Hres r Hr). lia.
Qed.

Lemma NoDup_In_occursOnce {A} (x : A) (l : list A) :
  NoDup l -> In x l -> occursOnce x l.
Proof.
  intros Hnd Hin. apply in_split in Hin. destruct Hin as [l1 [l2 ->]].
  exists l1, l2. apply NoDup_remove_2 in Hnd.
  repeat split; auto; intros Hin; apply Hnd, in_or_app; auto.
Qed.

Lemma wf_sameKeysets (g : Graph NP EP) : wf g -> sameKeysets g.
Proof.
  intros [_ _ Ho Hi]. split; symmetry; eapply index_keys; eauto.
Qed.

Lemma wf_edgesIndexedOnce (g : Graph NP EP) : wf g -> edgesIndexedOnce g.
Proof.
  intros [_ He Ho Hi] e Hin. apply (mapOk_getAll _ _ He) in Hin.
  split.
  - destruct (index_has _ _ _ _ Ho _ e Hin) as [l [Hl Hmem]].
    exists l. split; [exact Hl|]. apply NoDup_In_occursOnce; [|exact Hmem].
    exact (index_nodup _ _ _ _ Ho _ l Hl).
  - destruct (index_has _ _ _ _ Hi _ e Hin) as [l [Hl Hmem]].
    exists l. split; [exact Hl|]. apply NoDup_In_occursOnce; [|exact Hmem].
    exact (index_nodup _ _ _ _ Hi _ l Hl).
Qed.

Lemma constructed_wf (g : Graph NP EP) : constructed g -> wf g.
Proof.
  induction 1 as [|g n g' _ IH Hrun|g e g' _ IH Hrun|json s r s' Hrun
                  |g1 g2 nres eres s r s' Hrun|g1 g2 s r s' Hrun].
  - apply wf_empty.
  - pose proof (wf_addNode g n IH) as Hwf. now rewrite Hrun in Hwf.
  - pose proof (wf_addEdge g e IH) as Hwf. now rewrite Hrun in Hwf.
  - destruct (fromJSON_framed s wf json wf_empty keeps_wf_addNode
                keeps_wf_addEdge s eq_refl) as [[_ [_ Hwf]] Hres].
    rewrite Hrun in *. cbn [fst snd] in *. now rewrite (Hres r eq_refl).
  - destruct (merge_framed s wf g1 g2 nres eres wf_empty keeps_wf_addNode
                keeps_wf_addEdge s eq_refl) as [[_ [_ Hwf]] Hres].
    rewrite Hrun in *. cbn [fst snd] in *. now rewrite (Hres r eq_refl).
  - unfold mergeConservative in Hrun.
    destruct (merge_framed s wf g1 g2 (conservativeResolver "nodes")
                (conservativeResolver "edges") wf_empty keeps_wf_addNode
                keeps_wf_addEdge s eq_refl) as [[_ [_ Hwf]] Hres].
    rewrite Hrun in *. cbn [fst snd] in *. now rewrite (Hres r eq_refl).
Qed.

(** C4.  In every graph obtained by successful operations -- [addNode],
  [addEdge], [fromJSON], [merge], [mergeConservative], from
  [new Graph()] on -- the node map, the out-edge index and the in-edge
  index have the same keys, and the address of every edge of the edge
  map is once in the out-edge list stored at the edge's source and once
  in the in-edge list stored at its destination. *)
Theorem constructed_invariants (g : Graph NP EP) :
  constructed g -> sameKeysets g /\ edgesIndexedOnce g.
Proof.
  intros Hg. apply constructed_wf in Hg.
  split; [now apply wf_sameKeysets | now apply wf_edgesIndexedOnce].
Qed.
End StaticMethods.

(** ** The JSON round trip of an address map *)

Section NodeAndEdgeLaws.
Import Graph.
Context {NP EP : Type} `{DeepEqual NP} `{DeepEqual EP}.

#[export] Instance SansAddressLaws_Node : SansAddressLaws (Node NP) NP.
Proof.
  constructor. intros u a Ha Hu.
  unfold deepEqual, DeepEqual_Node in Hu |- *. cbn [sansAddress withAddress
    SansAddress_Node nodeAddress nodePayload].
  apply andb_prop in Hu. destruct Hu as [_ Hp].
  apply andb_true_intro. split; [exact Ha | exact Hp].
Qed.

#[export] Instance SansAddressLaws_Edge
  : SansAddressLaws (Edge EP) (EdgeJSON EP).
Proof.
  constructor. intros u a Ha Hu.
  unfold deepEqual, DeepEqual_Edge in Hu |- *. cbn [sansAddress withAddress
    SansAddress_Edge edgeAddress src dst edgePayload jsonSrc jsonDst
    jsonPayload].
  apply andb_prop in Hu. destruct Hu as [Hu Hp].
  apply andb_prop in Hu. destruct Hu as [Hu Hd].
  apply andb_prop in Hu. destruct Hu as [_ Hs].
  change (address u) with (edgeAddress u) in Ha.
  now rewrite Ha, Hs, Hd, Hp.
Qed.
End NodeAndEdgeLaws.

Section RoundTrip.
Context {U S : Type} `{Addressable U} `{DeepEqual U} `{SansAddress U S}.
Context `{!SansAddressLaws U S}.
Implicit Types (m : AddressMap.t U).

Lemma toJSON_from m (acc : list (string * S)) :
  NoDup (JsObject.keys acc ++ JsObject.keys m) ->
  fold_left
    (fun result kv => JsObject.set (fst kv) (sansAddress (snd kv)) result)
    m acc
  = acc ++ map (fun kv => (fst kv, sansAddress (snd kv))) m.
Proof.
  revert acc. induction m as [|[k u] m IH]; intros acc Hnd; cbn [fold_left map].
  - now rewrite app_nil_r.
  - cbn [fst snd]. assert (Hfresh : JsObject.get k acc = None).
    { apply get_None_iff. cbn [JsObject.keys map fst] in Hnd.
      apply NoDup_remove_2 in Hnd. intros Hin. apply Hnd, in_or_app.
      now left. }
    rewrite set_absent by exact Hfresh. rewrite IH.
    + now rewrite <- app_assoc.
    + unfold JsObject.keys in *. rewrite map_app, <- app_assoc. exact Hnd.
Qed.

Lemma toJSON_map m :
  NoDup (JsObject.keys m) ->
  AddressMap.toJSON m = map (fun kv => (fst kv, sansAddress (snd kv))) m.
Proof. intros Hnd. unfold AddressMap.toJSON. now rewrite toJSON_from. Qed.

Lemma fromJSON_from_toJSON m (acc : AddressMap.t U) :
  NoDup (JsObject.keys acc ++ JsObject.keys m) ->
  (forall k u, In (k, u) m ->
     k = JSON.stringify (address u) /\ isAddress (address u) = true) ->
  AddressMap.fromJSON_from
    (map (fun kv => (fst kv, sansAddress (snd kv))) m) acc
  = Ok (acc ++ map (fun kv => (fst kv,
                               withAddress (sansAddress (snd kv))
                                 (address (snd kv)))) m).
Proof.
  revert acc. induction m as [|[k u] m IH]; intros acc Hnd Hm;
    cbn [map AddressMap.fromJSON_from fst snd].
  - now rewrite app_nil_r.
  - destruct (Hm k u (or_introl eq_refl)) as [Hk Ha].
    rewrite Hk at 1. rewrite parse_stringify by now apply isAddress_NoDup.
    assert (Hfresh : JsObject.get k acc = None).
    { apply get_None_iff. cbn [JsObject.keys map fst] in Hnd.
      apply NoDup_remove_2 in Hnd. intros Hin. apply Hnd, in_or_app.
      now left. }
    rewrite set_absent by exact Hfresh. rewrite IH.
    + now rewrite <- app_assoc.
    + unfold JsObject.keys in *. rewrite map_app, <- app_assoc. exact Hnd.
    + intros k' u' Hin. apply Hm. now right.
Qed.

(** C6.  For an address map [m] (the empty one too) with the invariant of
  address maps, whose values carry well-formed addresses and are
  deep-equal to themselves, [fromJSON (toJSON m)] returns a map that
  [equals] finds equal to [m]: [toJSON] keeps the keys and drops the
  address of each value, [fromJSON] parses each key back into the
  address and puts it on. *)
Theorem fromJSON_toJSON_equals m :
  mapOk m ->
  forallb (fun u => isAddress (address u) && deepEqual u u)
    (AddressMap.getAll m) = true ->
  exists m', AddressMap.fromJSON (AddressMap.toJSON m) = Ok m'
             /\ AddressMap.equals m' m = true.
Proof.
  intros [Hnd Hkey] Hall. rewrite forallb_forall in Hall.
  assert (Hval : forall k u, In (k, u) m ->
            isAddress (address u) = true /\ deepEqual u u = true).
  { intros k u Hin. apply andb_prop, Hall.
    apply (in_map snd) in Hin. exact Hin. }
  eexists. split.
  - unfold AddressMap.fromJSON, AddressMap.empty.
    rewrite toJSON_map by exact Hnd.
    rewrite fromJSON_from_toJSON; [reflexivity | exact Hnd |].
    intros k u Hin. split; [now apply Hkey | now apply (Hval k u)].
  - cbn [app]. unfold AddressMap.equals, JsObject.isEqualWith.
    rewrite length_map, Nat.eqb_refl. cbn [andb].
    apply forallb_forall. intros [k u'] Hin.
    apply in_map_iff in Hin. destruct Hin as [[k0 u] [Heq Hin]].
    cbn [fst snd] in Heq. injection Heq as <- <-. cbn [fst snd].
    rewrite (In_get k0 u m Hnd Hin).
    destruct (Hval k0 u Hin) as [Ha Hu].
    apply withAddress_sansAddress; [|exact Hu].
    apply deepEqual_Address_refl, isAddress_NoDup, Ha.
Qed.
End RoundTrip.

Section RoundTripSample.
Import Graph.

Lemma mapOk_makeMap : mapOk makeMap.
Proof. apply mapOk_add, mapOk_add, mapOk_empty. Qed.

Lemma fromJSON_toJSON_equals_witness :
  mapOk makeMap
  /\ exists m', AddressMap.fromJSON (AddressMap.toJSON makeMap) = Ok m'
                /\ AddressMap.equals m' makeMap = true.
Proof.
  split; [exact mapOk_makeMap|].
  apply (fromJSON_toJSON_equals makeMap mapOk_makeMap). reflexivity.
Defined.
End RoundTripSample.

(** ** What happens to the value a resolver returns *)

Section Resolved.
Import Graph.
Context {NP EP : Type} `{DeepEqual NP} `{DeepEqual EP}.
Implicit Types (g : Graph NP EP).

End Resolved.

Section StoreSamples.
Import Graph.



Lemma merge_leaves_inputs_witness :
  heap (snd (merge 0 1 toPalace keepFirst twoGraphs)) 0 = suburbia
  /\ heap (snd (merge 0 1 toPalace keepFirst twoGraphs)) 1 = mansionGraph.
Proof.
  destruct (merge_leaves_inputs twoGraphs 0 1 toPalace keepFirst)
    as [H0 [H1 _]]; [simpl; lia | simpl; lia |].
  split; [exact H0 | exact H1].
Defined.

Lemma constructed_invariants_witness :
  sameKeysets (heap (snd (mergeConservative 0 1 twoGraphs)) 2)
  /\ edgesIndexedOnce (heap (snd (mergeConservative 0 1 twoGraphs)) 2).
Proof.
  apply constructed_invariants.
  apply (constructed_mergeConservative 0 1 twoGraphs 2
           (snd (mergeConservative 0 1 twoGraphs))).
  reflexivity.
Defined.
End StoreSamples.

(** ** The loops of [mergeConservative] *)

Section MapEntries.
Context {U : Type} `{Addressable U}.
Implicit Types (m : AddressMap.t U).

Lemma keys_entries (us : list U) :
  JsObject.keys (map entryOf us)
  = map (fun u => JSON.stringify (address u)) us.
Proof. unfold JsObject.keys. rewrite map_map. reflexivity. Qed.

Lemma mapOk_entries m : mapOk m -> m = map entryOf (AddressMap.getAll m).
Proof.
  intros [_ Hkey]. induction m as [|[k u] m IH]; [reflexivity|].
  cbn [AddressMap.getAll JsObject.values map snd]. unfold entryOf at 1.
  rewrite <- (Hkey k u (or_introl eq_refl)). f_equal.
  apply IH. intros k' u' Hin. apply Hkey. now right.
Qed.

(** An element of the value list of a map is not among the entries made
  of the values before it. *)
Lemma fresh_after_prefix m (pre : list U) (x : U) (post : list U) :
  mapOk m -> AddressMap.getAll m = pre ++ x :: post ->
  JsObject.get (JSON.stringify (address x)) (map entryOf pre) = None.
Proof.
  intros Hm Hxs. pose proof (proj1 Hm) as Hnd.
  rewrite (mapOk_entries m Hm), keys_entries, Hxs, map_app in Hnd.
  cbn [map] in Hnd. apply NoDup_remove_2 in Hnd.
  apply get_None_iff. rewrite keys_entries. intros Hin.
  apply Hnd, in_or_app. now left.
Qed.

Lemma set_entry_fresh (pre : list U) (x : U) :
  JsObject.get (JSON.stringify (address x)) (map entryOf pre) = None ->
  AddressMap.add x (map entryOf pre) = map entryOf (pre ++ [x]).
Proof.
  intros Hfresh. unfold AddressMap.add. rewrite set_absent by exact Hfresh.
  now rewrite map_app.
Qed.

End MapEntries.

Section MergeSteps.
Import Graph.
Context {NP EP : Type} `{DeepEqual NP} `{DeepEqual EP}.
Implicit Types (g : Graph NP EP).

Lemma addNode_fresh g (x : Node NP) :
  wf g -> getNode (address x) g = None ->
  exists g', addNode x g = (Ok tt, g') /\ wf g'
             /\ _edges g' = _edges g
             /\ _nodes g' = AddressMap.add x (_nodes g).
Proof.
  intros Hwf Hnew. pose proof (wf_addNode g x Hwf) as Hwf'.
  rewrite (addNode_new g x Hnew) in *. eexists. split; [reflexivity|].
  split; [exact Hwf'|]. split; reflexivity.
Qed.

Lemma addEdge_fresh g (x : Edge EP) :
  wf g -> getEdge (address x) g = None ->
  getNode (src x) g <> None -> getNode (dst x) g <> None ->
  exists g', addEdge x g = (Ok tt, g') /\ wf g'
             /\ _nodes g' = _nodes g
             /\ _edges g' = AddressMap.add x (_edges g).
Proof.
  intros Hwf Hnew Hsrc Hdst. pose proof (wf_addEdge g x Hwf) as Hwf'.
  destruct (addEdge_cases g x Hwf)
    as [[e0 [Hg _]]|[[e0 [Hg _]]|[[_ [Hs _]]|[[_ [_ [Hd _]]]|
        [_ [_ [_ [lo [li [_ [_ Hr]]]]]]]]]]]; try congruence.
  rewrite Hr in *. eexists. split; [reflexivity|].
  split; [exact Hwf'|]. split; reflexivity.
Qed.

(** In a well-formed graph the endpoints of every edge are nodes. *)
Lemma wf_endpoints g (x : Edge EP) :
  wf g -> In x (getAllEdges g) ->
  (exists v, JsObject.get (JSON.stringify (src x)) (_nodes g) = Some v)
  /\ (exists v, JsObject.get (JSON.stringify (dst x)) (_nodes g) = Some v).
Proof.
  intros [_ He Ho Hi] Hin. apply (mapOk_getAll _ _ He) in Hin. split.
  - destruct (index_has _ _ _ _ Ho _ x Hin) as [l [Hl _]].
    apply In_keys_get. rewrite <- (index_keys _ _ _ _ Ho).
    eapply get_Some_In_keys. exact Hl.
  - destruct (index_has _ _ _ _ Hi _ x Hin) as [l [Hl _]].
    apply In_keys_get. rewrite <- (index_keys _ _ _ _ Hi).
    eapply get_Some_In_keys. exact Hl.
Qed.



Variables G1 G2 : Graph NP EP.
Hypothesis Hwf1 : wf G1.
Hypothesis Hwf2 : wf G2.




End MergeSteps.

Section ConservativeMerge.
Import Graph.
Context {NP EP : Type} `{DeepEqual NP} `{DeepEqual EP}.
Variable s0 : Store NP EP.
Variables g1 g2 : nat.
Hypothesis Hg1 : g1 < next s0.
Hypothesis Hg2 : g2 < next s0.
Hypothesis Hwf1 : wf (heap s0 g1).
Hypothesis Hwf2 : wf (heap s0 g2).
Local Abbreviation G1 := (heap s0 g1).
Local Abbreviation G2 := (heap s0 g2).

Lemma framed_mono (J J' : Graph NP EP -> Prop) s :
  (forall g, J g -> J' g) -> framed s0 J s -> framed s0 J' s.
Proof. intros HJ [Hn [Hf Hg]]. repeat split; auto. Qed.

Lemma framed_ok (J : Graph NP EP -> Prop) (E : exn -> Prop)
    (res : Result unit) s :
  framed s0 (fun g => res = Ok tt /\ J g) s ->
  match res with Ok _ => framed s0 J s | Throw e => E e end.
Proof. intros [Hn [Hf [-> HJ]]]. repeat split; auto. Qed.




End ConservativeMerge.

Section ConservativeMergeSpec.
Import Graph.
Context {NP EP : Type} `{DeepEqual NP} `{DeepEqual EP}.
Variable s0 : Store NP EP.
Variables g1 g2 : nat.
Hypothesis Hg1 : g1 < next s0.
Hypothesis Hg2 : g2 < next s0.
Hypothesis Hwf1 : wf (heap s0 g1).
Hypothesis Hwf2 : wf (heap s0 g2).
Local Abbreviation G1 := (heap s0 g1).
Local Abbreviation G2 := (heap s0 g2).






End ConservativeMergeSpec.

Section ConservativeMergeClaim.
Import Graph.
Context {NP EP : Type} `{DeepEqual NP} `{DeepEqual EP}.

End ConservativeMergeClaim.

Section ConservativeMergeSample.
Import Graph.

End ConservativeMergeSample.


(* ================================================================= *)
(** * More of [address.js] *)

(** ** [AddressMap.add] and [AddressMap.get] *)

Section AddressMapLookups.
Context {U : Type} `{Addressable U}.
Implicit Types (m : AddressMap.t U) (u : U) (a : Address).

Lemma get_app_left {V : Type} k (v : V) (o o' : list (string * V)) :
  JsObject.get k o = Some v -> JsObject.get k (o ++ o') = Some v.
Proof.
  induction o as [|[k0 v0] o IH]; simpl; [discriminate|].
  destruct (String.eqb k0 k); auto.
Qed.

Lemma get_app_right {V : Type} k (o o' : list (string * V)) :
  JsObject.get k o = None -> JsObject.get k (o ++ o') = JsObject.get k o'.
Proof.
  induction o as [|[k0 v0] o IH]; simpl; [reflexivity|].
  destruct (String.eqb k0 k); [discriminate | auto].
Qed.

(** X1.  After [add u], [get] at [u]'s address gives [u], and [get] at
    any other address gives what it gave before: two addresses that
    differ have different keys. *)
Theorem get_after_add m u a :
  a <> address u ->
  AddressMap.get (address u) (AddressMap.add u m) = Some u
  /\ AddressMap.get a (AddressMap.add u m) = AddressMap.get a m.
Proof.
  intros Hne. unfold AddressMap.get, AddressMap.add. split.
  - apply get_set_same.
  - apply get_set_other. intros Heq. apply Hne. symmetry.
    now apply stringify_injective.
Qed.

(** X2.  [add] keeps the invariant of address maps.  At an address the
    map holds already it replaces the value where it stands, so that the
    keys and their order stay; at a new address it appends the value. *)
Theorem add_replaces_or_appends m u :
  mapOk m ->
  mapOk (AddressMap.add u m)
  /\ match AddressMap.get (address u) m with
     | Some _ =>
         JsObject.keys (AddressMap.add u m) = JsObject.keys m
         /\ length (AddressMap.getAll (AddressMap.add u m))
            = length (AddressMap.getAll m)
     | None => AddressMap.add u m = m ++ [entryOf u]
     end.
Proof.
  intros Hm. split; [now apply mapOk_add|].
  unfold AddressMap.get, AddressMap.add, AddressMap.getAll, JsObject.values.
  destruct (JsObject.get (JSON.stringify (address u)) m) as [u0|] eqn:Hget.
  - pose proof (keys_set_present _ u u0 m Hget) as Hkeys.
    split; [exact Hkeys|]. rewrite !length_map.
    apply (f_equal (@length string)) in Hkeys.
    unfold JsObject.keys in Hkeys. now rewrite !length_map in Hkeys.
  - now apply set_absent.
Qed.
End AddressMapLookups.

(** ** [AddressMap.equals] *)

Section AddressMapEquals.
Context {U : Type} `{Addressable U} `{DeepEqual U}.
Implicit Types (m : AddressMap.t U).

Lemma keys_length {V : Type} (o : list (string * V)) :
  length (JsObject.keys o) = length o.
Proof. unfold JsObject.keys. apply length_map. Qed.

Lemma equals_spec m1 m2 :
  NoDup (JsObject.keys m1) -> NoDup (JsObject.keys m2) ->
  (AddressMap.equals m1 m2 = true
   <-> (forall k, In k (JsObject.keys m1) <-> In k (JsObject.keys m2))
       /\ (forall k u1 u2,
             JsObject.get k m1 = Some u1 -> JsObject.get k m2 = Some u2 ->
             deepEqual u1 u2 = true)).
Proof.
  intros Hnd1 Hnd2. unfold AddressMap.equals, JsObject.isEqualWith.
  rewrite andb_true_iff, Nat.eqb_eq, forallb_forall. split.
  - intros [Hlen Hall].
    assert (Hincl : incl (JsObject.keys m1) (JsObject.keys m2)).
    { intros k Hin. apply In_keys_get in Hin. destruct Hin as [u1 Hu1].
      specialize (Hall (k, u1) (get_Some_In _ _ _ Hu1)). cbn [fst snd] in Hall.
      destruct (JsObject.get k m2) as [u2|] eqn:Hu2; [|discriminate].
      eapply get_Some_In_keys; eauto. }
    split.
    + intros k. split; [apply Hincl|].
      apply NoDup_length_incl; [exact Hnd1 | | exact Hincl].
      rewrite !keys_length. lia.
    + intros k u1 u2 Hu1 Hu2.
      specialize (Hall (k, u1) (get_Some_In _ _ _ Hu1)). cbn [fst snd] in Hall.
      now rewrite Hu2 in Hall.
  - intros [Hkeys Hval]. split.
    + rewrite <- !keys_length. apply Permutation_length.
      now apply NoDup_Permutation.
    + intros [k u1] Hin. cbn [fst snd].
      pose proof (In_get k u1 m1 Hnd1 Hin) as Hu1.
      assert (Hk : In k (JsObject.keys m2)).
      { apply Hkeys. eapply get_Some_In_keys; eauto. }
      apply In_keys_get in Hk. destruct Hk as [u2 Hu2]. rewrite Hu2.
      eapply Hval; eauto.
Qed.

(** X3.  For two maps without repeated keys, [equals] answers [true]
    exactly when the two have the same keys and hold deep-equal values at
    each of them. *)
Theorem equals_iff m1 m2 :
  NoDup (JsObject.keys m1) -> NoDup (JsObject.keys m2) ->
  (AddressMap.equals m1 m2 = true
   <-> (forall k, In k (JsObject.keys m1) <-> In k (JsObject.keys m2))
       /\ (forall k u1 u2,
             JsObject.get k m1 = Some u1 -> JsObject.get k m2 = Some u2 ->
             deepEqual u1 u2 = true)).
Proof. exact (equals_spec m1 m2). Qed.

(** X4.  [equals] does not depend on the order of insertion: a map whose
    values are deep-equal to themselves equals every rearrangement of
    its entries, itself among them. *)
Theorem equals_rearranged m1 m2 :
  NoDup (JsObject.keys m1) -> Permutation m1 m2 ->
  forallb (fun u => deepEqual u u) (AddressMap.getAll m1) = true ->
  AddressMap.equals m1 m2 = true.
Proof.
  intros Hnd Hperm Hself. rewrite forallb_forall in Hself.
  assert (Hnd2 : NoDup (JsObject.keys m2)).
  { eapply Permutation_NoDup; [|exact Hnd].
    unfold JsObject.keys. now apply Permutation_map. }
  unfold AddressMap.equals, JsObject.isEqualWith.
  rewrite andb_true_iff, Nat.eqb_eq, forallb_forall. split.
  - now apply Permutation_length.
  - intros [k u] Hin. cbn [fst snd].
    rewrite (In_get k u m2 Hnd2 (Permutation_in _ Hperm Hin)).
    apply Hself. apply (in_map snd) in Hin. exact Hin.
Qed.
End AddressMapEquals.

Section AddressMapSamples.
Import Graph.

Lemma get_after_add_witness :
  AddressMap.get (address mattressStore) makeMap = Some mattressStore
  /\ AddressMap.get (address mansion) makeMap = Some mansion.
Proof.
  destruct (get_after_add (AddressMap.add mansion AddressMap.empty)
              mattressStore (address mansion)) as [Hnew Hold].
  - intros Heq. discriminate Heq.
  - split; [exact Hnew|]. unfold makeMap. rewrite Hold. reflexivity.
Defined.

Lemma add_replaces_or_appends_witness :
  mapOk (AddressMap.add fakeMansion makeMap)
  /\ JsObject.keys (AddressMap.add fakeMansion makeMap)
     = JsObject.keys makeMap.
Proof.
  destruct (add_replaces_or_appends makeMap fakeMansion mapOk_makeMap)
    as [Hok Hcase].
  split; [exact Hok | exact (proj1 Hcase)].
Defined.

Lemma NoDup_keys_makeMap : NoDup (JsObject.keys makeMap).
Proof. exact (proj1 mapOk_makeMap). Qed.

Lemma equals_iff_witness :
  AddressMap.equals makeMap (AddressMap.add fakeMansion makeMap) = true
  <-> (forall k, In k (JsObject.keys makeMap)
                 <-> In k (JsObject.keys (AddressMap.add fakeMansion makeMap)))
      /\ (forall k u1 u2,
            JsObject.get k makeMap = Some u1 ->
            JsObject.get k (AddressMap.add fakeMansion makeMap) = Some u2 ->
            deepEqual u1 u2 = true).
Proof.
  apply (equals_iff makeMap (AddressMap.add fakeMansion makeMap)
           NoDup_keys_makeMap
           (proj1 (mapOk_add _ fakeMansion mapOk_makeMap))).
Defined.

Lemma equals_rearranged_witness :
  AddressMap.equals makeMap
    (AddressMap.add mansion (AddressMap.add mattressStore AddressMap.empty))
  = true.
Proof.
  apply (equals_rearranged makeMap); [exact NoDup_keys_makeMap | | reflexivity].
  apply perm_swap.
Defined.
End AddressMapSamples.

(** ** [sortedByAddress] *)

Lemma ascii_compare_N (a b : ascii) :
  Ascii.compare a b = N.compare (N_of_ascii a) (N_of_ascii b).
Proof. reflexivity. Qed.

Lemma string_leb_trans (s1 s2 s3 : string) :
  String.leb s1 s2 = true -> String.leb s2 s3 = true ->
  String.leb s1 s3 = true.
Proof.
  unfold String.leb. revert s2 s3.
  induction s1 as [|c1 s1 IH]; intros [|c2 s2] [|c3 s3]; simpl; auto;
    try discriminate.
  rewrite !ascii_compare_N.
  destruct (N.compare_spec (N_of_ascii c1) (N_of_ascii c2)) as [E12|L12|G12];
    destruct (N.compare_spec (N_of_ascii c2) (N_of_ascii c3)) as [E23|L23|G23];
    destruct (N.compare_spec (N_of_ascii c1) (N_of_ascii c3)) as [E13|L13|G13];
    try discriminate; auto; try lia.
  apply IH.
Qed.

Lemma string_leb_refl (s : string) : String.leb s s = true.
Proof. destruct (String.leb_total s s); assumption. Qed.

Section SortedByAddressFacts.
Context {U : Type} `{Addressable U}.
Implicit Types (x y : U) (xs ys : list U).

Lemma cmp_le x y : (cmp x y <=? 0)%Z = true <-> keyLe x y.
Proof.
  unfold cmp, keyLe, String.ltb, String.leb.
  rewrite (String.compare_antisym (JSON.stringify (address y))).
  destruct (String.compare (JSON.stringify (address x))
              (JSON.stringify (address y))); simpl; split; intros Hle;
    try reflexivity; exact Hle.
Qed.

Lemma cmp_gt x y : (cmp x y <=? 0)%Z = false -> keyLe y x.
Proof.
  intros Hgt. destruct (String.leb_total (JSON.stringify (address x))
                          (JSON.stringify (address y))) as [Hle|Hle].
  - apply cmp_le in Hle. congruence.
  - exact Hle.
Qed.

Lemma keyLe_trans x y z : keyLe x y -> keyLe y z -> keyLe x z.
Proof. apply string_leb_trans. Qed.

Lemma insert_perm x xs : Permutation (Array.insert cmp x xs) (x :: xs).
Proof.
  induction xs as [|y xs IH]; simpl; [reflexivity|].
  destruct (cmp x y <=? 0)%Z; [reflexivity|].
  rewrite IH. apply perm_swap.
Qed.

Lemma sort_perm xs : Permutation (sortedByAddress xs) xs.
Proof.
  unfold sortedByAddress, Array.sort.
  induction xs as [|x xs IH]; simpl; [reflexivity|].
  rewrite insert_perm. now constructor.
Qed.

Lemma insert_sorted x xs :
  StronglySorted keyLe xs -> StronglySorted keyLe (Array.insert cmp x xs).
Proof.
  induction 1 as [|y xs Hs IH Hy]; simpl.
  - repeat constructor.
  - destruct (cmp x y <=? 0)%Z eqn:Hc.
    + apply cmp_le in Hc. constructor; [now constructor|].
      constructor; [exact Hc|]. rewrite Forall_forall in Hy |- *.
      intros z Hz. eapply keyLe_trans; eauto.
    + constructor; [exact IH|]. rewrite Forall_forall in Hy |- *.
      intros z Hz. apply (Permutation_in _ (insert_perm x xs)) in Hz.
      destruct Hz as [<-|Hz]; [now apply cmp_gt | now apply Hy].
Qed.

Lemma sort_sorted xs : StronglySorted keyLe (sortedByAddress xs).
Proof.
  unfold sortedByAddress, Array.sort.
  induction xs as [|x xs IH]; simpl; [constructor | now apply insert_sorted].
Qed.

(** X5.  [sortedByAddress] returns the elements it was given, each as
    often as given, in the order of their keys (the JSON texts of their
    addresses, compared code unit by code unit). *)
Theorem sortedByAddress_sorts xs :
  Permutation (sortedByAddress xs) xs
  /\ StronglySorted keyLe (sortedByAddress xs).
Proof. split; [apply sort_perm | apply sort_sorted]. Qed.

Lemma same_key_same_element x y xs :
  NoDup (map (fun u => JSON.stringify (address u)) xs) ->
  In x xs -> In y xs ->
  JSON.stringify (address x) = JSON.stringify (address y) -> x = y.
Proof.
  induction xs as [|z xs IH]; intros Hnd Hx Hy Heq; [destruct Hx|].
  simpl in Hnd. inversion Hnd as [|? ? Hnotin Hnd']; subst.
  destruct Hx as [->|Hx], Hy as [->|Hy]; auto.
  - exfalso. apply Hnotin. rewrite Heq.
    now apply (in_map (fun u => JSON.stringify (address u))).
  - exfalso. apply Hnotin. rewrite <- Heq.
    now apply (in_map (fun u => JSON.stringify (address u))).
Qed.

Lemma sorted_unique xs ys :
  NoDup (map (fun u => JSON.stringify (address u)) xs) ->
  StronglySorted keyLe xs -> StronglySorted keyLe ys ->
  Permutation xs ys -> xs = ys.
Proof.
  revert ys. induction xs as [|x xs IH]; intros ys Hnd Hsx Hsy Hperm.
  - apply Permutation_nil in Hperm. now subst.
  - destruct ys as [|y ys].
    { apply Permutation_sym, Permutation_nil in Hperm. discriminate Hperm. }
    assert (Hxy : x = y).
    { inversion Hsx as [|? ? Hsx' Hx]; subst.
      inversion Hsy as [|? ? Hsy' Hy]; subst.
      rewrite Forall_forall in Hx, Hy.
      assert (Hyin : In y (x :: xs)).
      { apply (Permutation_in _ (Permutation_sym Hperm)). now left. }
      assert (Hxin : In x (y :: ys)).
      { apply (Permutation_in _ Hperm). now left. }
      destruct Hyin as [Heq|Hyin]; [exact Heq|].
      destruct Hxin as [Heq|Hxin]; [now symmetry|].
      apply (same_key_same_element x y (x :: xs) Hnd);
        [now left | now right |].
      apply String.leb_antisym; [now apply Hx | now apply Hy]. }
    subst y. f_equal.
    inversion Hsx; subst. inversion Hsy; subst. inversion Hnd; subst.
    apply IH; auto. eapply Permutation_cons_inv; eauto.
Qed.

(** X6.  On values with pairwise different addresses the result of
    [sortedByAddress] does not depend on the order in which they are
    given. *)
Theorem sortedByAddress_any_order xs ys :
  NoDup (map address xs) -> Permutation xs ys ->
  sortedByAddress xs = sortedByAddress ys.
Proof.
  intros Hnd Hperm.
  assert (Hkeys : NoDup (map (fun u => JSON.stringify (address u)) xs)).
  { rewrite <- (map_map address JSON.stringify).
    apply Finite.Injective_map_NoDup; [|exact Hnd].
    intros a b. apply stringify_injective. }
  apply sorted_unique.
  - eapply Permutation_NoDup; [|exact Hkeys].
    apply Permutation_map, Permutation_sym, sort_perm.
  - apply sort_sorted.
  - apply sort_sorted.
  - rewrite sort_perm, Hperm. apply Permutation_sym, sort_perm.
Qed.
End SortedByAddressFacts.

Section SortedByAddressSample.
Import Graph.

Lemma sortedByAddress_any_order_witness :
  sortedByAddress [mattressStore; mansion]
  = sortedByAddress [mansion; mattressStore].
Proof.
  apply sortedByAddress_any_order; [|apply perm_swap].
  repeat constructor; simpl; [|tauto].
  intros [Heq|[]]. discriminate Heq.
Defined.
End SortedByAddressSample.


(* ================================================================= *)
(** * More of [graph.js] *)

(** ** The edge lists follow the order of the edge map *)

Section GraphOrderFacts.
Import Graph.
Context {NP EP : Type} `{DeepEqual NP} `{DeepEqual EP}.
Implicit Types (g : Graph NP EP) (n : Node NP) (e : Edge EP).
Implicit Types (endpoint : Edge EP -> Address).
Implicit Types (nodes : AddressMap.t (Node NP)).
Implicit Types (edgeMap : AddressMap.t (Edge EP)).
Implicit Types (index : AddressMap.t EdgeList).

Lemma filter_none {A} (p : A -> bool) (l : list A) :
  (forall x, In x l -> p x = false) -> filter p l = [].
Proof.
  induction l as [|x l IH]; intros Hp; [reflexivity|]. simpl.
  rewrite (Hp x (or_introl eq_refl)). apply IH. intros y Hy. apply Hp.
  now right.
Qed.

Lemma getAll_add_fresh {U} `{Addressable U} (m : AddressMap.t U) (u : U) :
  AddressMap.get (address u) m = None ->
  AddressMap.getAll (AddressMap.add u m) = AddressMap.getAll m ++ [u].
Proof.
  intros Hnew. unfold AddressMap.add, AddressMap.getAll, JsObject.values.
  rewrite set_absent by exact Hnew. now rewrite map_app.
Qed.

Lemma edgesAt_add endpoint k edgeMap e :
  AddressMap.get (address e) edgeMap = None ->
  edgesAt endpoint k (AddressMap.add e edgeMap)
  = edgesAt endpoint k edgeMap
    ++ (if String.eqb (JSON.stringify (endpoint e)) k then [e] else []).
Proof.
  intros Hnew. unfold edgesAt. rewrite getAll_add_fresh by exact Hnew.
  rewrite filter_app. reflexivity.
Qed.

Lemma indexOrdered_empty endpoint :
  indexOrdered (EP := EP) endpoint AddressMap.empty AddressMap.empty.
Proof. intros k l Hget. discriminate Hget. Qed.

Lemma indexOrdered_addNode endpoint nodes edgeMap index n :
  mapOk edgeMap -> indexOk endpoint nodes edgeMap index ->
  indexOrdered endpoint edgeMap index ->
  AddressMap.get (address n) nodes = None ->
  indexOrdered endpoint edgeMap
    (AddressMap.add (mkEdgeList (address n) []) index).
Proof.
  intros Hmap Hok Hord Hnew k l. unfold AddressMap.get in Hnew.
  pose proof (indexOk_get_none _ _ _ _ _ Hok Hnew) as Hnew'.
  unfold AddressMap.add.
  change (address (mkEdgeList (address n) [])) with (address n).
  destruct (String.eqb_spec (JSON.stringify (address n)) k) as [<-|Hne].
  - rewrite get_set_same. intros Hl. injection Hl as <-. cbn [edges].
    unfold edgesAt. rewrite filter_none; [reflexivity|].
    intros e Hin. apply String.eqb_neq. intros Heq.
    apply (mapOk_getAll _ _ Hmap) in Hin.
    destruct (index_has _ _ _ _ Hok _ e Hin) as [l [Hl _]].
    unfold AddressMap.get in Hl. congruence.
  - rewrite get_set_other by exact Hne. apply Hord.
Qed.

Lemma indexOrdered_push endpoint edgeMap index e l :
  indexOrdered endpoint edgeMap index ->
  AddressMap.get (address e) edgeMap = None ->
  AddressMap.get (endpoint e) index = Some l ->
  indexOrdered endpoint (AddressMap.add e edgeMap)
    (JsObject.set (JSON.stringify (endpoint e))
       (mkEdgeList (listAddress l) (edges l ++ [address e])) index).
Proof.
  intros Hord Hnew Hl k l'. rewrite edgesAt_add by exact Hnew.
  rewrite map_app.
  destruct (String.eqb_spec (JSON.stringify (endpoint e)) k) as [<-|Hne].
  - rewrite get_set_same. intros Heq. injection Heq as <-. cbn [edges map].
    now rewrite (Hord _ l Hl).
  - rewrite get_set_other by exact Hne. intros Hget. cbn [map].
    rewrite app_nil_r. now apply Hord.
Qed.

Lemma ordered_empty : ordered (empty (NP := NP) (EP := EP)).
Proof. split; apply indexOrdered_empty. Qed.

Lemma ordered_addNode g n :
  wf g /\ ordered g -> wf (snd (addNode n g)) /\ ordered (snd (addNode n g)).
Proof.
  intros [Hwf Hord]. split; [now apply wf_addNode|].
  destruct (getNode (address n) g) as [n0|] eqn:Hget.
  - destruct (deepEqual n0 n) eqn:Heq.
    + now rewrite (addNode_same g n n0 Hget Heq).
    + now rewrite (addNode_conflict g n n0 Hget Heq).
  - rewrite (addNode_new g n Hget). destruct Hwf as [Hn He Ho Hi].
    destruct Hord as [Hoo Hoi].
    split; cbn [snd _nodes _edges _outEdges _inEdges];
      eapply indexOrdered_addNode; eauto.
Qed.

Lemma ordered_addEdge g e :
  wf g /\ ordered g -> wf (snd (addEdge e g)) /\ ordered (snd (addEdge e g)).
Proof.
  intros [Hwf Hord]. split; [now apply wf_addEdge|].
  destruct (addEdge_cases g e Hwf)
    as [[e0 [_ [_ ->]]]|[[e0 [_ [_ ->]]]|[[_ [_ ->]]|[[_ [_ [_ ->]]]|
        [Hnew [_ [_ [lo [li [Hlo [Hli ->]]]]]]]]]]]; try exact Hord.
  destruct Hord as [Hoo Hoi].
  split; cbn [snd _nodes _edges _outEdges _inEdges];
    now apply indexOrdered_push.
Qed.

Lemma keeps_ordered_addNode n :
  keeps (fun g => wf g /\ ordered g) (addNode (EP := EP) n).
Proof. intros g Hg. now apply ordered_addNode. Qed.

Lemma keeps_ordered_addEdge e :
  keeps (fun g => wf g /\ ordered g) (addEdge (NP := NP) e).
Proof. intros g Hg. now apply ordered_addEdge. Qed.

Lemma constructed_ordered g : constructed g -> wf g /\ ordered g.
Proof.
  assert (Hstart : wf (empty (NP := NP) (EP := EP)) /\ ordered (empty (NP := NP) (EP := EP)))
    by (split; [apply wf_empty | apply ordered_empty]).
  induction 1 as [|g n g' _ IH Hrun|g e g' _ IH Hrun|json s r s' Hrun
                  |g1 g2 nres eres s r s' Hrun|g1 g2 s r s' Hrun].
  - exact Hstart.
  - pose proof (ordered_addNode g n IH) as Hg. now rewrite Hrun in Hg.
  - pose proof (ordered_addEdge g e IH) as Hg. now rewrite Hrun in Hg.
  - destruct (fromJSON_framed s (fun g => wf g /\ ordered g) json Hstart
                keeps_ordered_addNode keeps_ordered_addEdge s eq_refl)
      as [[_ [_ Hg]] Hres].
    rewrite Hrun in *. cbn [fst snd] in *. now rewrite (Hres r eq_refl).
  - destruct (merge_framed s (fun g => wf g /\ ordered g) g1 g2 nres eres
                Hstart keeps_ordered_addNode keeps_ordered_addEdge s eq_refl)
      as [[_ [_ Hg]] Hres].
    rewrite Hrun in *. cbn [fst snd] in *. now rewrite (Hres r eq_refl).
  - unfold mergeConservative in Hrun.
    destruct (merge_framed s (fun g => wf g /\ ordered g) g1 g2
                (conservativeResolver "nodes") (conservativeResolver "edges")
                Hstart keeps_ordered_addNode keeps_ordered_addEdge s eq_refl)
      as [[_ [_ Hg]] Hres].
    rewrite Hrun in *. cbn [fst snd] in *. now rewrite (Hres r eq_refl).
Qed.

(** An index of a well-formed, ordered graph is a function of its node
    map and its edge map. *)
Lemma index_determined endpoint nodes edgeMap index index' :
  indexOk endpoint nodes edgeMap index ->
  indexOk endpoint nodes edgeMap index' ->
  indexOrdered endpoint edgeMap index ->
  indexOrdered endpoint edgeMap index' ->
  index = index'.
Proof.
  intros Hok Hok' Hord Hord'. apply keys_get_ext.
  - now rewrite (index_keys _ _ _ _ Hok), (index_keys _ _ _ _ Hok').
  - apply (proj1 (index_map _ _ _ _ Hok)).
  - intros k Hin. destruct (In_keys_get _ _ Hin) as [l Hl].
    rewrite (index_keys _ _ _ _ Hok), <- (index_keys _ _ _ _ Hok') in Hin.
    destruct (In_keys_get _ _ Hin) as [l' Hl']. rewrite Hl, Hl'. f_equal.
    pose proof (mapOk_get _ _ _ (index_map _ _ _ _ Hok) Hl) as Hk.
    pose proof (mapOk_get _ _ _ (index_map _ _ _ _ Hok') Hl') as Hk'.
    rewrite Hk in Hk' at 1. apply stringify_injective in Hk'.
    pose proof (Hord _ _ Hl) as He. pose proof (Hord' _ _ Hl') as He'.
    destruct l as [a es], l' as [a' es']. cbn in *. congruence.
Qed.

Lemma graph_determined g1 g2 :
  wf g1 /\ ordered g1 -> wf g2 /\ ordered g2 ->
  _nodes g1 = _nodes g2 -> _edges g1 = _edges g2 -> g1 = g2.
Proof.
  intros [[_ _ Ho1 Hi1] [Hoo1 Hoi1]] [[_ _ Ho2 Hi2] [Hoo2 Hoi2]] Hn He.
  destruct g1 as [n1 e1 o1 i1], g2 as [n2 e2 o2 i2]. cbn in *. subst.
  f_equal; eapply index_determined; eauto.
Qed.

(** X7.  The graphs a program can hold are told apart by their nodes and
    edges: two of them with the same node map and the same edge map have
    the same out-edge and in-edge indices too. *)
Theorem constructed_determined g1 g2 :
  constructed g1 -> constructed g2 ->
  _nodes g1 = _nodes g2 -> _edges g1 = _edges g2 -> g1 = g2.
Proof.
  intros H1 H2. apply graph_determined; now apply constructed_ordered.
Qed.
End GraphOrderFacts.

(** ** What [getOutEdges] and [getInEdges] return *)

Section Adjacency.
Import Graph.
Context {NP EP : Type} `{DeepEqual NP} `{DeepEqual EP}.
Implicit Types (g : Graph NP EP) (n : Node NP) (e : Edge EP).
Implicit Types (endpoint : Edge EP -> Address).
Implicit Types (nodes : AddressMap.t (Node NP)).
Implicit Types (edgeMap : AddressMap.t (Edge EP)).
Implicit Types (index : AddressMap.t EdgeList).

Lemma edgesAt_In endpoint k edgeMap e :
  In e (edgesAt endpoint k edgeMap)
  <-> In e (AddressMap.getAll edgeMap) /\ JSON.stringify (endpoint e) = k.
Proof. unfold edgesAt. now rewrite filter_In, String.eqb_eq. Qed.

Lemma index_lookup endpoint nodes edgeMap index a :
  mapOk edgeMap -> indexOk endpoint nodes edgeMap index ->
  indexOrdered endpoint edgeMap index ->
  match AddressMap.get a nodes with
  | None => AddressMap.get a index = None
  | Some _ =>
      exists l, AddressMap.get a index = Some l
        /\ map (fun ea => AddressMap.get ea edgeMap) (edges l)
           = map Some (edgesAt endpoint (JSON.stringify a) edgeMap)
  end.
Proof.
  intros Hmap Hok Hord. destruct (AddressMap.get a nodes) as [n|] eqn:Hn.
  - destruct (indexOk_get_node _ _ _ _ _ _ Hok Hn) as [l Hl].
    exists l. split; [exact Hl|]. rewrite (Hord _ _ Hl), map_map.
    apply map_ext_in. intros e Hin. apply edgesAt_In in Hin.
    now apply mapOk_getAll.
  - now apply (indexOk_get_none _ _ _ _ _ Hok).
Qed.

Lemma adjacency_ordered g a :
  wf g /\ ordered g ->
  match getNode a g with
  | None =>
      getOutEdges a g = Throw (noNodeForAddress a)
      /\ getInEdges a g = Throw (noNodeForAddress a)
  | Some _ =>
      getOutEdges a g
      = Ok (map Some (edgesAt src (JSON.stringify a) (_edges g)))
      /\ getInEdges a g
         = Ok (map Some (edgesAt dst (JSON.stringify a) (_edges g)))
  end.
Proof.
  intros [[_ He Ho Hi] [Hoo Hoi]].
  pose proof (index_lookup src _ _ _ a He Ho Hoo) as Hout.
  pose proof (index_lookup dst _ _ _ a He Hi Hoi) as Hin.
  unfold getNode, getOutEdges, getInEdges, getEdge.
  destruct (AddressMap.get a (_nodes g)) as [n|].
  - destruct Hout as [lo [-> Hlo]], Hin as [li [-> Hli]].
    now rewrite Hlo, Hli.
  - now rewrite Hout, Hin.
Qed.

(** X8.  In a graph a program can hold, [getOutEdges] at the address of a
    node returns the edges of the graph that start at that address, each
    one once and in the order of [getAllEdges]; [getInEdges] returns the
    edges that end there.  At an address with no node both throw
    "no node for address". *)
Theorem edges_of_node g a :
  constructed g ->
  match getNode a g with
  | None =>
      getOutEdges a g = Throw (noNodeForAddress a)
      /\ getInEdges a g = Throw (noNodeForAddress a)
  | Some _ =>
      getOutEdges a g
      = Ok (map Some
              (filter (fun e => String.eqb (JSON.stringify (src e))
                                  (JSON.stringify a))
                 (getAllEdges g)))
      /\ getInEdges a g
         = Ok (map Some
                 (filter (fun e => String.eqb (JSON.stringify (dst e))
                                     (JSON.stringify a))
                    (getAllEdges g)))
  end.
Proof.
  intros Hg. apply constructed_ordered in Hg.
  exact (adjacency_ordered g a Hg).
Qed.

(** X9.  An edge added at a new address, between nodes of the graph, goes
    to the end of [getAllEdges], of the out-edges of its source and of
    the in-edges of its destination; the nodes and every other list of
    out-edges and in-edges are as before. *)
Theorem addEdge_appends g e :
  constructed g -> getEdge (address e) g = None ->
  getNode (src e) g <> None -> getNode (dst e) g <> None ->
  exists g', addEdge e g = (Ok tt, g')
    /\ getAllNodes g' = getAllNodes g
    /\ getAllEdges g' = getAllEdges g ++ [e]
    /\ getEdge (address e) g' = Some e
    /\ (forall outs, getOutEdges (src e) g = Ok outs ->
          getOutEdges (src e) g' = Ok (outs ++ [Some e]))
    /\ (forall ins, getInEdges (dst e) g = Ok ins ->
          getInEdges (dst e) g' = Ok (ins ++ [Some e]))
    /\ (forall a, a <> src e -> getOutEdges a g' = getOutEdges a g)
    /\ (forall a, a <> dst e -> getInEdges a g' = getInEdges a g).
Proof.
  intros Hg Hnew Hsrc Hdst. apply constructed_ordered in Hg.
  pose proof (ordered_addEdge g e Hg) as Hg'.
  destruct (addEdge_fresh g e (proj1 Hg) Hnew Hsrc Hdst)
    as [g' [Hrun [_ [Hnodes Hedges]]]].
  rewrite Hrun in Hg'. cbn [snd] in Hg'. exists g'.
  assert (Hat : forall endpoint a,
            edgesAt endpoint (JSON.stringify a) (_edges g')
            = edgesAt endpoint (JSON.stringify a) (_edges g)
              ++ (if String.eqb (JSON.stringify (endpoint e))
                       (JSON.stringify a) then [e] else []))
    by (intros endpoint a; rewrite Hedges; now apply edgesAt_add).
  assert (Hother : forall endpoint a, a <> endpoint e ->
            edgesAt endpoint (JSON.stringify a) (_edges g')
            = edgesAt endpoint (JSON.stringify a) (_edges g)).
  { intros endpoint a Hne. rewrite Hat.
    destruct (String.eqb_spec (JSON.stringify (endpoint e))
                (JSON.stringify a)) as [Heq|_]; [|apply app_nil_r].
    apply stringify_injective in Heq. congruence. }
  assert (Hnode : forall a, getNode a g' = getNode a g)
      by (intros a; unfold getNode; now rewrite Hnodes).
  split; [exact Hrun|]. split; [unfold getAllNodes; now rewrite Hnodes|].
  split; [unfold getAllEdges; rewrite Hedges; now apply getAll_add_fresh|].
  split; [unfold getEdge, AddressMap.get, AddressMap.add; rewrite Hedges;
          apply get_set_same|].
  split; [|split; [|split]].
  - intros outs Houts.
    pose proof (adjacency_ordered g (src e) Hg) as Ha.
    pose proof (adjacency_ordered g' (src e) Hg') as Ha'.
    rewrite Hnode in Ha'. destruct (getNode (src e) g); [|congruence].
    destruct Ha as [Ha _], Ha' as [Ha' _].
    rewrite Ha', Hat, String.eqb_refl, map_app. cbn [map].
    rewrite Ha in Houts. now injection Houts as <-.
  - intros ins Hins.
    pose proof (adjacency_ordered g (dst e) Hg) as Ha.
    pose proof (adjacency_ordered g' (dst e) Hg') as Ha'.
    rewrite Hnode in Ha'. destruct (getNode (dst e) g); [|congruence].
    destruct Ha as [_ Ha], Ha' as [_ Ha'].
    rewrite Ha', Hat, String.eqb_refl, map_app. cbn [map].
    rewrite Ha in Hins. now injection Hins as <-.
  - intros a Hne.
    pose proof (adjacency_ordered g a Hg) as Ha.
    pose proof (adjacency_ordered g' a Hg') as Ha'.
    rewrite Hnode in Ha'. destruct (getNode a g).
    + destruct Ha as [Ha _], Ha' as [Ha' _].
      now rewrite Ha, Ha', (Hother src a Hne).
    + destruct Ha as [Ha _], Ha' as [Ha' _]. now rewrite Ha, Ha'.
  - intros a Hne.
    pose proof (adjacency_ordered g a Hg) as Ha.
    pose proof (adjacency_ordered g' a Hg') as Ha'.
    rewrite Hnode in Ha'. destruct (getNode a g).
    + destruct Ha as [_ Ha], Ha' as [_ Ha'].
      now rewrite Ha, Ha', (Hother dst a Hne).
    + destruct Ha as [_ Ha], Ha' as [_ Ha']. now rewrite Ha, Ha'.
Qed.

(** X10.  A node added at a new address goes to the end of [getAllNodes]
    and starts with no out-edges and no in-edges; the edges, the other
    nodes and their lists of out-edges and in-edges are as before. *)
Theorem addNode_appends g n :
  getNode (address n) g = None ->
  exists g', addNode n g = (Ok tt, g')
    /\ getAllNodes g' = getAllNodes g ++ [n]
    /\ getAllEdges g' = getAllEdges g
    /\ getNode (address n) g' = Some n
    /\ getOutEdges (address n) g' = Ok []
    /\ getInEdges (address n) g' = Ok []
    /\ (forall a, a <> address n ->
          getNode a g' = getNode a g
          /\ getOutEdges a g' = getOutEdges a g
          /\ getInEdges a g' = getInEdges a g).
Proof.
  intros Hnew. eexists. split; [exact (addNode_new g n Hnew)|].
  split; [now apply getAll_add_fresh|]. split; [reflexivity|].
  unfold getNode, getOutEdges, getInEdges, getEdge, AddressMap.get,
    AddressMap.add.
  cbn [_nodes _edges _outEdges _inEdges].
  change (address (mkEdgeList (address n) [])) with (address n).
  rewrite !get_set_same. cbn [edges map].
  split; [reflexivity|]. split; [reflexivity|]. split; [reflexivity|].
  intros a Hne.
  assert (Hk : JSON.stringify (address n) <> JSON.stringify a)
      by (intros Heq; apply stringify_injective in Heq; congruence).
  now rewrite !get_set_other by exact Hk.
Qed.

(** X11.  [addNode] and [addEdge] never replace or remove what the graph
    holds, whether they return or throw: every node and every edge found
    before the call is found after it, [addNode] leaves the edges alone
    and [addEdge] the nodes. *)
Theorem add_never_overwrites g n e :
  (forall a n0, getNode a g = Some n0 ->
     getNode a (snd (addNode n g)) = Some n0)
  /\ getAllEdges (snd (addNode n g)) = getAllEdges g
  /\ (forall a e0, getEdge a g = Some e0 ->
        getEdge a (snd (addEdge e g)) = Some e0)
  /\ getAllNodes (snd (addEdge e g)) = getAllNodes g.
Proof.
  assert (Hfresh : forall {U} `{Addressable U} (m : AddressMap.t U) (u : U)
            a u0,
            AddressMap.get (address u) m = None ->
            AddressMap.get a m = Some u0 ->
            AddressMap.get a (AddressMap.add u m) = Some u0).
  { intros U HU m u a u0 Hnone Hsome. unfold AddressMap.get, AddressMap.add.
    rewrite get_set_other; [exact Hsome|].
    unfold AddressMap.get in *. congruence. }
  split; [|split; [|split]].
  - intros a n0 Hget. destruct (getNode (address n) g) as [n1|] eqn:Hn.
    + destruct (deepEqual n1 n) eqn:Heq.
      * now rewrite (addNode_same g n n1 Hn Heq).
      * now rewrite (addNode_conflict g n n1 Hn Heq).
    + rewrite (addNode_new g n Hn). now apply Hfresh.
  - destruct (getNode (address n) g) as [n1|] eqn:Hn.
    + destruct (deepEqual n1 n) eqn:Heq.
      * now rewrite (addNode_same g n n1 Hn Heq).
      * now rewrite (addNode_conflict g n n1 Hn Heq).
    + now rewrite (addNode_new g n Hn).
  - intros a e0 Hget. unfold addEdge, bind, gets, ret, throw, modify.
    destruct (getEdge (address e) g) as [e1|] eqn:He.
    + now destruct (deepEqual e1 e).
    + destruct (getNode (src e) g); [|exact Hget].
      destruct (getNode (dst e) g); [|exact Hget].
      unfold pushOutEdge, pushInEdge, pushEdge.
      cbn [_nodes _edges _outEdges _inEdges].
      destruct (AddressMap.get (src e) (_outEdges g));
        cbn [fst snd _nodes _edges _outEdges _inEdges];
        [destruct (AddressMap.get (dst e) (_inEdges g))|];
        cbn [fst snd _nodes _edges _outEdges _inEdges];
        unfold getEdge; cbn [_edges]; now apply Hfresh.
  - unfold addEdge, bind, gets, ret, throw, modify.
    destruct (getEdge (address e) g) as [e1|] eqn:He.
    + now destruct (deepEqual e1 e).
    + destruct (getNode (src e) g); [|reflexivity].
      destruct (getNode (dst e) g); [|reflexivity].
      unfold pushOutEdge, pushInEdge, pushEdge.
      cbn [_nodes _edges _outEdges _inEdges].
      destruct (AddressMap.get (src e) (_outEdges g));
        cbn [fst snd _nodes _edges _outEdges _inEdges];
        [destruct (AddressMap.get (dst e) (_inEdges g))|];
        reflexivity.
Qed.
End Adjacency.

(** ** A graph read back from its JSON form *)

Section GraphRoundTrip.
Import Graph.
Context {NP EP : Type} `{DeepEqual NP} `{DeepEqual EP}.
Implicit Types (g : Graph NP EP).

Lemma addressMap_roundtrip {U S : Type} `{Addressable U} `{SansAddress U S}
    (m : AddressMap.t U) :
  mapOk m ->
  (forall u, withAddress (sansAddress u) (address u) = u) ->
  (forall u, In u (AddressMap.getAll m) -> isAddress (address u) = true) ->
  AddressMap.fromJSON (S := S) (AddressMap.toJSON m) = Ok m.
Proof.
  intros [Hnd Hkey] Heta Haddr.
  unfold AddressMap.fromJSON, AddressMap.empty, AddressMap.toJSON.
  rewrite toJSON_from by exact Hnd. cbn [app].
  rewrite fromJSON_from_toJSON; [cbn [app]; f_equal | exact Hnd |].
  - rewrite <- (map_id m) at 2. apply map_ext. intros [k u]. cbn [fst snd].
    now rewrite Heta.
  - intros k u Hin. split; [now apply Hkey|]. apply Haddr.
    apply (in_map snd) in Hin. exact Hin.
Qed.

Lemma addEdge_keeps_nodes g (e : Edge EP) :
  wf g -> _nodes (snd (addEdge e g)) = _nodes g.
Proof.
  intros Hwf.
  destruct (addEdge_cases g e Hwf)
    as [[e0 [_ [_ ->]]]|[[e0 [_ [_ ->]]]|[[_ [_ ->]]|[[_ [_ [_ ->]]]|
        [_ [_ [_ [lo [li [_ [_ ->]]]]]]]]]]]; reflexivity.
Qed.

Section OneGraph.
Variable G : Graph NP EP.
Hypothesis HG : wf G /\ ordered G.

Lemma step_nodesRead pre (x : Node NP) post :
  getAllNodes G = pre ++ x :: post ->
  hoare (nodesRead pre) (addNode x)
    (fun res g => res = Ok tt /\ nodesRead (EP := EP) (pre ++ [x]) g).
Proof.
  intros Hxs g [Hwf [Hord [He Hn]]].
  assert (Hfresh : JsObject.get (JSON.stringify (address x))
                     (map entryOf pre) = None)
    by exact (fresh_after_prefix _ pre x post (wf_nodes _ (proj1 HG)) Hxs).
  assert (Hnew : getNode (address x) g = None)
    by (unfold getNode, AddressMap.get; now rewrite Hn).
  pose proof (ordered_addNode g x (conj Hwf Hord)) as [Hwf' Hord'].
  destruct (addNode_fresh g x Hwf Hnew) as [g' [Hrun [_ [He' Hn']]]].
  rewrite Hrun in *. cbn [fst snd] in *.
  split; [reflexivity|]. split; [exact Hwf'|]. split; [exact Hord'|].
  split; [congruence|]. rewrite Hn', Hn. now apply set_entry_fresh.
Qed.

Lemma step_edgesRead pre (x : Edge EP) post :
  getAllEdges G = pre ++ x :: post ->
  hoare (edgesRead (_nodes G) pre) (addEdge x)
    (fun res g => res = Ok tt /\ edgesRead (_nodes G) (pre ++ [x]) g).
Proof.
  intros Hxs g [Hwf [Hord [Hn He]]].
  assert (Hfresh : JsObject.get (JSON.stringify (address x))
                     (map entryOf pre) = None)
    by exact (fresh_after_prefix _ pre x post (wf_edges _ (proj1 HG)) Hxs).
  assert (Hnew : getEdge (address x) g = None)
    by (unfold getEdge, AddressMap.get; now rewrite He).
  assert (Hin : In x (getAllEdges G))
    by (rewrite Hxs; apply in_or_app; right; now left).
  destruct (wf_endpoints G x (proj1 HG) Hin) as [[v1 Hsrc] [v2 Hdst]].
  assert (Hs : getNode (src x) g <> None)
    by (unfold getNode, AddressMap.get; rewrite Hn, Hsrc; discriminate).
  assert (Hd : getNode (dst x) g <> None)
    by (unfold getNode, AddressMap.get; rewrite Hn, Hdst; discriminate).
  pose proof (ordered_addEdge g x (conj Hwf Hord)) as [Hwf' Hord'].
  destruct (addEdge_fresh g x Hwf Hnew Hs Hd) as [g' [Hrun [_ [Hn' He']]]].
  rewrite Hrun in *. cbn [fst snd] in *.
  split; [reflexivity|]. split; [exact Hwf'|]. split; [exact Hord'|].
  split; [congruence|]. rewrite He', He. now apply set_entry_fresh.
Qed.

Hypothesis HaddrN :
  forall n, In n (getAllNodes G) -> isAddress (address n) = true.
Hypothesis HaddrE :
  forall e, In e (getAllEdges G) -> isAddress (address e) = true.
Variable s0 : Store NP EP.

Lemma fromJSON_toJSON_hoare :
  hoare (fun s => s = s0) (fromJSON (toJSON G))
    (fun res s => res = Ok (next s0) /\ framed s0 (fun g => g = G) s).
Proof.
  unfold fromJSON, toJSON. cbn [jsonNodes jsonEdges].
  rewrite (addressMap_roundtrip (_nodes G) (wf_nodes _ (proj1 HG)));
    [| now intros [a p] | exact HaddrN].
  rewrite (addressMap_roundtrip (_edges G) (wf_edges _ (proj1 HG)));
    [| now intros [a s d p] | exact HaddrE].
  apply hoare_bind
    with (R := fun res s => res = Ok (next s0)
                            /\ framed s0 (nodesRead []) s).
  - intros s ->. apply framed_new.
    split; [apply wf_empty|]. split; [apply ordered_empty|]. now split.
  - intros result. apply hoare_assume. intros Heq. injection Heq as ->.
    eapply hoare_bind
      with (R := fun res s => res = Ok (_nodes G)
                              /\ framed s0 (nodesRead []) s).
    + apply hoare_liftResult. intros s Hs. now split.
    + intros nodes. apply hoare_assume. intros Heq. injection Heq as ->.
      eapply hoare_bind
        with (R := fun res s =>
                     match res with
                     | Ok _ => framed s0 (nodesRead (getAllNodes G)) s
                     | Throw _ => False
                     end).
      * apply (hoare_forEach
                 (fun pre s => framed s0 (nodesRead pre) s)
                 (fun _ _ => False)).
        intros pre x post Hxs. eapply hoare_post.
        -- apply hoare_on_result. exact (step_nodesRead pre x post Hxs).
        -- intros res s Hs. now apply framed_ok.
      * intros [].
        eapply hoare_bind
          with (R := fun res s =>
                       res = Ok (_edges G)
                       /\ framed s0 (edgesRead (_nodes G) []) s).
        -- apply hoare_liftResult. intros s Hs. split; [reflexivity|].
           revert Hs. apply framed_mono. intros g [Hwf [Hord [He Hn]]].
           split; [exact Hwf|]. split; [exact Hord|]. split; [|exact He].
           rewrite Hn. unfold getAllNodes.
           symmetry. apply mapOk_entries, (wf_nodes _ (proj1 HG)).
        -- intros edges. apply hoare_assume. intros Heq.
           injection Heq as ->.
           eapply hoare_bind
             with (R := fun res s =>
                          match res with
                          | Ok _ => framed s0
                                      (edgesRead (_nodes G) (getAllEdges G)) s
                          | Throw _ => False
                          end).
           ++ apply (hoare_forEach
                       (fun pre s => framed s0 (edgesRead (_nodes G) pre) s)
                       (fun _ _ => False)).
              intros pre x post Hxs. eapply hoare_post.
              ** apply hoare_on_result.
                 exact (step_edgesRead pre x post Hxs).
              ** intros res s Hs. now apply framed_ok.
           ++ intros []. apply hoare_ret. intros s Hs.
              split; [reflexivity|]. revert Hs. apply framed_mono.
              intros g [Hwf [Hord [Hn He]]].
              apply graph_determined;
                [now split | exact HG | exact Hn |].
              rewrite He. unfold getAllEdges. symmetry.
              apply mapOk_entries, (wf_edges _ (proj1 HG)).
           ++ intros e s [].
        -- intros e s [Heq _]. discriminate Heq.
      * intros e s [].
    + intros e s [Heq _]. discriminate Heq.
  - intros e s [Heq _]. discriminate Heq.
Qed.
End OneGraph.

(** X12.  A graph a program can hold, all of whose nodes and edges have
    well-formed addresses, is read back from its JSON form as it is:
    [fromJSON (toJSON g)] returns a new graph with the nodes and the
    edges of [g] in the same order and with the same lists of out-edges
    and in-edges, and leaves the graphs of the store alone. *)
Theorem graph_fromJSON_toJSON (s : Store NP EP) g :
  constructed g ->
  forallb (fun n => isAddress (address n)) (getAllNodes g) = true ->
  forallb (fun e => isAddress (address e)) (getAllEdges g) = true ->
  fst (fromJSON (toJSON g) s) = Ok (next s)
  /\ heap (snd (fromJSON (toJSON g) s)) (next s) = g
  /\ forall r, r < next s ->
       heap (snd (fromJSON (toJSON g) s)) r = heap s r.
Proof.
  intros Hg HaN HaE. apply constructed_ordered in Hg.
  rewrite forallb_forall in HaN, HaE.
  destruct (fromJSON_toJSON_hoare g Hg HaN HaE s s eq_refl)
    as [Hres [_ [Hold Hnew]]].
  split; [exact Hres|]. split; [exact Hnew | exact Hold].
Qed.
End GraphRoundTrip.

(** ** What [merge] returns when the resolvers keep their contract *)

Section MergedValuesFacts.
Context {U : Type} `{Addressable U}.
Variable resolver : Graph.Resolver U.
Variables m1 m2 : AddressMap.t U.
Hypothesis Hm1 : mapOk m1.
Hypothesis Hm2 : mapOk m2.

Lemma resolvedTo_functional xs (a b : list U) :
  Forall2 (resolvedTo resolver m2) xs a ->
  Forall2 (resolvedTo resolver m2) xs b -> a = b.
Proof.
  intros Ha. revert b. induction Ha as [|x r xs rs [Hr _] _ IH]; intros b Hb.
  - now inversion Hb.
  - inversion Hb as [|x' r' xs' rs' [Hr' _] Hrest]; subst.
    f_equal; [congruence | now apply IH].
Qed.

Lemma resolvedTo_keys xs rs :
  Forall2 (resolvedTo resolver m2) xs rs ->
  map (fun u => JSON.stringify (address u)) rs
  = map (fun u => JSON.stringify (address u)) xs.
Proof.
  induction 1 as [|x r xs rs [_ Ha] _ IH]; cbn [map]; [reflexivity|].
  now rewrite Ha, IH.
Qed.

Lemma resolvedTo_split pre x post rs :
  Forall2 (resolvedTo resolver m2) (pre ++ x :: post) rs ->
  exists r, resolvedTo resolver m2 x r /\ In r rs.
Proof.
  intros HF. apply Forall2_app_inv_l in HF.
  destruct HF as [l1 [l2 [_ [H2 ->]]]].
  inversion H2 as [|x' r xs' rs' Hr _]; subst.
  exists r. split; [exact Hr|]. apply in_or_app. right. now left.
Qed.

Lemma resolvedTo_same xs :
  (forall x, In x xs -> resolveWith resolver m2 x = Ok x) ->
  Forall2 (resolvedTo resolver m2) xs xs.
Proof.
  induction xs as [|x xs IH]; intros Hxs; constructor.
  - split; [apply Hxs; now left | reflexivity].
  - apply IH. intros y Hy. apply Hxs. now right.
Qed.

Lemma getAll_entries (us : list U) : AddressMap.getAll (map entryOf us) = us.
Proof.
  unfold AddressMap.getAll, JsObject.values. rewrite map_map. apply map_id.
Qed.

Lemma keys_of_map :
  JsObject.keys m1
  = map (fun u => JSON.stringify (address u)) (AddressMap.getAll m1).
Proof.
  rewrite <- keys_entries. now rewrite <- (mapOk_entries m1 Hm1).
Qed.

Lemma first_fresh pre x post rs r :
  AddressMap.getAll m1 = pre ++ x :: post ->
  Forall2 (resolvedTo resolver m2) pre rs ->
  resolvedTo resolver m2 x r ->
  JsObject.get (JSON.stringify (address r)) (map entryOf rs) = None.
Proof.
  intros Hxs Hrs [_ Ha].
  pose proof (fresh_after_prefix m1 pre x post Hm1 Hxs) as Hf.
  apply get_None_iff in Hf. apply get_None_iff.
  rewrite keys_entries in *. rewrite (resolvedTo_keys _ _ Hrs), Ha.
  exact Hf.
Qed.

Lemma onlyInSecond_snoc pre x :
  onlyInSecond m1 (pre ++ [x])
  = onlyInSecond m1 pre
    ++ (if JsObject.has (JSON.stringify (address x)) m1 then [] else [x]).
Proof.
  unfold onlyInSecond. rewrite filter_app. cbn [filter].
  now destruct (JsObject.has _ m1).
Qed.

Lemma keys_merged ns ys :
  Forall2 (resolvedTo resolver m2) (AddressMap.getAll m1) ns ->
  JsObject.keys (mergedMap m1 ns ys)
  = JsObject.keys m1
    ++ map (fun u => JSON.stringify (address u)) (onlyInSecond m1 ys).
Proof.
  intros HF. unfold mergedMap.
  rewrite keys_entries, map_app, (resolvedTo_keys _ _ HF).
  now rewrite <- keys_of_map.
Qed.

Lemma second_lookup ns pre x post :
  Forall2 (resolvedTo resolver m2) (AddressMap.getAll m1) ns ->
  AddressMap.getAll m2 = pre ++ x :: post ->
  JsObject.get (JSON.stringify (address x)) (mergedMap m1 ns pre) = None
  <-> JsObject.has (JSON.stringify (address x)) m1 = false.
Proof.
  intros HF Hxs. rewrite get_None_iff, (keys_merged _ _ HF).
  unfold JsObject.has. split.
  - intros Hnot.
    destruct (JsObject.get (JSON.stringify (address x)) m1) eqn:Hg;
      [|reflexivity].
    exfalso. apply Hnot, in_or_app. left.
    eapply get_Some_In_keys. exact Hg.
  - intros Hhas Hin. apply in_app_or in Hin. destruct Hin as [Hin|Hin].
    + apply In_keys_get in Hin. destruct Hin as [v Hv].
      rewrite Hv in Hhas. discriminate Hhas.
    + pose proof (fresh_after_prefix m2 pre x post Hm2 Hxs) as Hf.
      apply get_None_iff in Hf. rewrite keys_entries in Hf. apply Hf.
      apply in_map_iff in Hin. destruct Hin as [y [Hy Hin]].
      apply filter_In in Hin. destruct Hin as [Hin _].
      apply in_map_iff. exists y. now split.
Qed.

Lemma merged_covers ns k :
  Forall2 (resolvedTo resolver m2) (AddressMap.getAll m1) ns ->
  JsObject.get k m1 <> None \/ JsObject.get k m2 <> None ->
  JsObject.get k (mergedMap m1 ns (AddressMap.getAll m2)) <> None.
Proof.
  intros HF Hk Hnone. apply get_None_iff in Hnone.
  rewrite (keys_merged _ _ HF) in Hnone. apply Hnone, in_or_app.
  destruct (JsObject.get k m1) as [v1|] eqn:Hg1.
  - left. eapply get_Some_In_keys. exact Hg1.
  - right. destruct Hk as [Hk|Hk]; [congruence|].
    destruct (JsObject.get k m2) as [v|] eqn:Hg2; [|congruence].
    pose proof (mapOk_get _ _ _ Hm2 Hg2) as Hkv. subst k.
    apply (in_map (fun u => JSON.stringify (address u))).
    unfold onlyInSecond. apply filter_In.
    split; [eapply get_getAll; exact Hg2|].
    unfold JsObject.has. now rewrite Hg1.
Qed.

Lemma merged_step ns pre x post :
  Forall2 (resolvedTo resolver m2) (AddressMap.getAll m1) ns ->
  AddressMap.getAll m2 = pre ++ x :: post ->
  match AddressMap.get (address x) (mergedMap m1 ns pre) with
  | None =>
      AddressMap.add x (mergedMap m1 ns pre) = mergedMap m1 ns (pre ++ [x])
  | Some _ => mergedMap m1 ns pre = mergedMap m1 ns (pre ++ [x])
  end.
Proof.
  intros HF Hxs. pose proof (second_lookup ns pre x post HF Hxs) as Hlook.
  unfold AddressMap.get.
  destruct (JsObject.get (JSON.stringify (address x)) (mergedMap m1 ns pre))
    as [v|] eqn:Hget.
  - unfold mergedMap. rewrite onlyInSecond_snoc.
    destruct (JsObject.has (JSON.stringify (address x)) m1) eqn:Hhas.
    + now rewrite app_nil_r.
    + discriminate (proj2 Hlook eq_refl).
  - unfold mergedMap in *. rewrite onlyInSecond_snoc.
    rewrite (proj1 Hlook eq_refl), app_assoc.
    now apply set_entry_fresh.
Qed.
End MergedValuesFacts.

Section MergeGeneral.
Import Graph.
Context {NP EP : Type} `{DeepEqual NP} `{DeepEqual EP}.
Variable s0 : Store NP EP.
Variables g1 g2 : nat.
Hypothesis Hg1 : g1 < next s0.
Hypothesis Hg2 : g2 < next s0.
Hypothesis Hwf1 : wf (heap s0 g1).
Hypothesis Hwf2 : wf (heap s0 g2).
Local Abbreviation G1 := (heap s0 g1).
Local Abbreviation G2 := (heap s0 g2).
Variable nodeResolver : Resolver (Node NP).
Variable edgeResolver : Resolver (Edge EP).
Variable ns : list (Node NP).
Variable es : list (Edge EP).
Hypothesis Hns :
  Forall2 (resolvedTo nodeResolver (_nodes G2)) (getAllNodes G1) ns.
Hypothesis Hes :
  Forall2 (resolvedTo edgeResolver (_edges G2)) (getAllEdges G1) es.
Hypothesis Hends : forall e, In e es ->
  (getNode (src e) G1 <> None \/ getNode (src e) G2 <> None)
  /\ (getNode (dst e) G1 <> None \/ getNode (dst e) G2 <> None).
Local Abbreviation NODES := (mergedMap (_nodes G1) ns (getAllNodes G2)).

Lemma step_firstNodes pre (x r : Node NP) post :
  getAllNodes G1 = pre ++ x :: post ->
  resolvedTo nodeResolver (_nodes G2) x r ->
  hoare (firstNodes (EP := EP) nodeResolver (_nodes G2) pre) (addNode r)
    (fun res g =>
       res = Ok tt /\ firstNodes nodeResolver (_nodes G2) (pre ++ [x]) g).
Proof.
  intros Hxs Hr g [Hwf [Hord [He [rs [Hrs Hn]]]]].
  pose proof (first_fresh nodeResolver (_nodes G1) (_nodes G2)
                (wf_nodes _ Hwf1) pre x post rs r Hxs Hrs Hr) as Hfresh.
  assert (Hnew : getNode (address r) g = None)
    by (unfold getNode, AddressMap.get; now rewrite Hn).
  pose proof (ordered_addNode g r (conj Hwf Hord)) as [Hwf' Hord'].
  destruct (addNode_fresh g r Hwf Hnew) as [g' [Hrun [_ [He' Hn']]]].
  rewrite Hrun in *. cbn [fst snd] in *.
  split; [reflexivity|]. split; [exact Hwf'|]. split; [exact Hord'|].
  split; [congruence|]. exists (rs ++ [r]). split.
  - apply Forall2_app; [exact Hrs|]. constructor; [exact Hr | constructor].
  - rewrite Hn', Hn. now apply set_entry_fresh.
Qed.

Lemma step_secondNodes pre (x : Node NP) post :
  getAllNodes G2 = pre ++ x :: post ->
  hoare (fun g => Ok (A := option (Node NP)) None
                  = Ok (getNode (address x) g)
                  /\ secondNodes (EP := EP) (_nodes G1) ns pre g)
    (addNode x)
    (fun res g => res = Ok tt /\ secondNodes (_nodes G1) ns (pre ++ [x]) g).
Proof.
  intros Hxs g [Hnone [Hwf [Hord [He Hn]]]].
  injection Hnone as Hnone. symmetry in Hnone.
  pose proof (merged_step nodeResolver (_nodes G1) (_nodes G2)
                (wf_nodes _ Hwf1) (wf_nodes _ Hwf2) ns pre x post Hns Hxs)
    as Hstep.
  pose proof Hnone as Hnone'. unfold getNode in Hnone'.
  rewrite Hn in Hnone'. rewrite Hnone' in Hstep.
  pose proof (ordered_addNode g x (conj Hwf Hord)) as [Hwf' Hord'].
  destruct (addNode_fresh g x Hwf Hnone) as [g' [Hrun [_ [He' Hn']]]].
  rewrite Hrun in *. cbn [fst snd] in *.
  split; [reflexivity|]. split; [exact Hwf'|]. split; [exact Hord'|].
  split; [congruence|]. now rewrite Hn', Hn.
Qed.

Lemma step_firstEdges pre (x r : Edge EP) post :
  getAllEdges G1 = pre ++ x :: post ->
  resolvedTo edgeResolver (_edges G2) x r -> In r es ->
  hoare (firstEdges edgeResolver (_edges G2) NODES pre) (addEdge r)
    (fun res g =>
       res = Ok tt
       /\ firstEdges edgeResolver (_edges G2) NODES (pre ++ [x]) g).
Proof.
  intros Hxs Hr Hin g [Hwf [Hord [Hn [rs [Hrs He]]]]].
  pose proof (first_fresh edgeResolver (_edges G1) (_edges G2)
                (wf_edges _ Hwf1) pre x post rs r Hxs Hrs Hr) as Hfresh.
  assert (Hnew : getEdge (address r) g = None)
    by (unfold getEdge, AddressMap.get; now rewrite He).
  destruct (Hends r Hin) as [Hsrc Hdst].
  assert (Hs : getNode (src r) g <> None).
  { unfold getNode, AddressMap.get. rewrite Hn.
    exact (merged_covers nodeResolver (_nodes G1) (_nodes G2)
             (wf_nodes _ Hwf1) (wf_nodes _ Hwf2) ns _ Hns Hsrc). }
  assert (Hd : getNode (dst r) g <> None).
  { unfold getNode, AddressMap.get. rewrite Hn.
    exact (merged_covers nodeResolver (_nodes G1) (_nodes G2)
             (wf_nodes _ Hwf1) (wf_nodes _ Hwf2) ns _ Hns Hdst). }
  pose proof (ordered_addEdge g r (conj Hwf Hord)) as [Hwf' Hord'].
  destruct (addEdge_fresh g r Hwf Hnew Hs Hd) as [g' [Hrun [_ [Hn' He']]]].
  rewrite Hrun in *. cbn [fst snd] in *.
  split; [reflexivity|]. split; [exact Hwf'|]. split; [exact Hord'|].
  split; [congruence|]. exists (rs ++ [r]). split.
  - apply Forall2_app; [exact Hrs|]. constructor; [exact Hr | constructor].
  - rewrite He', He. now apply set_entry_fresh.
Qed.

Lemma step_secondEdges pre (x : Edge EP) post :
  getAllEdges G2 = pre ++ x :: post ->
  hoare (fun g => Ok (A := option (Edge EP)) None
                  = Ok (getEdge (address x) g)
                  /\ secondEdges (_edges G1) NODES es pre g)
    (addEdge x)
    (fun res g =>
       res = Ok tt /\ secondEdges (_edges G1) NODES es (pre ++ [x]) g).
Proof.
  intros Hxs g [Hnone [Hwf [Hord [Hn He]]]].
  injection Hnone as Hnone. symmetry in Hnone.
  pose proof (merged_step edgeResolver (_edges G1) (_edges G2)
                (wf_edges _ Hwf1) (wf_edges _ Hwf2) es pre x post Hes Hxs)
    as Hstep.
  pose proof Hnone as Hnone'. unfold getEdge in Hnone'.
  rewrite He in Hnone'. rewrite Hnone' in Hstep.
  assert (Hin : In x (getAllEdges G2))
    by (rewrite Hxs; apply in_or_app; right; now left).
  destruct (wf_endpoints G2 x Hwf2 Hin) as [[v1 Hsrc] [v2 Hdst]].
  assert (Hs : getNode (src x) g <> None).
  { unfold getNode, AddressMap.get. rewrite Hn.
    apply (merged_covers nodeResolver (_nodes G1) (_nodes G2)
             (wf_nodes _ Hwf1) (wf_nodes _ Hwf2) ns _ Hns).
    right. rewrite Hsrc. discriminate. }
  assert (Hd : getNode (dst x) g <> None).
  { unfold getNode, AddressMap.get. rewrite Hn.
    apply (merged_covers nodeResolver (_nodes G1) (_nodes G2)
             (wf_nodes _ Hwf1) (wf_nodes _ Hwf2) ns _ Hns).
    right. rewrite Hdst. discriminate. }
  pose proof (ordered_addEdge g x (conj Hwf Hord)) as [Hwf' Hord'].
  destruct (addEdge_fresh g x Hwf Hnone Hs Hd) as [g' [Hrun [_ [Hn' He']]]].
  rewrite Hrun in *. cbn [fst snd] in *.
  split; [reflexivity|]. split; [exact Hwf'|]. split; [exact Hord'|].
  split; [congruence|]. now rewrite He', He.
Qed.

Lemma loop_firstNodes :
  hoare (framed s0 (firstNodes nodeResolver (_nodes G2) []))
    (forEach (getAllNodes G1) (fun node =>
       other <- on g2 (gets (getNode (address node))) ;;
       match other with
       | Some other =>
           resolved <- liftResult (nodeResolver node other) ;;
           on (next s0) (addNode resolved)
       | None => on (next s0) (addNode node)
       end))
    (fun res s =>
       match res with
       | Ok _ =>
           framed s0 (firstNodes nodeResolver (_nodes G2) (getAllNodes G1)) s
       | Throw _ => False
       end).
Proof.
  apply (hoare_forEach
           (fun pre s => framed s0 (firstNodes nodeResolver (_nodes G2) pre) s)
           (fun _ _ => False)).
  intros pre x post Hxs.
  pose proof Hns as HF. rewrite Hxs in HF.
  destruct (resolvedTo_split _ _ _ _ _ _ HF) as [r [Hr _]].
  pose proof Hr as [Hres _]. unfold resolveWith in Hres.
  change (AddressMap.get (address x) (_nodes G2))
    with (getNode (address x) G2) in Hres.
  eapply hoare_bind.
  - apply hoare_on_read. exact Hg2.
  - intros other. apply hoare_assume. intros Heq. injection Heq as ->.
    destruct (getNode (address x) G2) as [o|].
    + rewrite Hres. eapply hoare_bind.
      * apply hoare_liftResult
          with (Q := fun res s =>
                       res = Ok r
                       /\ framed s0
                            (firstNodes nodeResolver (_nodes G2) pre) s).
        intros s Hs. split; [reflexivity | exact Hs].
      * intros resolved. apply hoare_assume. intros Heq.
        injection Heq as ->. eapply hoare_post.
        -- apply hoare_on_result. exact (step_firstNodes pre x r post Hxs Hr).
        -- intros res s Hs. now apply framed_ok.
      * intros e s [Heq _]. discriminate Heq.
    + injection Hres as <-. eapply hoare_post.
      * apply hoare_on_result. exact (step_firstNodes pre x x post Hxs Hr).
      * intros res s Hs. now apply framed_ok.
  - intros e s [Heq _]. discriminate Heq.
Qed.

Lemma loop_secondNodes :
  hoare (framed s0 (secondNodes (_nodes G1) ns []))
    (forEach (getAllNodes G2) (fun node =>
       present <- on (next s0) (gets (getNode (address node))) ;;
       match present with
       | None => on (next s0) (addNode node)
       | Some _ => ret tt
       end))
    (fun res s =>
       match res with
       | Ok _ => framed s0 (secondNodes (_nodes G1) ns (getAllNodes G2)) s
       | Throw _ => False
       end).
Proof.
  apply (hoare_forEach
           (fun pre s => framed s0 (secondNodes (_nodes G1) ns pre) s)
           (fun _ _ => False)).
  intros pre x post Hxs.
  eapply hoare_bind.
  - apply hoare_on_result.
    apply hoare_gets
      with (Q := fun res g => res = Ok (getNode (EP := EP) (address x) g)
                              /\ secondNodes (_nodes G1) ns pre g).
    auto.
  - intros [n|].
    + apply hoare_ret. intros s Hs. revert Hs. apply framed_mono.
      intros g [Heq [Hwf [Hord [He Hn]]]]. injection Heq as Heq.
      pose proof (merged_step nodeResolver (_nodes G1) (_nodes G2)
                    (wf_nodes _ Hwf1) (wf_nodes _ Hwf2) ns pre x post
                    Hns Hxs) as Hstep.
      unfold getNode in Heq. rewrite Hn in Heq. rewrite <- Heq in Hstep.
      split; [exact Hwf|]. split; [exact Hord|]. split; [exact He|].
      now rewrite Hn.
    + eapply hoare_post.
      * apply hoare_on_result. exact (step_secondNodes pre x post Hxs).
      * intros res s Hs. now apply framed_ok.
  - intros e s [_ [_ [Heq _]]]. discriminate Heq.
Qed.

Lemma loop_firstEdges :
  hoare (framed s0 (firstEdges edgeResolver (_edges G2) NODES []))
    (forEach (getAllEdges G1) (fun edge =>
       other <- on g2 (gets (getEdge (address edge))) ;;
       match other with
       | Some other =>
           resolved <- liftResult (edgeResolver edge other) ;;
           on (next s0) (addEdge resolved)
       | None => on (next s0) (addEdge edge)
       end))
    (fun res s =>
       match res with
       | Ok _ =>
           framed s0
             (firstEdges edgeResolver (_edges G2) NODES (getAllEdges G1)) s
       | Throw _ => False
       end).
Proof.
  apply (hoare_forEach
           (fun pre s =>
              framed s0 (firstEdges edgeResolver (_edges G2) NODES pre) s)
           (fun _ _ => False)).
  intros pre x post Hxs.
  pose proof Hes as HF. rewrite Hxs in HF.
  destruct (resolvedTo_split _ _ _ _ _ _ HF) as [r [Hr Hin]].
  pose proof Hr as [Hres _]. unfold resolveWith in Hres.
  change (AddressMap.get (address x) (_edges G2))
    with (getEdge (address x) G2) in Hres.
  eapply hoare_bind.
  - apply hoare_on_read. exact Hg2.
  - intros other. apply hoare_assume. intros Heq. injection Heq as ->.
    destruct (getEdge (address x) G2) as [o|].
    + rewrite Hres. eapply hoare_bind.
      * apply hoare_liftResult
          with (Q := fun res s =>
                       res = Ok r
                       /\ framed s0
                            (firstEdges edgeResolver (_edges G2) NODES pre)
                            s).
        intros s Hs. split; [reflexivity | exact Hs].
      * intros resolved. apply hoare_assume. intros Heq.
        injection Heq as ->. eapply hoare_post.
        -- apply hoare_on_result.
           exact (step_firstEdges pre x r post Hxs Hr Hin).
        -- intros res s Hs. now apply framed_ok.
      * intros e s [Heq _]. discriminate Heq.
    + injection Hres as <-. eapply hoare_post.
      * apply hoare_on_result.
        exact (step_firstEdges pre x x post Hxs Hr Hin).
      * intros res s Hs. now apply framed_ok.
  - intros e s [Heq _]. discriminate Heq.
Qed.

Lemma loop_secondEdges :
  hoare (framed s0 (secondEdges (_edges G1) NODES es []))
    (forEach (getAllEdges G2) (fun edge =>
       present <- on (next s0) (gets (getEdge (address edge))) ;;
       match present with
       | None => on (next s0) (addEdge edge)
       | Some _ => ret tt
       end))
    (fun res s =>
       match res with
       | Ok _ =>
           framed s0 (secondEdges (_edges G1) NODES es (getAllEdges G2)) s
       | Throw _ => False
       end).
Proof.
  apply (hoare_forEach
           (fun pre s => framed s0 (secondEdges (_edges G1) NODES es pre) s)
           (fun _ _ => False)).
  intros pre x post Hxs.
  eapply hoare_bind.
  - apply hoare_on_result.
    apply hoare_gets
      with (Q := fun res g => res = Ok (getEdge (NP := NP) (address x) g)
                              /\ secondEdges (_edges G1) NODES es pre g).
    auto.
  - intros [e|].
    + apply hoare_ret. intros s Hs. revert Hs. apply framed_mono.
      intros g [Heq [Hwf [Hord [Hn He]]]]. injection Heq as Heq.
      pose proof (merged_step edgeResolver (_edges G1) (_edges G2)
                    (wf_edges _ Hwf1) (wf_edges _ Hwf2) es pre x post
                    Hes Hxs) as Hstep.
      unfold getEdge in Heq. rewrite He in Heq. rewrite <- Heq in Hstep.
      split; [exact Hwf|]. split; [exact Hord|]. split; [exact Hn|].
      now rewrite He.
    + eapply hoare_post.
      * apply hoare_on_result. exact (step_secondEdges pre x post Hxs).
      * intros res s Hs. now apply framed_ok.
  - intros e s [_ [_ [Heq _]]]. discriminate Heq.
Qed.

(** [merge] returns the new graph, which holds the answers for the nodes
    and edges of the first graph and then what only the second has. *)
Lemma merge_hoare :
  hoare (fun s => s = s0) (merge g1 g2 nodeResolver edgeResolver)
    (fun res s =>
       res = Ok (next s0)
       /\ framed s0 (secondEdges (_edges G1) NODES es (getAllEdges G2)) s).
Proof.
  unfold merge.
  apply hoare_bind
    with (R := fun res s =>
                 res = Ok (next s0)
                 /\ framed s0 (firstNodes nodeResolver (_nodes G2) []) s).
  - intros s ->. apply framed_new.
    split; [apply wf_empty|]. split; [apply ordered_empty|].
    split; [reflexivity|]. exists []. split; [constructor | reflexivity].
  - intros result. apply hoare_assume. intros Heq. injection Heq as ->.
    eapply hoare_bind;
      [ apply hoare_on_read; exact Hg1 | | intros e s [Heq _]; discriminate Heq ].
    intros nodes1. apply hoare_assume. intros Heq. injection Heq as ->.
    eapply hoare_bind; [ apply loop_firstNodes | | intros e s [] ].
    intros [].
    eapply hoare_bind;
      [ apply hoare_on_read; exact Hg2 | | intros e s [Heq _]; discriminate Heq ].
    intros nodes2. apply hoare_assume. intros Heq. injection Heq as ->.
    eapply hoare_bind;
      [ eapply hoare_pre; [| apply loop_secondNodes] | | intros e s [] ].
    { intros s. apply framed_mono.
      intros g [Hwf [Hord [He [rs [Hrs Hn]]]]].
      rewrite (resolvedTo_functional _ _ _ _ _ Hrs Hns) in Hn.
      split; [exact Hwf|]. split; [exact Hord|]. split; [exact He|].
      unfold mergedMap. cbn [onlyInSecond filter]. now rewrite app_nil_r. }
    intros [].
    eapply hoare_bind;
      [ apply hoare_on_read; exact Hg1 | | intros e s [Heq _]; discriminate Heq ].
    intros edges1. apply hoare_assume. intros Heq. injection Heq as ->.
    eapply hoare_bind;
      [ eapply hoare_pre; [| apply loop_firstEdges] | | intros e s [] ].
    { intros s. apply framed_mono. intros g [Hwf [Hord [He Hn]]].
      split; [exact Hwf|]. split; [exact Hord|]. split; [exact Hn|].
      exists []. split; [constructor | exact He]. }
    intros [].
    eapply hoare_bind;
      [ apply hoare_on_read; exact Hg2 | | intros e s [Heq _]; discriminate Heq ].
    intros edges2. apply hoare_assume. intros Heq. injection Heq as ->.
    eapply hoare_bind;
      [ eapply hoare_pre; [| apply loop_secondEdges] | | intros e s [] ].
    { intros s. apply framed_mono.
      intros g [Hwf [Hord [Hn [rs [Hrs He]]]]].
      rewrite (resolvedTo_functional _ _ _ _ _ Hrs Hes) in He.
      split; [exact Hwf|]. split; [exact Hord|]. split; [exact Hn|].
      unfold mergedMap. cbn [onlyInSecond filter]. now rewrite app_nil_r. }
    intros []. apply hoare_ret. intros s Hs. split; [reflexivity | exact Hs].
  - intros e s [Heq _]. discriminate Heq.
Qed.
End MergeGeneral.

Section MergeResults.
Import Graph.
Context {NP EP : Type} `{DeepEqual NP} `{DeepEqual EP}.
Implicit Types (s : Store NP EP).

Lemma onlyInSecond_nil {U} `{Addressable U} (ys : list U) :
  onlyInSecond [] ys = ys.
Proof.
  unfold onlyInSecond. induction ys as [|y ys IH]; [reflexivity|].
  cbn [filter]. rewrite IH. reflexivity.
Qed.

Lemma onlyInSecond_self {U} `{Addressable U} (m : AddressMap.t U) :
  mapOk m -> onlyInSecond m (AddressMap.getAll m) = [].
Proof.
  intros Hm. unfold onlyInSecond. apply filter_none. intros y Hy.
  apply (mapOk_getAll _ _ Hm) in Hy. unfold AddressMap.get in Hy.
  unfold JsObject.has. now rewrite Hy.
Qed.

Lemma wf_endpoints_present (g : Graph NP EP) (x : Edge EP) :
  wf g -> In x (getAllEdges g) ->
  getNode (src x) g <> None /\ getNode (dst x) g <> None.
Proof.
  intros Hwf Hin. destruct (wf_endpoints g x Hwf Hin) as [[v1 Hs] [v2 Hd]].
  unfold getNode, AddressMap.get. rewrite Hs, Hd. split; discriminate.
Qed.

(** X13.  [merge] with resolvers that keep their contract.  Let the
    resolvers return, for every node and edge of [g1] at whose address
    [g2] holds one too, a value at the same address, and let the ends of
    the edges so obtained be nodes of [g1] or [g2].  Then [merge] returns
    the new graph; its nodes are, in this order, the nodes of [g1], each
    replaced by the resolver's answer where [g2] has its address, and
    then the nodes of [g2] at addresses that [g1] lacks; its edges are
    made the same way. *)
Theorem merge_result s (g1 g2 : nat)
    (nodeResolver : Resolver (Node NP)) (edgeResolver : Resolver (Edge EP))
    (ns : list (Node NP)) (es : list (Edge EP)) :
  g1 < next s -> g2 < next s -> wf (heap s g1) -> wf (heap s g2) ->
  Forall2 (resolvedTo nodeResolver (_nodes (heap s g2)))
    (getAllNodes (heap s g1)) ns ->
  Forall2 (resolvedTo edgeResolver (_edges (heap s g2)))
    (getAllEdges (heap s g1)) es ->
  (forall e, In e es ->
     (getNode (src e) (heap s g1) <> None
      \/ getNode (src e) (heap s g2) <> None)
     /\ (getNode (dst e) (heap s g1) <> None
         \/ getNode (dst e) (heap s g2) <> None)) ->
  fst (merge g1 g2 nodeResolver edgeResolver s) = Ok (next s)
  /\ getAllNodes
       (heap (snd (merge g1 g2 nodeResolver edgeResolver s)) (next s))
     = ns ++ onlyInSecond (_nodes (heap s g1)) (getAllNodes (heap s g2))
  /\ getAllEdges
       (heap (snd (merge g1 g2 nodeResolver edgeResolver s)) (next s))
     = es ++ onlyInSecond (_edges (heap s g1)) (getAllEdges (heap s g2)).
Proof.
  intros Hg1 Hg2 Hwf1 Hwf2 Hns Hes Hends.
  destruct (merge_hoare s g1 g2 Hg1 Hg2 Hwf1 Hwf2 nodeResolver edgeResolver
              ns es Hns Hes Hends s eq_refl)
    as [Hres [_ [_ [_ [_ [Hn He]]]]]].
  split; [exact Hres|]. unfold getAllNodes, getAllEdges at 1.
  rewrite Hn, He. unfold mergedMap. now rewrite !getAll_entries.
Qed.

(** X14.  [mergeConservative] on two graphs that agree wherever they
    share an address returns a new graph that lists the nodes of [g1] as
    [g1] does, followed by the nodes of [g2] at addresses [g1] lacks, in
    the order of [g2]; and so for the edges. *)
Theorem mergeConservative_result s (g1 g2 : nat) :
  g1 < next s -> g2 < next s -> wf (heap s g1) -> wf (heap s g2) ->
  agree (_nodes (heap s g1)) (_nodes (heap s g2)) ->
  agree (_edges (heap s g1)) (_edges (heap s g2)) ->
  fst (mergeConservative g1 g2 s) = Ok (next s)
  /\ getAllNodes (heap (snd (mergeConservative g1 g2 s)) (next s))
     = getAllNodes (heap s g1)
       ++ onlyInSecond (_nodes (heap s g1)) (getAllNodes (heap s g2))
  /\ getAllEdges (heap (snd (mergeConservative g1 g2 s)) (next s))
     = getAllEdges (heap s g1)
       ++ onlyInSecond (_edges (heap s g1)) (getAllEdges (heap s g2)).
Proof.
  intros Hg1 Hg2 Hwf1 Hwf2 Hagn Hage. unfold mergeConservative.
  assert (Hns : Forall2 (resolvedTo (conservativeResolver "nodes")
                           (_nodes (heap s g2)))
                  (getAllNodes (heap s g1)) (getAllNodes (heap s g1))).
  { apply resolvedTo_same. intros x Hx. unfold resolveWith.
    destruct (AddressMap.get (address x) (_nodes (heap s g2))) as [o|] eqn:Ho;
      [|reflexivity].
    unfold conservativeResolver. now rewrite (Hagn x o Hx Ho). }
  assert (Hes : Forall2 (resolvedTo (conservativeResolver "edges")
                           (_edges (heap s g2)))
                  (getAllEdges (heap s g1)) (getAllEdges (heap s g1))).
  { apply resolvedTo_same. intros x Hx. unfold resolveWith.
    destruct (AddressMap.get (address x) (_edges (heap s g2))) as [o|] eqn:Ho;
      [|reflexivity].
    unfold conservativeResolver. now rewrite (Hage x o Hx Ho). }
  destruct (merge_hoare s g1 g2 Hg1 Hg2 Hwf1 Hwf2 _ _ _ _ Hns Hes)
    with (s := s) as [Hres [_ [_ [_ [_ [Hn He]]]]]].
  - intros e He.
    destruct (wf_endpoints_present _ e Hwf1 He) as [Hs Hd]. auto.
  - reflexivity.
  - split; [exact Hres|]. unfold getAllNodes, getAllEdges at 1.
    rewrite Hn, He. unfold mergedMap. now rewrite !getAll_entries.
Qed.

(** X15.  Merging with an empty graph copies the other graph, whatever
    the resolvers (they are not called): the result is a new graph with
    the same nodes and edges in the same order, and the same lists of
    out-edges and in-edges. *)
Theorem merge_with_empty s (g1 g2 : nat)
    (nodeResolver : Resolver (Node NP)) (edgeResolver : Resolver (Edge EP)) :
  g1 < next s -> g2 < next s ->
  constructed (heap s g1) -> constructed (heap s g2) ->
  (heap s g2 = empty ->
   fst (merge g1 g2 nodeResolver edgeResolver s) = Ok (next s)
   /\ heap (snd (merge g1 g2 nodeResolver edgeResolver s)) (next s)
      = heap s g1)
  /\ (heap s g1 = empty ->
      fst (merge g1 g2 nodeResolver edgeResolver s) = Ok (next s)
      /\ heap (snd (merge g1 g2 nodeResolver edgeResolver s)) (next s)
         = heap s g2).
Proof.
  intros Hg1 Hg2 Hc1 Hc2.
  apply constructed_ordered in Hc1, Hc2.
  pose proof (proj1 Hc1) as Hwf1. pose proof (proj1 Hc2) as Hwf2.
  split; intros Hempty.
  - assert (Hns : Forall2 (resolvedTo nodeResolver (_nodes (heap s g2)))
                    (getAllNodes (heap s g1)) (getAllNodes (heap s g1))).
    { apply resolvedTo_same. intros x _. unfold resolveWith.
      now rewrite Hempty. }
    assert (Hes : Forall2 (resolvedTo edgeResolver (_edges (heap s g2)))
                    (getAllEdges (heap s g1)) (getAllEdges (heap s g1))).
    { apply resolvedTo_same. intros x _. unfold resolveWith.
      now rewrite Hempty. }
    destruct (merge_hoare s g1 g2 Hg1 Hg2 Hwf1 Hwf2 _ _ _ _ Hns Hes)
      with (s := s) as [Hres [_ [_ [Hwf [Hord [Hn He]]]]]].
    + intros e He.
      destruct (wf_endpoints_present _ e Hwf1 He) as [Hs Hd]. auto.
    + reflexivity.
    + split; [exact Hres|].
      apply graph_determined; [now split | exact Hc1 | |].
      * rewrite Hn, Hempty. unfold mergedMap.
        cbn [getAllNodes _nodes empty AddressMap.getAll AddressMap.empty
             JsObject.values map onlyInSecond filter].
        rewrite app_nil_r. symmetry.
        apply mapOk_entries, (wf_nodes _ Hwf1).
      * rewrite He, Hempty. unfold mergedMap.
        cbn [getAllEdges _edges empty AddressMap.getAll AddressMap.empty
             JsObject.values map onlyInSecond filter].
        rewrite app_nil_r. symmetry.
        apply mapOk_entries, (wf_edges _ Hwf1).
  - assert (Hns : Forall2 (resolvedTo nodeResolver (_nodes (heap s g2)))
                    (getAllNodes (heap s g1)) []).
    { rewrite Hempty. constructor. }
    assert (Hes : Forall2 (resolvedTo edgeResolver (_edges (heap s g2)))
                    (getAllEdges (heap s g1)) []).
    { rewrite Hempty. constructor. }
    destruct (merge_hoare s g1 g2 Hg1 Hg2 Hwf1 Hwf2 _ _ _ _ Hns Hes)
      with (s := s) as [Hres [_ [_ [Hwf [Hord [Hn He]]]]]].
    + intros e [].
    + reflexivity.
    + split; [exact Hres|].
      apply graph_determined; [now split | exact Hc2 | |].
      * rewrite Hn, Hempty. unfold mergedMap. cbn [app _nodes empty].
        unfold AddressMap.empty. rewrite onlyInSecond_nil. symmetry.
        apply mapOk_entries, (wf_nodes _ Hwf2).
      * rewrite He, Hempty. unfold mergedMap. cbn [app _edges empty].
        unfold AddressMap.empty. rewrite onlyInSecond_nil. symmetry.
        apply mapOk_entries, (wf_edges _ Hwf2).
Qed.

(** X16.  [mergeConservative] of a graph with itself copies it, when its
    nodes and edges are deep-equal to themselves. *)
Theorem mergeConservative_self s (r : nat) :
  r < next s -> constructed (heap s r) ->
  forallb (fun n => deepEqual n n) (getAllNodes (heap s r)) = true ->
  forallb (fun e => deepEqual e e) (getAllEdges (heap s r)) = true ->
  fst (mergeConservative r r s) = Ok (next s)
  /\ heap (snd (mergeConservative r r s)) (next s) = heap s r.
Proof.
  intros Hr Hc Hnn Hee. apply constructed_ordered in Hc.
  pose proof (proj1 Hc) as Hwf. rewrite forallb_forall in Hnn, Hee.
  unfold mergeConservative.
  assert (Hns : Forall2 (resolvedTo (conservativeResolver "nodes")
                           (_nodes (heap s r)))
                  (getAllNodes (heap s r)) (getAllNodes (heap s r))).
  { apply resolvedTo_same. intros x Hx. unfold resolveWith.
    rewrite (mapOk_getAll _ _ (wf_nodes _ Hwf) Hx).
    unfold conservativeResolver. now rewrite (Hnn x Hx). }
  assert (Hes : Forall2 (resolvedTo (conservativeResolver "edges")
                           (_edges (heap s r)))
                  (getAllEdges (heap s r)) (getAllEdges (heap s r))).
  { apply resolvedTo_same. intros x Hx. unfold resolveWith.
    rewrite (mapOk_getAll _ _ (wf_edges _ Hwf) Hx).
    unfold conservativeResolver. now rewrite (Hee x Hx). }
  destruct (merge_hoare s r r Hr Hr Hwf Hwf _ _ _ _ Hns Hes)
    with (s := s) as [Hres [_ [_ [Hwf' [Hord' [Hn He]]]]]].
  - intros e He.
    destruct (wf_endpoints_present _ e Hwf He) as [Hs Hd]. auto.
  - reflexivity.
  - split; [exact Hres|].
    apply graph_determined; [now split | exact Hc | |].
    + rewrite Hn. unfold mergedMap, getAllNodes.
      rewrite (onlyInSecond_self _ (wf_nodes _ Hwf)), app_nil_r.
      symmetry. apply mapOk_entries, (wf_nodes _ Hwf).
    + rewrite He. unfold mergedMap, getAllEdges.
      rewrite (onlyInSecond_self _ (wf_edges _ Hwf)), app_nil_r.
      symmetry. apply mapOk_entries, (wf_edges _ Hwf).
Qed.
End MergeResults.

(** ** [equals] on graphs *)

Section GraphEquals.
Import Graph.
Context {NP EP : Type} `{DeepEqual NP} `{DeepEqual EP}.
Implicit Types (g : Graph NP EP).

Lemma equals_by_address {U} `{Addressable U} `{DeepEqual U}
    (m1 m2 : AddressMap.t U) :
  mapOk m1 -> mapOk m2 ->
  (AddressMap.equals m1 m2 = true
   <-> (forall a, AddressMap.get a m1 = None <-> AddressMap.get a m2 = None)
       /\ (forall a u1 u2,
             AddressMap.get a m1 = Some u1 -> AddressMap.get a m2 = Some u2 ->
             deepEqual u1 u2 = true)).
Proof.
  intros Hm1 Hm2.
  rewrite (equals_spec m1 m2 (proj1 Hm1) (proj1 Hm2)).
  unfold AddressMap.get. split; intros [Hkeys Hval]; split.
  - intros a. rewrite !get_None_iff. now rewrite Hkeys.
  - intros a u1 u2. apply Hval.
  - assert (Hhalf : forall (ma mb : AddressMap.t U), mapOk ma ->
              (forall a, JsObject.get (JSON.stringify a) ma = None
                         <-> JsObject.get (JSON.stringify a) mb = None) ->
              forall k, In k (JsObject.keys ma) -> In k (JsObject.keys mb)).
    { intros ma mb Hma Hab k Hin. apply In_keys_get in Hin.
      destruct Hin as [u Hu]. pose proof (mapOk_get _ _ _ Hma Hu) as ->.
      destruct (JsObject.get (JSON.stringify (address u)) mb) as [v|] eqn:Hv.
      - eapply get_Some_In_keys. exact Hv.
      - apply Hab in Hv. congruence. }
    intros k. split.
    + now apply (Hhalf m1 m2).
    + apply (Hhalf m2 m1); [exact Hm2|]. intros a. symmetry. apply Hkeys.
  - intros k u1 u2 Hu1 Hu2. pose proof (mapOk_get _ _ _ Hm1 Hu1) as ->.
    now apply (Hval (address u1)).
Qed.

(** X17.  [equals] on two graphs a program can hold answers [true] exactly
    when the two have nodes at the same addresses and edges at the same
    addresses, and what they hold at each address is deep-equal; the
    order in which the graphs were built plays no part. *)
Theorem graph_equals_iff g1 g2 :
  constructed g1 -> constructed g2 ->
  (equals g1 g2 = true
   <-> ((forall a, getNode a g1 = None <-> getNode a g2 = None)
        /\ (forall a n1 n2, getNode a g1 = Some n1 -> getNode a g2 = Some n2 ->
              deepEqual n1 n2 = true))
       /\ ((forall a, getEdge a g1 = None <-> getEdge a g2 = None)
           /\ (forall a e1 e2,
                 getEdge a g1 = Some e1 -> getEdge a g2 = Some e2 ->
                 deepEqual e1 e2 = true))).
Proof.
  intros H1 H2. apply constructed_ordered in H1, H2.
  destruct H1 as [[Hn1 He1 _ _] _], H2 as [[Hn2 He2 _ _] _].
  unfold equals, getNode, getEdge. rewrite andb_true_iff.
  rewrite (equals_by_address _ _ Hn1 Hn2), (equals_by_address _ _ He1 He2).
  reflexivity.
Qed.
End GraphEquals.

(** ** The properties of this part on the graphs of the tests *)

Section GraphExtraSamples.
Import Graph.

Lemma constructed_mansionGraph : constructed mansionGraph.
Proof.
  apply (constructed_addNode empty mansion);
    [apply constructed_new | reflexivity].
Qed.

Lemma constructed_suburbia : constructed suburbia.
Proof.
  apply (constructed_addEdge
           (snd (addNode mattressStore mansionGraph)) street);
    [|reflexivity].
  apply (constructed_addNode mansionGraph mattressStore);
    [exact constructed_mansionGraph | reflexivity].
Qed.

Lemma constructed_determined_witness :
  heap (snd (mergeConservative 0 1 twoGraphs)) 2 = suburbia.
Proof.
  apply constructed_determined;
    [ | exact constructed_suburbia | reflexivity | reflexivity ].
  apply (constructed_mergeConservative 0 1 twoGraphs 2
           (snd (mergeConservative 0 1 twoGraphs))).
  reflexivity.
Defined.

Lemma edges_of_node_witness :
  getOutEdges (makeAddress "mansion") suburbia = Ok [Some street]
  /\ getInEdges (makeAddress "mansion") suburbia = Ok []
  /\ getOutEdges (makeAddress "nowhere") suburbia
     = Throw (noNodeForAddress (makeAddress "nowhere")).
Proof.
  pose proof (edges_of_node suburbia (makeAddress "mansion")
                constructed_suburbia) as Hmansion.
  pose proof (edges_of_node suburbia (makeAddress "nowhere")
                constructed_suburbia) as Hnowhere.
  split; [exact (proj1 Hmansion)|].
  split; [exact (proj2 Hmansion) | exact (proj1 Hnowhere)].
Defined.

Lemma addEdge_appends_witness :
  exists g', addEdge driveway suburbia = (Ok tt, g')
    /\ getAllEdges g' = [street; driveway]
    /\ getOutEdges (makeAddress "mansion") g'
       = Ok [Some street; Some driveway]
    /\ getInEdges (makeAddress "mansion") g' = Ok [Some driveway].
Proof.
  destruct (addEdge_appends suburbia driveway constructed_suburbia)
    as [g' [Hrun [_ [Hall [_ [Hout [Hin _]]]]]]];
    [reflexivity | discriminate | discriminate |].
  exists g'. split; [exact Hrun|]. split; [exact Hall|].
  split; [exact (Hout [Some street] eq_refl) | exact (Hin [] eq_refl)].
Defined.

Lemma addNode_appends_witness :
  exists g', addNode mattressStore mansionGraph = (Ok tt, g')
    /\ getAllNodes g' = [mansion; mattressStore]
    /\ getOutEdges (makeAddress "mattressStore") g' = Ok []
    /\ getInEdges (makeAddress "mattressStore") g' = Ok [].
Proof.
  destruct (addNode_appends mansionGraph mattressStore)
    as [g' [Hrun [Hall [_ [_ [Hout [Hin _]]]]]]]; [reflexivity|].
  exists g'. split; [exact Hrun|]. split; [exact Hall|].
  split; [exact Hout | exact Hin].
Defined.

Lemma graph_fromJSON_toJSON_witness :
  fst (fromJSON (toJSON suburbia) twoGraphs) = Ok 2
  /\ heap (snd (fromJSON (toJSON suburbia) twoGraphs)) 2 = suburbia.
Proof.
  destruct (graph_fromJSON_toJSON twoGraphs suburbia constructed_suburbia)
    as [Hres [Hnew _]]; [reflexivity | reflexivity |].
  split; [exact Hres | exact Hnew].
Defined.

Lemma merge_result_witness :
  fst (merge 1 0 (fun _ other => Ok other) keepFirst twoGraphs) = Ok 2
  /\ getAllNodes
       (heap (snd (merge 1 0 (fun _ other => Ok other) keepFirst twoGraphs))
          2)
     = [mansion; mattressStore]
  /\ getAllEdges
       (heap (snd (merge 1 0 (fun _ other => Ok other) keepFirst twoGraphs))
          2)
     = [street].
Proof.
  assert (H0 : 0 < next twoGraphs) by (simpl; lia).
  assert (H1 : 1 < next twoGraphs) by (simpl; lia).
  apply (merge_result twoGraphs 1 0 (fun _ other => Ok other) keepFirst
           [mansion] [] H1 H0 wf_mansionGraph wf_suburbia).
  - constructor; [split; reflexivity | constructor].
  - constructor.
  - intros e [].
Defined.

Lemma mergeConservative_result_witness :
  fst (mergeConservative 1 0 twoGraphs) = Ok 2
  /\ getAllNodes (heap (snd (mergeConservative 1 0 twoGraphs)) 2)
     = [mansion; mattressStore]
  /\ getAllEdges (heap (snd (mergeConservative 1 0 twoGraphs)) 2)
     = [street].
Proof.
  assert (H0 : 0 < next twoGraphs) by (simpl; lia).
  assert (H1 : 1 < next twoGraphs) by (simpl; lia).
  apply (mergeConservative_result twoGraphs 1 0 H1 H0
           wf_mansionGraph wf_suburbia).
  - intros u1 u2 [<-|[]] Hget. vm_compute in Hget.
    injection Hget as <-. reflexivity.
  - intros u1 u2 [].
Defined.

Lemma merge_with_empty_witness :
  fst (merge 0 1 toPalace keepFirst
         (mkStore 2 (fun r => match r with 0 => suburbia | _ => empty end)))
  = Ok 2
  /\ heap (snd (merge 0 1 toPalace keepFirst
                  (mkStore 2 (fun r => match r with
                                       | 0 => suburbia
                                       | _ => empty
                                       end)))) 2
     = suburbia.
Proof.
  destruct (merge_with_empty
              (mkStore 2 (fun r => match r with 0 => suburbia | _ => empty end))
              0 1 toPalace keepFirst) as [Hright _];
    [simpl; lia | simpl; lia | exact constructed_suburbia
     | apply constructed_new |].
  exact (Hright eq_refl).
Defined.

Lemma mergeConservative_self_witness :
  fst (mergeConservative 0 0 twoGraphs) = Ok 2
  /\ heap (snd (mergeConservative 0 0 twoGraphs)) 2 = suburbia.
Proof.
  apply (mergeConservative_self twoGraphs 0);
    [simpl; lia | exact constructed_suburbia | reflexivity | reflexivity].
Defined.

Lemma graph_equals_iff_witness :
  equals suburbia mansionGraph = true
  <-> ((forall a, getNode a suburbia = None <-> getNode a mansionGraph = None)
       /\ (forall a n1 n2,
             getNode a suburbia = Some n1 -> getNode a mansionGraph = Some n2 ->
             deepEqual n1 n2 = true))
      /\ ((forall a, getEdge a suburbia = None <-> getEdge a mansionGraph = None)
          /\ (forall a e1 e2,
                getEdge a suburbia = Some e1 ->
                getEdge a mansionGraph = Some e2 ->
                deepEqual e1 e2 = true)).
Proof.
  apply (graph_equals_iff suburbia mansionGraph constructed_suburbia
           constructed_mansionGraph).
Defined.
End GraphExtraSamples.

(** ** [fromJSON] and the graphs that exist already *)

Section FromJSONFrame.
Import Graph.
Context {NP EP : Type} `{DeepEqual NP} `{DeepEqual EP}.

(** X18.  [fromJSON] writes to the graph it creates and to no other:
    whether it returns or throws (on a key that is no address, on a node
    or an edge that [addNode] or [addEdge] refuses), every graph of the
    store is as it was; what it returns is a reference that was not in
    use, and the graph there is well-formed. *)
Theorem fromJSON_leaves_store (s : Store NP EP) (json : GraphJSON NP EP) :
  (forall r, r < next s -> heap (snd (fromJSON json s)) r = heap s r)
  /\ (forall r, fst (fromJSON json s) = Ok r ->
        r = next s /\ wf (heap (snd (fromJSON json s)) r)).
Proof.
  destruct (fromJSON_framed s wf json wf_empty keeps_wf_addNode
              keeps_wf_addEdge s eq_refl) as [[_ [Hold Hwf]] Hres].
  split; [exact Hold|]. intros r Hr. specialize (Hres r Hr). subst r.
  now split.
Qed.
End FromJSONFrame.

Section FromJSONFrameSample.
Import Graph.

Lemma fromJSON_leaves_store_witness :
  heap (snd (fromJSON (toJSON suburbia) twoGraphs)) 0 = suburbia
  /\ heap (snd (fromJSON (toJSON suburbia) twoGraphs)) 1 = mansionGraph.
Proof.
  destruct (fromJSON_leaves_store twoGraphs (toJSON suburbia)) as [Hold _].
  split; apply Hold; simpl; lia.
Defined.
End FromJSONFrameSample.

(* ================================================================= *)
(** * The node addresses of the GitHub plugin *)

Section GithubAddresses.
Import GithubParser.

(** X19.  What [makeNodeAddress] returns is an address of the exact
    object type, and two of them are stored under the same key of an
    address map only if repository, type and id are the same: nodes of
    different type or id never meet at one key. *)
Theorem makeNodeAddress_key (repositoryName type id : string)
    (repositoryName' type' id' : string) :
  isAddress (makeNodeAddress repositoryName type id) = true
  /\ (JSON.stringify (makeNodeAddress repositoryName type id)
      = JSON.stringify (makeNodeAddress repositoryName' type' id')
      <-> repositoryName = repositoryName' /\ type = type' /\ id = id').
Proof.
  split; [reflexivity|]. split.
  - intros Heq. apply stringify_injective in Heq.
    unfold makeNodeAddress in Heq. injection Heq as -> -> ->. now split.
  - intros [-> [-> ->]]. reflexivity.
Qed.
End GithubAddresses.
